(** * subplot: the catalog browser's search, rendering and text helpers

    A shallow embedding of the search path of the front end (app.js):
    [escapeHtml], [makeKey], [normalizeMovie], [mergeMovies],
    [applyFilters], [renderLocal], [renderUsingApi] and [render],
    together with the runtime primitives they call, followed by the
    properties proved about them.

    Conventions of the embedding:
    - a string is the list of its UTF-16 code units;
    - a property that may be missing is an [option], [None] standing
      for [undefined] or [null];
    - an evaluation that may throw returns an [outcome];
    - the global [state] is passed explicitly and returned when it is
      written; the document is reduced to the statistics line, the
      cards, the pagination bar and the API status;
    - console output, timers, the carousels and the favourites counter
      are not part of the model.

    The hybrid search that answers the [/search] request is not part
    of these sources; module [Design] models it from the
    specification. *)

From Stdlib Require Import ZArith NArith QArith List String Ascii Bool Lia.
From Stdlib Require Import DecimalString Lqa Sorted.
From stdpp Require Import base decidable option list.

Local Open Scope N_scope.

(* ================================================================== *)
(** * Part I. The program                                             *)
(* ================================================================== *)

(** ** JavaScript strings

    A JavaScript string is a sequence of UTF-16 code units. *)

Definition jsstring : Type := list N.

(** ASCII literals of the source, as code units. *)
Definition lit (s : string) : jsstring :=
  map N_of_ascii (list_ascii_of_string s).

(** Truthiness of a string: every string but the empty one. *)
Definition truthy (s : jsstring) : bool :=
  match s with [] => false | _ :: _ => true end.

(** [x || y] on possibly absent strings ([None] is [undefined] or
    [null]): the first operand if it is a non-empty string. *)
Definition orElse (x : option jsstring) (y : option jsstring) : option jsstring :=
  match x with
  | Some (_ :: _) => x
  | _ => y
  end.

(** [String(x ?? '')] and [String(x || '')] on a possibly absent
    string: both give the string itself, or the empty string. *)
Definition toStr (x : option jsstring) : jsstring := default [] x.

(** [String.prototype.startsWith] and [String.prototype.includes]. *)
Fixpoint startsWith (h q : jsstring) : bool :=
  match q, h with
  | [], _ => true
  | _ :: _, [] => false
  | c :: q', d :: h' => (c =? d) && startsWith h' q'
  end.

Fixpoint includes (h q : jsstring) : bool :=
  startsWith h q ||
  match h with
  | [] => false
  | _ :: h' => includes h' q
  end.

(** [Array.prototype.join]: absent elements print as the empty string. *)
Fixpoint join (sep : jsstring) (l : list (option jsstring)) : jsstring :=
  match l with
  | [] => []
  | [x] => toStr x
  | x :: rest => toStr x ++ sep ++ join sep rest
  end.

(** [Array.prototype.includes] on an array of strings. *)
Definition arrayIncludes (l : list jsstring) (t : jsstring) : bool :=
  bool_decide (t ∈ l).

(** The class [\s] of regular expressions, which is also what [trim]
    removes: WhiteSpace and LineTerminator code points. *)
Definition isSpace (c : N) : bool :=
  ((9 <=? c) && (c <=? 13)) || (c =? 32) || (c =? 160) || (c =? 5760)
  || ((8192 <=? c) && (c <=? 8202)) || (c =? 8232) || (c =? 8233)
  || (c =? 8239) || (c =? 8287) || (c =? 12288) || (c =? 65279).

Fixpoint trimStart (s : jsstring) : jsstring :=
  match s with
  | [] => []
  | c :: s' => if isSpace c then trimStart s' else s
  end.

Definition trimEnd (s : jsstring) : jsstring := rev (trimStart (rev s)).

Definition trim (s : jsstring) : jsstring := trimEnd (trimStart s).

(** [s.replace(/\s+/g, ' ')]: every maximal run of white space becomes
    one space.  [inRun] records that the previous code unit was part of
    the run being replaced. *)
Fixpoint collapseFrom (inRun : bool) (s : jsstring) : jsstring :=
  match s with
  | [] => []
  | c :: s' =>
      if isSpace c
      then (if inRun then collapseFrom true s' else 32 :: collapseFrom true s')
      else c :: collapseFrom false s'
  end.

Definition collapseSpaces (s : jsstring) : jsstring := collapseFrom false s.

(** [replace] with a global one-character class: matched units are
    replaced by the callback's result, the others are copied. *)
Fixpoint replaceClass (cls : N -> bool) (f : N -> jsstring) (s : jsstring)
  : jsstring :=
  match s with
  | [] => []
  | c :: s' => (if cls c then f c else [c]) ++ replaceClass cls f s'
  end.

(** ** Case conversion and Unicode normalization

    [toLowerCase] and [normalize('NFKD')] belong to the runtime.  They
    are modelled on the following code units, where the definitions
    below give exactly the runtime's result: Basic Latin and Latin-1
    Supplement (U+0000 to U+00FF), the combining diacritical marks
    (U+0300 to U+036F), the white space of [isSpace], the letterlike
    symbols U+2120 (service mark) and U+2122 (trade mark), and the two
    code units that decompositions of Latin-1 produce outside these
    ranges, U+03BC and U+2044.  Other code units are left unchanged
    by the model, which is not claimed to follow the runtime there. *)

Definition inFragment (c : N) : bool :=
  (c <? 256) || ((768 <=? c) && (c <=? 879)) || isSpace c
  || (c =? 956) || (c =? 8260) || (c =? 8480) || (c =? 8482).

Definition toLowerCaseUnit (c : N) : N :=
  if (65 <=? c) && (c <=? 90) then c + 32
  else if (192 <=? c) && (c <=? 222) && negb (c =? 215) then c + 32
  else c.

Definition toLowerCase (s : jsstring) : jsstring := map toLowerCaseUnit s.

(** Canonical decompositions of the accented small letters of
    Latin-1: the base letter and the combining mark. *)
Definition latin1Accent (c : N) : option (N * N) :=
  match c with
  | 224 => Some (97, 768) | 225 => Some (97, 769) | 226 => Some (97, 770)
  | 227 => Some (97, 771) | 228 => Some (97, 776) | 229 => Some (97, 778)
  | 231 => Some (99, 807)
  | 232 => Some (101, 768) | 233 => Some (101, 769) | 234 => Some (101, 770)
  | 235 => Some (101, 776)
  | 236 => Some (105, 768) | 237 => Some (105, 769) | 238 => Some (105, 770)
  | 239 => Some (105, 776)
  | 241 => Some (110, 771)
  | 242 => Some (111, 768) | 243 => Some (111, 769) | 244 => Some (111, 770)
  | 245 => Some (111, 771) | 246 => Some (111, 776)
  | 249 => Some (117, 768) | 250 => Some (117, 769) | 251 => Some (117, 770)
  | 252 => Some (117, 776)
  | 253 => Some (121, 769) | 255 => Some (121, 776)
  | _ => None
  end.

(** Full compatibility decomposition of one code unit. *)
Definition decompose (c : N) : jsstring :=
  match latin1Accent c with
  | Some (b, m) => [b; m]
  | None =>
      if (192 <=? c) && (c <=? 222) then
        match latin1Accent (c + 32) with
        | Some (b, m) => [b - 32; m]
        | None => [c]
        end
      else
        match c with
        | 160 => [32] | 168 => [32; 776] | 170 => [97] | 175 => [32; 772]
        | 178 => [50] | 179 => [51] | 180 => [32; 769] | 181 => [956]
        | 184 => [32; 807] | 185 => [49] | 186 => [111]
        | 188 => [49; 8260; 52] | 189 => [49; 8260; 50]
        | 190 => [51; 8260; 52]
        | 832 => [768] | 833 => [769] | 835 => [787] | 836 => [776; 769]
        | 8239 => [32] | 8287 => [32] | 12288 => [32]
        | 8480 => [83; 77] | 8482 => [84; 77]
        | _ => if (8192 <=? c) && (c <=? 8202) then [32] else [c]
        end
  end.

(** [s.normalize('NFKD')].  The canonical reordering of combining marks
    is left out: within the modelled code units it only permutes marks
    of U+0300 to U+036F among themselves, and [makeKey] removes them all
    in its next step. *)
Definition normalizeNFKD (s : jsstring) : jsstring := flat_map decompose s.

(** The class [[\u0300-\u036f]]. *)
Definition isDiacritic (c : N) : bool := (768 <=? c) && (c <=? 879).

(** ** makeKey (app.js) *)

Definition stripDiacritics (s : jsstring) : jsstring :=
  replaceClass isDiacritic (fun _ => []) s.

Definition makeKey (title : option jsstring) : jsstring :=
  trim (collapseSpaces (stripDiacritics (normalizeNFKD
    (toLowerCase (toStr (orElse title (Some []))))))).

(** ** escapeHtml (app.js) *)

(** The object literal of [escapeHtml], indexed by the matched code
    unit: & < > the double quote (34) and the single quote (39). *)
Definition htmlEntity (c : N) : option jsstring :=
  if c =? 38 then Some (lit "&amp;")
  else if c =? 60 then Some (lit "&lt;")
  else if c =? 62 then Some (lit "&gt;")
  else if c =? 34 then Some (lit "&quot;")
  else if c =? 39 then Some (lit "&#039;")
  else None.

(** The character class of the regular expression of [escapeHtml]:
    the five code units above. *)
Definition htmlSpecial (c : N) : bool :=
  (c =? 38) || (c =? 60) || (c =? 62) || (c =? 34) || (c =? 39).

(** The replacement callback [c => table[c] || c]. *)
Definition escapeChar (c : N) : jsstring :=
  match htmlEntity c with
  | Some (x :: e) => x :: e
  | _ => [c]
  end.

Definition escapeHtml (s : option jsstring) : jsstring :=
  replaceClass htmlSpecial escapeChar (toStr s).

(** ** Completions

    A JavaScript evaluation either completes normally with a value or
    throws.  The only exception the modelled code can raise by itself
    is the [TypeError] of reading through, or spreading, an absent
    value. *)

Inductive outcome (A : Type) : Type :=
| Normal (a : A)
| TypeError.
Arguments Normal {A} a.
Arguments TypeError {A}.

Definition bind {A B} (m : outcome A) (f : A -> outcome B) : outcome B :=
  match m with
  | Normal a => f a
  | TypeError => TypeError
  end.

Notation "x <- m ;; k" := (bind m (fun x => k))
  (at level 100, m at next level, right associativity).

(** [Array.prototype.filter] with a callback that may throw: the
    elements are visited in order and the first exception aborts. *)
Fixpoint arrayFilter {A} (f : A -> outcome bool) (l : list A)
  : outcome (list A) :=
  match l with
  | [] => Normal []
  | x :: l' =>
      b <- f x ;; r <- arrayFilter f l' ;; Normal (if b then x :: r else r)
  end.

(** A [Set] of strings built from an array: insertion order, first
    occurrence kept.  [seen] holds the members added so far. *)
Fixpoint setFrom (seen l : list jsstring) : list jsstring :=
  match l with
  | [] => []
  | x :: l' =>
      if bool_decide (x ∈ seen) then setFrom seen l'
      else x :: setFrom (x :: seen) l'
  end.

(** [String.prototype.split] on a one-unit separator. *)
Fixpoint splitOn (sep : N) (s : jsstring) : list jsstring :=
  match s with
  | [] => [[]]
  | c :: s' =>
      if c =? sep then [] :: splitOn sep s'
      else match splitOn sep s' with
           | w :: ws => (c :: w) :: ws
           | [] => [[c]]
           end
  end.

(** [toUpperCase], modelled on Basic Latin and Latin-1 (where the
    sharp s becomes two units, and y with diaeresis and the micro sign
    leave Latin-1). *)
Definition toUpperCaseUnit (c : N) : jsstring :=
  if (97 <=? c) && (c <=? 122) then [c - 32]
  else if (224 <=? c) && (c <=? 254) && negb (c =? 247) then [c - 32]
  else if c =? 223 then [83; 83]
  else if c =? 255 then [376]
  else if c =? 181 then [924]
  else [c].

Definition toUpperCase (s : jsstring) : jsstring := flat_map toUpperCaseUnit s.

(** [w.charAt(0).toUpperCase() + w.slice(1)]. *)
Definition capitalize (w : jsstring) : jsstring :=
  match w with
  | [] => []
  | c :: w' => toUpperCaseUnit c ++ w'
  end.

(** ** Movie profiles (app.js) *)

(** A profile as the server sends it.  String fields are absent or a
    string; list fields are absent, a single string, or an array whose
    entries are strings or null.  Fields that the functions below do
    not read (director, year, plot summary, image paths, intensity) are
    left out. *)
Inductive json : Type :=
| JAbsent
| JString (s : jsstring)
| JArray (l : list (option jsstring)).

Record rawMovie : Type := {
  raw_title : option jsstring;
  raw_Title : option jsstring;
  raw_primary_emotional_tone : option jsstring;
  raw_secondary_emotional_tone : option jsstring;
  raw_primary_theme : option jsstring;
  raw_secondary_theme : option jsstring;
  raw_pacing_style : option jsstring;
  raw_visual_aesthetic : option jsstring;
  raw_target_audience : option jsstring;
  raw_similar_films : json;
  raw_cultural_context : json;
  raw_narrative_structure : option jsstring;
  raw_energy_level : option jsstring;
  raw_discussion_topics : json;
  raw_card_description : option jsstring;
  raw_profile_text : option jsstring;
}.

(** A movie object of [state.data].  Every property may be absent:
    [None] is [undefined]. *)
Record movie : Type := {
  title : option jsstring;
  emotional_tone : option (list jsstring);
  themes : option (list jsstring);
  pacing_style : option jsstring;
  visual_aesthetic : option jsstring;
  target_audience : option jsstring;
  similar_films : option (list jsstring);
  cultural_context : option (list jsstring);
  narrative_structure : option jsstring;
  energy_level : option jsstring;
  discussion_topics : option (list jsstring);
  card_description : option jsstring;
  profile_text : option jsstring;
  _why : option jsstring;
}.

Definition keepTruthy (l : list (option jsstring)) : list jsstring :=
  omap (fun x => match x with Some (c :: s) => Some (c :: s) | _ => None end) l.

Definition toArray (v : json) : list jsstring :=
  match v with
  | JAbsent => []
  | JString [] => []
  | JString s => [s]
  | JArray l => keepTruthy l
  end.

Definition formatTheme (theme : option jsstring) : option jsstring :=
  match theme with
  | None | Some [] => None
  | Some t =>
      if bool_decide (t = lit "none") then None
      else Some (join (lit " ") (map (fun w => Some (capitalize w)) (splitOn 95 t)))
  end.

Definition validTones : list jsstring :=
  map lit
    ["dramatic"; "dark"; "romantic"; "contemplative"; "melancholic"; "tense";
     "uplifting"; "comedic"; "intense"; "mysterious"; "suspenseful"; "thrilling";
     "heartwarming"; "poignant"; "nostalgic"; "reflective"; "energetic"; "epic";
     "heroic"; "inspirational"; "lighthearted"; "whimsical"; "surreal"; "mystical";
     "transformative"; "action-packed"; "adventurous"; "psychological";
     "existential"]%string.

Definition formatEmotionalTone (tone : option jsstring) : option jsstring :=
  match tone with
  | None | Some [] => None
  | Some t =>
      if bool_decide (t = lit "none") then None
      else if bool_decide (toLowerCase t ∈ validTones) then Some (capitalize t)
      else if includes t [95] then None
      else Some (capitalize t)
  end.

(** [[a, b].filter(t => t && t !== 'none')]. *)
Definition keepNamed (l : list (option jsstring)) : list jsstring :=
  filter (fun t => t <> lit "none") (keepTruthy l).

Definition normalizeMovie (obj : rawMovie) : movie :=
  {| title := Some (toStr (orElse (orElse (raw_title obj) (raw_Title obj))
                                  (Some (lit "Untitled"))));
     emotional_tone :=
       Some (keepNamed [formatEmotionalTone (raw_primary_emotional_tone obj);
                        formatEmotionalTone (raw_secondary_emotional_tone obj)]);
     themes :=
       Some (keepNamed [formatTheme (raw_primary_theme obj);
                        formatTheme (raw_secondary_theme obj)]);
     pacing_style := Some (toStr (raw_pacing_style obj));
     visual_aesthetic := Some (toStr (raw_visual_aesthetic obj));
     target_audience := Some (toStr (raw_target_audience obj));
     similar_films := Some (toArray (raw_similar_films obj));
     cultural_context := Some (toArray (raw_cultural_context obj));
     narrative_structure := Some (toStr (raw_narrative_structure obj));
     energy_level := Some (toStr (raw_energy_level obj));
     discussion_topics := Some (toArray (raw_discussion_topics obj));
     card_description := Some (toStr (raw_card_description obj));
     profile_text := Some (toStr (raw_profile_text obj));
     _why := None |}.

(** The helpers of [mergeMovies]. *)
Definition union (arr1 arr2 : option (list jsstring)) : list jsstring :=
  setFrom [] (filter (fun x => x <> []) (default [] arr1 ++ default [] arr2)).

Definition pref (x y : option jsstring) : jsstring :=
  let sx := trim (toStr x) in
  let sy := trim (toStr y) in
  match sx, sy with
  | [], _ => sy
  | _, [] => sx
  | _, _ => if (length sx <? length sy)%nat then sy else sx
  end.

Definition mergeMovies (a b : movie) : movie :=
  {| title := Some (pref (title a) (title b));
     emotional_tone := Some (union (emotional_tone a) (emotional_tone b));
     themes := Some (union (themes a) (themes b));
     pacing_style := Some (pref (pacing_style a) (pacing_style b));
     visual_aesthetic := Some (pref (visual_aesthetic a) (visual_aesthetic b));
     target_audience := Some (pref (target_audience a) (target_audience b));
     similar_films := Some (union (similar_films a) (similar_films b));
     cultural_context := Some (union (cultural_context a) (cultural_context b));
     narrative_structure :=
       Some (pref (narrative_structure a) (narrative_structure b));
     energy_level := Some (pref (energy_level a) (energy_level b));
     discussion_topics :=
       Some (union (discussion_topics a) (discussion_topics b));
     card_description := Some (pref (card_description a) (card_description b));
     profile_text := Some (pref (profile_text a) (profile_text b));
     _why := None |}.

(** ** Application state and the page (app.js) *)

(** The global [state].  The two filter sets are JavaScript [Set]s,
    kept here as their members in insertion order.  Numbers are the
    integers they hold. *)
Record state : Type := {
  data : list movie;
  filterTones : list jsstring;
  filterThemes : list jsstring;
  search : jsstring;
  page : Z;
  pageSize : Z;
  apiBase : jsstring;
}.

Definition initialState : state :=
  {| data := []; filterTones := []; filterThemes := []; search := [];
     page := 1; pageSize := 24; apiBase := [] |}.

(** [Math.max(1, Math.ceil(total / pageSize))]: a number of pages, or
    a non-finite number when the page size is zero. *)
Inductive pageCount : Type :=
| Pages (n : Z)
| NotFinite.

(** The text of [els.stats]. *)
Inductive statsLine : Type :=
| StatsEmpty
| StatsSearching
| StatsLocal (total : nat) (pg : Z) (pages : pageCount)
| StatsApi (count : nat) (semantic : option bool).

(** The part of the document the render functions write:
    the statistics line, the cards in display order, the pagination
    bar ([None] when empty) and the API status message. *)
Record dom : Type := {
  stats : statsLine;
  cards : list movie;
  pagination : option pageCount;
  apiStatus : option jsstring;
}.

Definition emptyDom : dom :=
  {| stats := StatsEmpty; cards := []; pagination := None; apiStatus := None |}.

(** ** applyFilters (app.js) *)

(** The spread [...a] inside an array literal. *)
Definition spread (a : option (list jsstring))
  : outcome (list (option jsstring)) :=
  match a with
  | Some l => Normal (map Some l)
  | None => TypeError
  end.

(** The haystack [hay] of a movie. *)
Definition hay (m : movie) : outcome jsstring :=
  et <- spread (emotional_tone m) ;;
  th <- spread (themes m) ;;
  sf <- spread (similar_films m) ;;
  cc <- spread (cultural_context m) ;;
  dt <- spread (discussion_topics m) ;;
  Normal (toLowerCase (join (lit " ")
    ([title m; pacing_style m; energy_level m; visual_aesthetic m;
      target_audience m; narrative_structure m; profile_text m]
       ++ et ++ th ++ sf ++ cc ++ dt))).

(** [if (set.size) for (const t of set) if (!field.includes(t)) return false]:
    [Normal false] stands for the early [return false].  Nothing is
    read from the movie when the set is empty. *)
Definition requireAll (set : list jsstring) (field : option (list jsstring))
  : outcome bool :=
  match set with
  | [] => Normal true
  | _ :: _ =>
      match field with
      | None => TypeError
      | Some l => Normal (forallb (arrayIncludes l) set)
      end
  end.

(** The callback given to [arr.filter]. *)
Definition keepMovie (q : jsstring) (toneSet themeSet : list jsstring)
  (m : movie) : outcome bool :=
  matches <- (if truthy q
              then h <- hay m ;; Normal (includes h q)
              else Normal true) ;;
  if negb matches then Normal false
  else
    tonesOk <- requireAll toneSet (emotional_tone m) ;;
    if negb tonesOk then Normal false
    else requireAll themeSet (themes m).

Definition applyFilters (st : state) (arr : list movie) : outcome (list movie) :=
  arrayFilter (keepMovie (search st) (filterTones st) (filterThemes st)) arr.

(** ** renderLocal (app.js) *)

(** The relative index of [Array.prototype.slice]. *)
Definition relIndex (len i : Z) : Z :=
  (if i <? 0 then Z.max (len + i) 0 else Z.min i len)%Z.

Definition slice {A} (l : list A) (start stop : Z) : list A :=
  let len := Z.of_nat (length l) in
  let k := relIndex len start in
  let final := relIndex len stop in
  take (Z.to_nat (final - k)) (drop (Z.to_nat k) l).

Definition pageCountOf (total : nat) (size : Z) : pageCount :=
  (if 0 <? size then Pages (Z.max 1 ((Z.of_nat total + size - 1) / size))
   else if size <? 0 then Pages 1
   else NotFinite)%Z.

(** [if (state.page > pages) state.page = pages]. *)
Definition clampPage (pg : Z) (pages : pageCount) : Z :=
  match pages with
  | Pages n => if (n <? pg)%Z then n else pg
  | NotFinite => pg
  end.

Definition setPage (st : state) (pg : Z) : state :=
  {| data := data st; filterTones := filterTones st;
     filterThemes := filterThemes st; search := search st;
     page := pg; pageSize := pageSize st; apiBase := apiBase st |}.

Definition renderLocal (st : state) (d : dom) : outcome (state * dom) :=
  filtered <- applyFilters st (data st) ;;
  let total := length filtered in
  let pages := pageCountOf total (pageSize st) in
  let st' := setPage st (clampPage (page st) pages) in
  let start := ((page st' - 1) * pageSize st')%Z in
  let shown := slice filtered start (start + pageSize st')%Z in
  Normal (st',
          {| stats := StatsLocal total (page st') pages;
             cards := shown;
             pagination := Some pages;
             apiStatus := apiStatus d |}).

(** ** The search API as the page sees it (app.js) *)

(** Decimal text of a number in a template literal. *)
Definition decimal (n : N) : jsstring :=
  lit (NilZero.string_of_uint (N.to_uint n)).

(** ** encodeURIComponent

    The runtime's function: the units A-Z a-z 0-9 and - _ . ! ~ * ' ( )
    are copied, every other code point is written as the octets of its
    UTF-8 encoding, each as a percent sign and two upper-case
    hexadecimal digits.  A surrogate that is not part of a pair makes
    it throw a [URIError]: the result is then [None]. *)
Definition isHighSurrogate (c : N) : bool := (55296 <=? c) && (c <=? 56319).

Definition isLowSurrogate (c : N) : bool := (56320 <=? c) && (c <=? 57343).

Definition uriUnescaped (c : N) : bool :=
  ((48 <=? c) && (c <=? 57)) || ((65 <=? c) && (c <=? 90))
  || ((97 <=? c) && (c <=? 122))
  || existsb (N.eqb c) [45; 95; 46; 33; 126; 42; 39; 40; 41].

Definition hexDigit (n : N) : N := if n <? 10 then 48 + n else 55 + n.

Definition percentEncoded (octet : N) : jsstring :=
  [37; hexDigit (octet / 16); hexDigit (octet mod 16)].

Definition utf8 (cp : N) : list N :=
  if cp <? 128 then [cp]
  else if cp <? 2048 then [192 + cp / 64; 128 + cp mod 64]
  else if cp <? 65536
       then [224 + cp / 4096; 128 + (cp / 64) mod 64; 128 + cp mod 64]
       else [240 + cp / 262144; 128 + (cp / 4096) mod 64;
             128 + (cp / 64) mod 64; 128 + cp mod 64].

Fixpoint encodeURIComponent (s : jsstring) : option jsstring :=
  match s with
  | [] => Some []
  | c :: s' =>
      if uriUnescaped c then option_map (cons c) (encodeURIComponent s')
      else if isLowSurrogate c then None
      else if isHighSurrogate c then
        match s' with
        | d :: s'' =>
            if isLowSurrogate d
            then option_map
                   (app (flat_map percentEncoded
                           (utf8 (65536 + (c - 55296) * 1024 + (d - 56320)))))
                   (encodeURIComponent s'')
            else None
        | [] => None
        end
      else option_map (app (flat_map percentEncoded (utf8 c)))
                      (encodeURIComponent s')
  end.

(** The message of that [URIError].  The text is the runtime's own;
    this is the one of V8. *)
Definition uriErrorMessage : jsstring := lit "URI malformed".

(** The request of [renderUsingApi]: the URL
    [base + '/search?q=' + encodeURIComponent(q) + '&limit=' + limit + '&mode=hybrid'],
    kept as its parts; [req_q] is the encoded text. *)
Record request : Type := {
  req_base : jsstring;
  req_path : jsstring;
  req_q : jsstring;
  req_limit : Z;
  req_mode : jsstring;
}.

(** One entry of [data.results]; [kw_rank] and [vec_rank] are the
    fields of its [debug] object. *)
Record apiResult : Type := {
  res_title : option jsstring;
  res_badges : option (list jsstring);
  res_why_pretty : option jsstring;
  res_why : option jsstring;
  res_snippet : option jsstring;
  res_kw_rank : option N;
  res_vec_rank : option N;
}.

Record apiData : Type := {
  results : option (list apiResult);
  semantic_enabled : option bool;
}.

(** What comes back from the network inside the [try] block: [fetch]
    rejects, the response is not [ok], the body is not usable JSON (or
    its processing throws), or a well-formed body arrives.  The first
    three carry the message of the exception. *)
Inductive apiReply : Type :=
| FetchFailed (message : jsstring)
| HttpStatus (status : N) (statusText : jsstring)
| BadBody (message : jsstring)
| Reply (d : apiData).

(** The values [render] reads outside [state]: the API base input
    field and the stored setting. *)
Record environment : Type := {
  apiBaseInput : option jsstring;
  storedApiBase : option jsstring;
}.

Definition asciiLower (c : N) : N :=
  if (65 <=? c) && (c <=? 90) then c + 32 else c.

(** [v.replace(/\/$/, '')]. *)
Definition dropTrailingSlash (v : jsstring) : jsstring :=
  match rev v with
  | 47 :: r => rev r
  | _ => v
  end.

Definition normalizeBase (val : option jsstring) : jsstring :=
  let v := trim (toStr val) in
  match v with
  | [] => []
  | _ :: _ =>
      let v1 :=
        if startsWith (map asciiLower v) (lit "http://")
           || startsWith (map asciiLower v) (lit "https://")
        then v
        else if startsWith v (lit "//") then lit "http:" ++ v
        else lit "http://" ++ v in
      dropTrailingSlash v1
  end.

(** The request for the search string of the state; there is none
    when [encodeURIComponent] throws. *)
Definition searchRequest (base : jsstring) (st : state) : option request :=
  option_map
    (fun q => {| req_base := base; req_path := lit "/search"; req_q := q;
                 req_limit := pageSize st; req_mode := lit "hybrid" |})
    (encodeURIComponent (search st)).

(** [byKey.get(k)] for [byKey = new Map(state.data.map(m => [makeKey(m.title), m]))]:
    a later movie with the same key replaces an earlier one. *)
Definition byKeyGet (ms : list movie) (k : jsstring) : option movie :=
  last (filter (fun m => makeKey (title m) = k) ms).

Definition rawOfTitle (t : option jsstring) : rawMovie :=
  {| raw_title := t; raw_Title := None;
     raw_primary_emotional_tone := None; raw_secondary_emotional_tone := None;
     raw_primary_theme := None; raw_secondary_theme := None;
     raw_pacing_style := None; raw_visual_aesthetic := None;
     raw_target_audience := None; raw_similar_films := JAbsent;
     raw_cultural_context := JAbsent; raw_narrative_structure := None;
     raw_energy_level := None; raw_discussion_topics := JAbsent;
     raw_card_description := None; raw_profile_text := None |}.

Definition isTruthy (x : option jsstring) : bool := truthy (toStr x).

Definition rankTag (label : jsstring) (r : option N) : list (option jsstring) :=
  match r with
  | Some n => if n =? 0 then [] else [Some (label ++ decimal n)]
  | None => []
  end.

(** The explanation composed from badges, snippet and provenance. *)
Definition composeWhy (badges : list jsstring) (r : apiResult) : jsstring :=
  let pv := rankTag (lit "kw#") (res_kw_rank r)
            ++ rankTag (lit "vec#") (res_vec_rank r) in
  let whyParts :=
    (match badges with
     | [] => []
     | _ => [Some (lit "Badges: " ++ join [32; 8226; 32] (map Some badges))]
     end)
    ++ (if isTruthy (res_snippet r)
        then [Some (lit "Why: " ++ toStr (res_snippet r))] else [])
    ++ (match pv with
        | [] => []
        | _ => [Some (lit "Via: " ++ join (lit ", ") pv)]
        end) in
  join [32; 8212; 32] whyParts.

(** The callback of [results.map] in [renderUsingApi]. *)
Definition resultMovie (st : state) (r : apiResult) : movie :=
  let m := default (normalizeMovie (rawOfTitle (res_title r)))
                   (byKeyGet (data st) (makeKey (res_title r))) in
  let badges := default [] (res_badges r) in
  let hasExistingDescription :=
    truthy (trim (toStr (card_description m)))
    || truthy (trim (toStr (profile_text m))) in
  let why' :=
    if hasExistingDescription then _why m
    else if isTruthy (res_why_pretty r) then res_why_pretty r
    else if isTruthy (res_why r) then res_why r
    else Some (composeWhy badges r) in
  {| title := title m;
     emotional_tone := emotional_tone m;
     themes := match themes m with
               | Some t => Some (setFrom [] (badges ++ t))
               | None => None
               end;
     pacing_style := pacing_style m;
     visual_aesthetic := visual_aesthetic m;
     target_audience := target_audience m;
     similar_films := similar_films m;
     cultural_context := cultural_context m;
     narrative_structure := narrative_structure m;
     energy_level := energy_level m;
     discussion_topics := discussion_topics m;
     card_description := card_description m;
     profile_text := profile_text m;
     _why := why' |}.

(** The message of the exception caught by [renderUsingApi]. *)
Definition failureMessage (r : apiReply) : option jsstring :=
  match r with
  | FetchFailed msg => Some msg
  | HttpStatus status text => Some (decimal status ++ [32] ++ text)
  | BadBody msg => Some msg
  | Reply _ => None
  end.

(** The [catch] block of [renderUsingApi]: the message of the
    exception is reported in the API status (the element is taken to
    exist) and the page is rendered locally. *)
Definition searchFailed (st : state) (d0 : dom) (message : jsstring)
  : outcome (state * dom) :=
  renderLocal st
    {| stats := stats d0; cards := cards d0; pagination := pagination d0;
       apiStatus :=
         Some (lit "Search failed, falling back to local: " ++ message) |}.

(** [renderUsingApi].  [net] is the network: what the request made
    by the page is answered with.  Any exception inside the [try]
    block ends in the [catch] block: the one [encodeURIComponent]
    throws while the URL is built, before anything is sent, and those
    of the request and of its answer. *)
Definition renderUsingApi (net : request -> apiReply) (base : jsstring)
  (st : state) (d : dom) : outcome (state * dom) :=
  let d0 := {| stats := StatsSearching; cards := []; pagination := None;
               apiStatus := apiStatus d |} in
  match searchRequest base st with
  | None => searchFailed st d0 uriErrorMessage
  | Some req =>
      match net req with
      | Reply dat =>
          let rs := default [] (results dat) in
          Normal (st,
                  {| stats := StatsApi (length rs) (semantic_enabled dat);
                     cards := map (resultMovie st) rs;
                     pagination := None;
                     apiStatus := apiStatus d0 |})
      | failure => searchFailed st d0 (toStr (failureMessage failure))
      end
  end.

(** [render]. *)
Definition render (env : environment) (net : request -> apiReply)
  (st : state) (d : dom) : outcome (state * dom) :=
  let rawBase :=
    orElse (orElse (orElse (Some (apiBase st)) (apiBaseInput env))
                   (storedApiBase env)) (Some []) in
  let base := normalizeBase rawBase in
  let useApi := truthy base && truthy (search st) in
  if useApi then renderUsingApi net base st d else renderLocal st d.

(** ** Vocabulary of the properties *)

(** The records of [state.data]: [loadAllSources] stores what
    [normalizeMovie] returns, merged by [mergeMovies] when two
    profiles share a key. *)
Inductive loaded : movie -> Prop :=
| loaded_normalize (obj : rawMovie) : loaded (normalizeMovie obj)
| loaded_merge (a b : movie) : loaded a -> loaded b -> loaded (mergeMovies a b).

(** The five list properties are present (they are arrays). *)
Definition wellFormed (m : movie) : Prop :=
  is_Some (emotional_tone m) /\ is_Some (themes m)
  /\ is_Some (similar_films m) /\ is_Some (cultural_context m)
  /\ is_Some (discussion_topics m).

(** A raw profile with every absent field replaced by the empty
    string or the empty array. *)
Definition emptyIfAbsent (x : option jsstring) : option jsstring :=
  Some (toStr x).

Definition emptyIfAbsentList (v : json) : json :=
  match v with
  | JAbsent => JArray []
  | _ => v
  end.

Definition withDefaults (obj : rawMovie) : rawMovie :=
  {| raw_title := emptyIfAbsent (raw_title obj);
     raw_Title := emptyIfAbsent (raw_Title obj);
     raw_primary_emotional_tone := emptyIfAbsent (raw_primary_emotional_tone obj);
     raw_secondary_emotional_tone :=
       emptyIfAbsent (raw_secondary_emotional_tone obj);
     raw_primary_theme := emptyIfAbsent (raw_primary_theme obj);
     raw_secondary_theme := emptyIfAbsent (raw_secondary_theme obj);
     raw_pacing_style := emptyIfAbsent (raw_pacing_style obj);
     raw_visual_aesthetic := emptyIfAbsent (raw_visual_aesthetic obj);
     raw_target_audience := emptyIfAbsent (raw_target_audience obj);
     raw_similar_films := emptyIfAbsentList (raw_similar_films obj);
     raw_cultural_context := emptyIfAbsentList (raw_cultural_context obj);
     raw_narrative_structure := emptyIfAbsent (raw_narrative_structure obj);
     raw_energy_level := emptyIfAbsent (raw_energy_level obj);
     raw_discussion_topics := emptyIfAbsentList (raw_discussion_topics obj);
     raw_card_description := emptyIfAbsent (raw_card_description obj);
     raw_profile_text := emptyIfAbsent (raw_profile_text obj) |}.

(** A movie object with every absent string property replaced by the
    empty string. *)
Definition withEmptyStrings (m : movie) : movie :=
  {| title := emptyIfAbsent (title m);
     emotional_tone := emotional_tone m;
     themes := themes m;
     pacing_style := emptyIfAbsent (pacing_style m);
     visual_aesthetic := emptyIfAbsent (visual_aesthetic m);
     target_audience := emptyIfAbsent (target_audience m);
     similar_films := similar_films m;
     cultural_context := cultural_context m;
     narrative_structure := emptyIfAbsent (narrative_structure m);
     energy_level := emptyIfAbsent (energy_level m);
     discussion_topics := discussion_topics m;
     card_description := emptyIfAbsent (card_description m);
     profile_text := emptyIfAbsent (profile_text m);
     _why := _why m |}.

(** The text a movie is searched in, in words: the lowercased
    concatenation (with single spaces) of the title, the profile fields
    (pacing style, energy level, visual aesthetic, target audience,
    narrative structure, profile text), the emotional tones, the themes,
    the similar films, the cultural context and the discussion topics. *)
Definition listField (a : option (list jsstring)) : list (option jsstring) :=
  map Some (default [] a).

Definition searchedText (m : movie) : jsstring :=
  toLowerCase (join (lit " ")
    ([title m; pacing_style m; energy_level m; visual_aesthetic m;
      target_audience m; narrative_structure m; profile_text m]
       ++ listField (emotional_tone m) ++ listField (themes m)
       ++ listField (similar_films m) ++ listField (cultural_context m)
       ++ listField (discussion_topics m))).

(** [q] occurs in [h] as a substring. *)
Definition substring (q h : jsstring) : Prop :=
  exists pre post, h = pre ++ q ++ post.

(** Every selected label is a member of the movie's list. *)
Definition hasAll (sel : list jsstring) (field : option (list jsstring)) : Prop :=
  forall t, t ∈ sel -> t ∈ default [] field.

(** The movies a search selects: the search string is empty or occurs
    in the searched text, and every selected tone and every selected
    theme is carried by the movie. *)
Definition selected (q : jsstring) (tones thms : list jsstring) (m : movie)
  : Prop :=
  (q = [] \/ substring q (searchedText m))
  /\ hasAll tones (emotional_tone m) /\ hasAll thms (themes m).

(** The same condition as a test. *)
Definition hasAllb (sel : list jsstring) (field : option (list jsstring)) : bool :=
  forallb (arrayIncludes (default [] field)) sel.

Definition selectedb (q : jsstring) (tones thms : list jsstring) (m : movie)
  : bool :=
  (negb (truthy q) || includes (searchedText m) q)
  && hasAllb tones (emotional_tone m) && hasAllb thms (themes m).

(** Two filter sets with the same members. *)
Definition sameMembers (s1 s2 : list jsstring) : Prop :=
  forall t, t ∈ s1 <-> t ∈ s2.

(** ** The hybrid search behind the search API

    The page only calls [/search]; the ranking fusion, the intent
    parser and the orchestrator that answer it are not among the
    sources.  They are modelled here from sections 3, 4.3, 4.5 and 4.7
    of the specification.  Scores are exact rationals. *)

Module Design.

(** Modelled from the spec: the identifier of a MovieRecord, a string. *)
Definition movieId : Type := jsstring.

(** Modelled from the spec: MovieRecord (section 3); the plot summary,
    the people and the derived search text are left out. *)
Record MovieRecord : Type := {
  id : movieId;
  title : jsstring;
  genres : list jsstring;
  tags : list jsstring;
  runtimeMinutes : option Z;
  releaseYear : option Z;
}.

(** Modelled from the spec: ParsedIntent (section 3). *)
Record ParsedIntent : Type := {
  intentGenres : list jsstring;
  excludedGenres : list jsstring;
  runtimeMax : option Z;
  yearRange : option (Z * Z);
  intentThemes : list jsstring;
}.

(** Modelled from the spec: the rank of a candidate in a ranked list,
    counted from 1 ([start] is the rank of the head). *)
Fixpoint rankFrom (start : nat) (c : movieId) (l : list movieId) : option nat :=
  match l with
  | [] => None
  | x :: l' => if bool_decide (x = c) then Some start else rankFrom (S start) c l'
  end.

(** Modelled from the spec: the rank in a source list, the first
    entry having rank 1. *)
Definition rankIn (c : movieId) (l : list movieId) : option nat := rankFrom 1 c l.

(** Modelled from the spec: what one source list adds to the fused
    score of a candidate, [1 / (k + rank)] if it appears there and zero
    otherwise (section 4.5). *)
Definition contribution (k : Q) (r : option nat) : Q :=
  match r with
  | Some n => (1 / (k + inject_Z (Z.of_nat n)))%Q
  | None => 0%Q
  end.

(** Modelled from the spec: the fused score, the sum of the
    contributions of the keyword list and the semantic list. *)
Definition fusedScore (k : Q) (keywordRanked semanticRanked : list movieId)
  (c : movieId) : Q :=
  (contribution k (rankIn c keywordRanked)
   + contribution k (rankIn c semanticRanked))%Q.

(** Modelled from the spec: the order of movie identifiers used to
    break ties, the lexicographic order of strings. *)
Fixpoint lexLe (a b : jsstring) : bool :=
  match a, b with
  | [], _ => true
  | _ :: _, [] => false
  | x :: a', y :: b' =>
      if x <? y then true else if x =? y then lexLe a' b' else false
  end.

(** Modelled from the spec: the final ordering of the fusion,
    descending fused score with ties broken by movieId. *)
Definition rankedBefore (k : Q) (keywordRanked semanticRanked : list movieId)
  (a b : movieId) : bool :=
  let sa := fusedScore k keywordRanked semanticRanked a in
  let sb := fusedScore k keywordRanked semanticRanked b in
  if Qeq_bool sa sb then lexLe a b else Qle_bool sb sa.

(** Modelled from the spec: sorting by the final ordering, done here
    by insertion. *)
Fixpoint insertBy {A} (le : A -> A -> bool) (x : A) (l : list A) : list A :=
  match l with
  | [] => [x]
  | y :: l' => if le x y then x :: l else y :: insertBy le x l'
  end.

(** Modelled from the spec: the candidates in the final ordering. *)
Definition sortBy {A} (le : A -> A -> bool) (l : list A) : list A :=
  foldr (insertBy le) [] l.

(** Modelled from the spec: [fuse(keywordRanked, semanticRanked, k)],
    the candidates of either list in the final ordering. *)
Definition fuse (keywordRanked semanticRanked : list movieId) (k : Q)
  : list movieId :=
  sortBy (rankedBefore k keywordRanked semanticRanked)
         (setFrom [] (keywordRanked ++ semanticRanked)).

(** Modelled from the spec: the hard filters of a ParsedIntent
    (section 4.7, step 4): every included genre present, no excluded
    genre present, the runtime within its bound and the year within its
    range.  A record without runtime or year passes those two tests. *)
Definition passesFilters (intent : ParsedIntent) (m : MovieRecord) : bool :=
  forallb (fun g => bool_decide (g ∈ genres m)) (intentGenres intent)
  && forallb (fun g => negb (bool_decide (g ∈ genres m))) (excludedGenres intent)
  && match runtimeMax intent, runtimeMinutes m with
     | Some bound, Some r => (r <=? bound)%Z
     | _, _ => true
     end
  && match yearRange intent, releaseYear m with
     | Some (lo, hi), Some y => (lo <=? y)%Z && (y <=? hi)%Z
     | _, _ => true
     end.

(** Modelled from the spec: the collaborators the orchestrator is
    given (sections 4.2 to 4.6): the intent parser, whose rule table
    the specification leaves open, the two retrieval steps, the
    re-ranker with its window, and the constant of the fusion. *)
Record Backend : Type := {
  parseIntent : jsstring -> ParsedIntent;
  keywordSearch : list MovieRecord -> jsstring -> list movieId;
  semanticSearch : list MovieRecord -> jsstring -> list movieId;
  rerank : jsstring -> list MovieRecord -> list MovieRecord;
  window : nat;
  rrfK : Q;
}.

(** Modelled from the spec: the record of the catalog with a given
    identifier. *)
Definition findRecord (catalog : list MovieRecord) (c : movieId)
  : option MovieRecord :=
  head (filter (fun m => id m = c) catalog).

(** Modelled from the spec: an invalid limit is replaced by the
    default 20. *)
Definition effectiveLimit (limit : Z) : nat :=
  if (limit <=? 0)%Z then 20%nat else Z.to_nat limit.

(** Modelled from the spec: the orchestrator [search] (section 4.7):
    parse the intent, retrieve, fuse, apply the hard filters, re-rank
    the top window, truncate to the limit. *)
Definition search (B : Backend) (catalog : list MovieRecord) (query : jsstring)
  (limit : Z) : list MovieRecord :=
  let intent := parseIntent B query in
  let fused := fuse (keywordSearch B catalog query)
                    (semanticSearch B catalog query) (rrfK B) in
  let candidates := omap (findRecord catalog) fused in
  let kept := filter (fun m => passesFilters intent m = true) candidates in
  let reranked := rerank B query (take (window B) kept) in
  take (effectiveLimit limit) reranked.

(** Modelled from the spec: [a] is ranked at least as high as [b] in a
    source list (a candidate that is absent ranks below all others). *)
Definition atLeastAsHigh (ra rb : option nat) : Prop :=
  match ra, rb with
  | _, None => True
  | Some x, Some y => (x <= y)%nat
  | None, Some _ => False
  end.

(** Modelled from the spec: [a] ranks above [b] in an ordered
    sequence, that is, it stands before it. *)
Definition precedes {A} (a b : A) (l : list A) : Prop :=
  exists l1 l2 l3, l = l1 ++ a :: l2 ++ b :: l3.

End Design.

(** ** Vocabulary for makeKey *)

(** The modelled code units other than the two letterlike symbols. *)
Definition plainUnit (c : N) : bool :=
  inFragment c && negb (c =? 8480) && negb (c =? 8482).

(** A code unit that [makeKey] leaves as it is: already lower case,
    with no decomposition, and not a combining diacritical mark. *)
Definition settled (c : N) : bool :=
  (toLowerCaseUnit c =? c) && bool_decide (decompose c = [c])
  && negb (isDiacritic c).

Definition settledOrMark (c : N) : bool := isDiacritic c || settled c.

(** The code units [lo], [lo + 1], ... ([len] of them). *)
Definition unitRange (lo : N) (len : nat) : list N :=
  map (fun i => lo + N.of_nat i) (seq 0 len).

(** All plain units, listed. *)
Definition plainUnits : list N :=
  unitRange 0 256 ++ unitRange 768 112 ++ unitRange 8192 11
  ++ [5760; 8232; 8233; 8239; 8287; 12288; 65279; 956; 8260].

(** White space occurs only as single U+0020 units; [prev] tells that
    the unit before was white space. *)
Fixpoint singleSpaced (prev : bool) (w : jsstring) : bool :=
  match w with
  | [] => true
  | c :: w' =>
      if isSpace c then (c =? 32) && negb prev && singleSpaced true w'
      else singleSpaced false w'
  end.

Definition noLeadingSpace (w : jsstring) : Prop :=
  match w with
  | [] => True
  | c :: _ => isSpace c = false
  end.

(** ** Sample data *)

Definition alienRaw : rawMovie :=
  {| raw_title := Some (lit "Alien"); raw_Title := None;
     raw_primary_emotional_tone := Some (lit "tense");
     raw_secondary_emotional_tone := Some (lit "dark");
     raw_primary_theme := Some (lit "survival");
     raw_secondary_theme := Some (lit "none");
     raw_pacing_style := Some (lit "slow burn");
     raw_visual_aesthetic := None;
     raw_target_audience := None;
     raw_similar_films := JArray [Some (lit "The Thing"); None];
     raw_cultural_context := JAbsent;
     raw_narrative_structure := None;
     raw_energy_level := None;
     raw_discussion_topics := JString (lit "corporate greed");
     raw_card_description := None;
     raw_profile_text := Some (lit "A crew meets a stowaway.") |}.

Definition alien : movie := normalizeMovie alienRaw.

Definition amelie : movie :=
  normalizeMovie (rawOfTitle (Some [65; 109; 233; 108; 105; 101])).

(** A movie object that did not go through [normalizeMovie]. *)
Definition bareTitle : movie :=
  {| title := Some (lit "Untitled draft"); emotional_tone := None;
     themes := None; pacing_style := None; visual_aesthetic := None;
     target_audience := None; similar_films := None;
     cultural_context := None; narrative_structure := None;
     energy_level := None; discussion_topics := None;
     card_description := None; profile_text := None; _why := None |}.

Definition browsing : state :=
  {| data := [alien; amelie]; filterTones := []; filterThemes := [];
     search := []; page := 1; pageSize := 24; apiBase := [] |}.

Definition searching (q : jsstring) : state :=
  {| data := [alien; amelie]; filterTones := [lit "Tense"];
     filterThemes := []; search := q; page := 1; pageSize := 24;
     apiBase := lit "api.example.org/" |}.

(** The same two tones selected in opposite orders. *)
Definition tenseThenDark : state :=
  {| data := [alien; amelie]; filterTones := [lit "Tense"; lit "Dark"];
     filterThemes := [lit "Survival"]; search := lit "crew"; page := 1;
     pageSize := 24; apiBase := [] |}.

Definition darkThenTense : state :=
  {| data := [alien; amelie]; filterTones := [lit "Dark"; lit "Tense"];
     filterThemes := [lit "Survival"]; search := lit "crew"; page := 1;
     pageSize := 24; apiBase := [] |}.

Definition noEnvironment : environment :=
  {| apiBaseInput := None; storedApiBase := None |}.

(** A backend that is down, and one that answers with no result. *)
Definition backendDown : request -> apiReply :=
  fun _ => HttpStatus 503 (lit "Service Unavailable").

Definition backendEmpty : request -> apiReply :=
  fun _ => Reply {| results := Some []; semantic_enabled := Some false |}.


(** ** Sample data for the hybrid search *)

Definition heat : Design.movieId := lit "heat".
Definition ronin : Design.movieId := lit "ronin".

Definition sampleGenres : list jsstring :=
  [lit "sci-fi"; lit "horror"; lit "comedy"].

(** A small rule table: [no X] and [not X] exclude [X]; a genre word
    that is not excluded that way is included. *)
Fixpoint sampleRules (toks : list jsstring) : list jsstring * list jsstring :=
  match toks with
  | [] => ([], [])
  | t :: rest =>
      if bool_decide (t = lit "no") || bool_decide (t = lit "not") then
        match rest with
        | g :: rest' => let '(inc, exc) := sampleRules rest' in (inc, g :: exc)
        | [] => ([], [])
        end
      else
        let '(inc, exc) := sampleRules rest in
        if bool_decide (t ∈ sampleGenres) then (t :: inc, exc) else (inc, exc)
  end.

Definition sampleTokens (query : jsstring) : list jsstring :=
  splitOn 32 (filter (fun c => c <> 44) (toLowerCase query)).

Definition sampleParse (query : jsstring) : Design.ParsedIntent :=
  let '(inc, exc) := sampleRules (sampleTokens query) in
  {| Design.intentGenres := inc; Design.excludedGenres := exc;
     Design.runtimeMax := None; Design.yearRange := None;
     Design.intentThemes := [] |}.

(** Keyword retrieval of the sample: every record with a genre or a
    tag among the query tokens, in catalog order. *)
Definition sampleKeywordSearch (catalog : list Design.MovieRecord)
  (query : jsstring) : list Design.movieId :=
  map Design.id
    (filter (fun m =>
               existsb (fun t => bool_decide (t ∈ Design.genres m ++ Design.tags m))
                       (sampleTokens query) = true)
            catalog).

Definition sampleBackend : Design.Backend :=
  {| Design.parseIntent := sampleParse;
     Design.keywordSearch := sampleKeywordSearch;
     Design.semanticSearch := fun _ _ => [];
     Design.rerank := fun _ l => l;
     Design.window := 50;
     Design.rrfK := 60 |}.

Definition arrival : Design.MovieRecord :=
  {| Design.id := lit "arrival"; Design.title := lit "Arrival";
     Design.genres := [lit "sci-fi"]; Design.tags := [lit "first contact"];
     Design.runtimeMinutes := Some 116%Z; Design.releaseYear := Some 2016%Z |}.

Definition eventHorizon : Design.MovieRecord :=
  {| Design.id := lit "event-horizon"; Design.title := lit "Event Horizon";
     Design.genres := [lit "sci-fi"; lit "horror"]; Design.tags := [];
     Design.runtimeMinutes := Some 96%Z; Design.releaseYear := Some 1997%Z |}.

(** What [escapeHtml] writes for one code unit of its input. *)
Definition escapedUnit (c : N) : jsstring :=
  if htmlSpecial c then escapeChar c else [c].

(** ** truncate (app.js) *)

(** [String.prototype.slice] takes its bounds like
    [Array.prototype.slice]; the ellipsis is U+2026. *)
Definition truncate (str : option jsstring) (max : Z) : jsstring :=
  let s := trim (toStr (orElse str (Some []))) in
  if (Z.of_nat (length s) <=? max)%Z then s
  else trimEnd (slice s 0 (max - 1)) ++ [8230].

(** ** renderPagination (app.js) *)

Inductive buttonLabel : Type :=
| PrevLabel
| NextLabel
| PageLabel (p : Z).

(** A button of the pagination bar: [mkBtn(label, page, disabled, active)].
    Its click handler stores [page] in [state.page] and renders. *)
Record pageButton : Type := {
  btn_label : buttonLabel;
  btn_page : Z;
  btn_disabled : bool;
  btn_active : bool;
}.

(** The values of [p] in [for (let p = first; p <= last; p++)]. *)
Definition pageRange (first last : Z) : list Z :=
  map (fun i => (first + Z.of_nat i)%Z) (seq 0 (Z.to_nat (last - first + 1))).

(** The page numbers shown, at most [maxButtons = 7] of them. *)
Definition numberedPages (pg pages : Z) : list Z :=
  let maxButtons := 7%Z in
  let start := Z.max 1 (pg - maxButtons / 2) in
  let stop := Z.min pages (start + maxButtons - 1) in
  let realStart := Z.max 1 (stop - maxButtons + 1) in
  pageRange realStart stop.

(** [renderPagination(pages)] for a finite number of pages. *)
Definition renderPagination (st : state) (pages : Z) : list pageButton :=
  [{| btn_label := PrevLabel; btn_page := Z.max 1 (page st - 1);
      btn_disabled := (page st =? 1)%Z; btn_active := false |}]
  ++ map (fun p => {| btn_label := PageLabel p; btn_page := p;
                      btn_disabled := false;
                      btn_active := (p =? page st)%Z |})
         (numberedPages (page st) pages)
  ++ [{| btn_label := NextLabel; btn_page := Z.min pages (page st + 1);
         btn_disabled := (page st =? pages)%Z; btn_active := false |}].

(** The cards of page [p] of the local search. *)
Definition cardsOnPage (st : state) (p : Z) : list movie :=
  match renderLocal (setPage st p) emptyDom with
  | Normal (_, d) => cards d
  | TypeError => []
  end.

(** ** Vocabulary for the loader *)

(** A label a profile may carry after loading: not empty, not the
    word [none], and without underscore (code unit 95). *)
Definition properLabel (t : jsstring) : Prop :=
  t <> [] /\ t <> lit "none" /\ 95 ∉ t.

(** [l] merges [la] and [lb]: it has no duplicate and holds exactly
    their entries that are not empty. *)
Definition mergesLists (l : list jsstring) (la lb : option (list jsstring))
  : Prop :=
  NoDup l
  /\ forall x, x ∈ l <-> x <> [] /\ (x ∈ default [] la \/ x ∈ default [] lb).

(** ** The card preview and the parts of an API result (app.js) *)

(** [previewSrc] of [renderCard]: the first of card description,
    profile text and explanation that is not blank, trimmed. *)
Definition previewSrc (m : movie) : jsstring :=
  let cd := trim (toStr (card_description m)) in
  let pt := trim (toStr (profile_text m)) in
  let why := trim (toStr (_why m)) in
  if truthy cd then cd
  else if truthy pt then pt
  else if truthy why then why
  else [].

(** The [m] of the callback of [results.map]: the local movie with the
    key of the result's title, or a fresh movie with that title. *)
Definition localMovie (st : state) (r : apiResult) : movie :=
  default (normalizeMovie (rawOfTitle (res_title r)))
          (byKeyGet (data st) (makeKey (res_title r))).

(** [hasExistingDescription]. *)
Definition hasDescription (m : movie) : bool :=
  truthy (trim (toStr (card_description m)))
  || truthy (trim (toStr (profile_text m))).

(** The explanation the callback takes from the result. *)
Definition explanation (r : apiResult) : jsstring :=
  if isTruthy (res_why_pretty r) then toStr (res_why_pretty r)
  else if isTruthy (res_why r) then toStr (res_why r)
  else composeWhy (default [] (res_badges r)) r.

(** The value [render] normalizes into the API base. *)
Definition rawBase (env : environment) (st : state) : option jsstring :=
  orElse (orElse (orElse (Some (apiBase st)) (apiBaseInput env))
                 (storedApiBase env)) (Some []).

(** ** Favourites (app.js) *)

(** The click on a like button: [state.liked] is a [Set], kept as its
    members in insertion order. *)
Definition toggleLike (liked : list jsstring) (t : jsstring) : list jsstring :=
  if bool_decide (t ∈ liked) then filter (fun x => x <> t) liked
  else liked ++ [t].

(** [state.liked.delete(title)] in [removeFromFavorites]. *)
Definition removeFromFavorites (liked : list jsstring) (t : jsstring)
  : list jsstring :=
  filter (fun x => x <> t) liked.

(** [moviesByTitle.get(t)] for
    [moviesByTitle = new Map(state.data.map(m => [m.title, m]))]. *)
Definition moviesByTitleGet (ms : list movie) (t : jsstring) : option movie :=
  last (filter (fun m => title m = Some t) ms).

(** [favoriteMovies] of [renderFavorites]. *)
Definition favoriteMovies (liked : list jsstring) (ms : list movie)
  : list movie :=
  omap (moviesByTitleGet ms) liked.

(** ** apiFetch (app.js) *)

(** What [apiFetch] reads: the global override, the stored base and
    the location of the page. *)
Record fetchContext : Type := {
  win_API_BASE : option jsstring;
  stored_apiBase : option jsstring;
  location_protocol : jsstring;
  location_origin : jsstring;
}.

(** A response, reduced to what [apiFetch] looks at. *)
Record response : Type := {
  res_ok : bool;
  res_status : N;
  res_statusText : jsstring;
}.

(** A value thrown by [fetch]: its [message] property (absent when
    the value has none, or is [null] or [undefined]) and the text the
    value itself is converted to. *)
Record thrown : Type := {
  err_message : option jsstring;
  err_text : jsstring;
}.

(** What [fetch(url)] settles to: a response, or a rejection with the
    value thrown. *)
Inductive fetched : Type :=
| Responded (res : response)
| Rejected (err : thrown).

(** The list [candidates], in the order it is built. *)
Definition apiCandidates (cx : fetchContext) : list jsstring :=
  (if isTruthy (win_API_BASE cx)
   then [dropTrailingSlash (toStr (win_API_BASE cx))] else [])
  ++ (if isTruthy (stored_apiBase cx)
      then [dropTrailingSlash (toStr (stored_apiBase cx))] else [])
  ++ (if bool_decide (location_protocol cx = lit "http:")
         || bool_decide (location_protocol cx = lit "https:")
      then [location_origin cx] else [])
  ++ [lit "http://localhost:8001"; lit "https://localhost:8001";
      lit "http://127.0.0.1:8003"; lit "https://127.0.0.1:8003"].

(** How [apiFetch] ends: it returns a response, having stored the base
    that gave it, or it throws an error with a message. *)
Inductive apiFetchOutcome : Type :=
| Returned (base : jsstring) (res : response)
| Thrown (message : jsstring).

(** The entry pushed on [errors] for a candidate that failed; for a
    rejection it is made of [err?.message || err]. *)
Definition failureEntry (base : jsstring) (f : fetched) : jsstring :=
  match f with
  | Responded res =>
      base ++ lit ": " ++ decimal (res_status res) ++ [32] ++ res_statusText res
  | Rejected err =>
      base ++ lit ": "
      ++ (if isTruthy (err_message err) then toStr (err_message err)
          else err_text err)
  end.

(** The loop over the candidates; [errors] is what was collected. *)
Fixpoint tryCandidates (net : jsstring -> fetched) (path : jsstring)
  (candidates errors : list jsstring) : apiFetchOutcome :=
  match candidates with
  | [] => Thrown (lit "All API endpoints failed: "
                    ++ join (lit " | ") (map Some errors))
  | base :: rest =>
      match net (base ++ path) with
      | Responded res =>
          if res_ok res then Returned base res
          else tryCandidates net path rest
                 (errors ++ [failureEntry base (Responded res)])
      | Rejected err =>
          tryCandidates net path rest
            (errors ++ [failureEntry base (Rejected err)])
      end
  end.

Definition apiFetch (cx : fetchContext) (net : jsstring -> fetched)
  (path : jsstring) : apiFetchOutcome :=
  tryCandidates net path (apiCandidates cx) [].

(** The context of the next call after [apiFetch] returned from [base]:
    [localStorage.setItem('apiBase', base)] has run. *)
Definition afterFetch (cx : fetchContext) (o : apiFetchOutcome) : fetchContext :=
  match o with
  | Returned base _ =>
      {| win_API_BASE := win_API_BASE cx; stored_apiBase := Some base;
         location_protocol := location_protocol cx;
         location_origin := location_origin cx |}
  | Thrown _ => cx
  end.

(** A candidate answers the request for [path] with an ok response. *)
Definition answersOk (net : jsstring -> fetched) (path base : jsstring) : Prop :=
  exists res, net (base ++ path) = Responded res /\ res_ok res = true.

(** ** convertTmdbPath (app.js, local to normalizeMovie and mergeMovies) *)

(** The path is absent or a string. *)
Definition convertTmdbPath (path : option jsstring) (size : jsstring) : jsstring :=
  match path with
  | None | Some [] => []
  | Some p =>
      if startsWith p (lit "http") then p
      else if startsWith p (lit "/")
           then lit "https://image.tmdb.org/t/p/" ++ size ++ p
           else p
  end.

(** ** Array.prototype.sort with a comparator

    The sort is stable, and the comparators of the page that are
    modelled are differences of a number read from each element, so the
    result is determined: each element is placed before the first later
    element that does not compare below it. *)
Fixpoint sortedInsert {A} (compareFn : A -> A -> Z) (x : A) (l : list A)
  : list A :=
  match l with
  | [] => [x]
  | y :: l' =>
      if (compareFn x y <=? 0)%Z then x :: l
      else y :: sortedInsert compareFn x l'
  end.

Definition arraySort {A} (compareFn : A -> A -> Z) (l : list A) : list A :=
  foldr (sortedInsert compareFn) [] l.

(** ** Themed carousels (app.js) *)

(** An entry of [THEMED_CAROUSELS].  The fallback entries carry no
    [count]. *)
Record carousel : Type := {
  car_id : jsstring;
  car_title : jsstring;
  car_theme : jsstring;
  car_count : option N;
  car_limit : N;
}.

(** [\w] and the replacement of [/\b\w/g] by the uppercased match. *)
Definition isWordChar (c : N) : bool :=
  ((48 <=? c) && (c <=? 57)) || ((65 <=? c) && (c <=? 90)) || (c =? 95)
  || ((97 <=? c) && (c <=? 122)).

Fixpoint upperWordStarts (afterWord : bool) (s : jsstring) : jsstring :=
  match s with
  | [] => []
  | c :: s' =>
      (if isWordChar c && negb afterWord then toUpperCaseUnit c else [c])
        ++ upperWordStarts (isWordChar c) s'
  end.

Definition readableTheme (theme : jsstring) : jsstring :=
  upperWordStarts false (map (fun c => if c =? 95 then 32 else c) theme).

Definition themeId (theme : jsstring) : jsstring :=
  map (fun c => if c =? 95 then 45 else c) (toLowerCase theme).

(** The body of [themes.forEach] for a theme that passed the test:
    [themeMap] is the [Map], in insertion order. *)
Fixpoint countTheme (theme : jsstring) (themeMap : list carousel)
  : list carousel :=
  match themeMap with
  | [] =>
      [{| car_id := themeId theme; car_title := readableTheme theme;
          car_theme := readableTheme theme; car_count := Some 1;
          car_limit := 10 |}]
  | c :: rest =>
      if bool_decide (car_id c = themeId theme)
      then {| car_id := car_id c; car_title := car_title c;
              car_theme := car_theme c;
              car_count := option_map (fun n => n + 1) (car_count c);
              car_limit := car_limit c |} :: rest
      else c :: countTheme theme rest
  end.

(** The array [themes] built for a movie. *)
Definition movieThemes (movie : rawMovie) : list jsstring :=
  (if isTruthy (raw_primary_theme movie)
   then [toStr (raw_primary_theme movie)] else [])
  ++ (if isTruthy (raw_secondary_theme movie)
      then [toStr (raw_secondary_theme movie)] else []).

(** The callback of [movies.forEach]. *)
Definition countMovie (themeMap : list carousel) (movie : rawMovie)
  : list carousel :=
  foldl (fun tm theme =>
           if bool_decide (theme = lit "none") then tm else countTheme theme tm)
    themeMap (movieThemes movie).

(** [theme.count >= 10] and the number [count] in the comparator; the
    entries of the map always carry a count. *)
Definition atLeastTen (c : carousel) : bool :=
  match car_count c with
  | Some n => 10 <=? n
  | None => false
  end.

Definition countZ (c : carousel) : Z := Z.of_N (default 0 (car_count c)).

(** The [try] block of [loadThemesFromData] from the parsed movies
    on. *)
Definition themesFrom (movies : list rawMovie) : list carousel :=
  arraySort (fun a b => (countZ b - countZ a)%Z)
    (filter (fun c => atLeastTen c = true) (foldl countMovie [] movies)).

Definition fallbackThemes : list carousel :=
  map (fun p => {| car_id := lit (fst p); car_title := lit (snd p);
                   car_theme := lit (snd p); car_count := None;
                   car_limit := 10 |})
    [("found-family", "Found Family"); ("identity-crisis", "Identity Crisis");
     ("forbidden-love", "Forbidden Love");
     ("underdog-triumph", "Underdog Triumph");
     ("coming-of-age", "Coming Of Age")]%string.

(** [reply] is the parsed answer of [/api/movies], [None] when the
    request or the parsing failed. *)
Definition loadThemesFromData (reply : option (list rawMovie)) : list carousel :=
  match reply with
  | Some movies => themesFrom movies
  | None => fallbackThemes
  end.

(** [Array.prototype.indexOf] on an array of strings. *)
Fixpoint indexOf (l : list jsstring) (x : jsstring) : Z :=
  match l with
  | [] => (-1)%Z
  | y :: l' =>
      if bool_decide (y = x) then 0%Z
      else let i := indexOf l' x in if (i <? 0)%Z then (-1)%Z else (i + 1)%Z
  end.

(** [settings[carousel.id]]: the saved setting of the id when there
    is one ([savedSettings] gives its truthiness), true otherwise. *)
Definition carouselEnabled (savedSettings : jsstring -> option bool)
  (c : carousel) : bool :=
  default true (savedSettings (car_id c)).

(** The array [order]. *)
Definition carouselOrder (themed : list carousel) (savedOrder : list jsstring)
  : list jsstring :=
  match savedOrder with
  | [] => map car_id themed
  | _ :: _ => savedOrder
  end.

(** [savedSettings] and [savedOrder] are what the two stored JSON
    texts parse to. *)
Definition getEnabledCarousels (themed : list carousel)
  (savedSettings : jsstring -> option bool) (savedOrder : list jsstring)
  : list carousel :=
  match themed with
  | [] => []
  | _ :: _ =>
      arraySort
        (fun a b => (indexOf (carouselOrder themed savedOrder) (car_id a)
                     - indexOf (carouselOrder themed savedOrder) (car_id b))%Z)
        (filter (fun c => carouselEnabled savedSettings c = true) themed)
  end.

(** The themes the movies mention, in the order they are counted. *)
Definition mentions (movies : list rawMovie) : list jsstring :=
  filter (fun t => t <> lit "none") (flat_map movieThemes movies).

(** How often an id is mentioned. *)
Definition mentionsOf (id : jsstring) (movies : list rawMovie) : N :=
  N.of_nat (length (filter (fun t => themeId t = id) (mentions movies))).

(** The invariant of the map while the themes are counted. *)
Definition countsRight (ts : list jsstring) (tm : list carousel) : Prop :=
  NoDup (map car_id tm)
  /\ (forall c, c ∈ tm ->
        car_count c
        = Some (N.of_nat (length (filter (fun t => themeId t = car_id c) ts))))
  /\ (forall t, t ∈ ts -> themeId t ∈ map car_id tm).

(** ** loadAllSources (app.js): merging the sources *)

(** The test that skips a movie:
    [!m.title || m.title.trim() === '' || m.title === 'Untitled']. *)
Definition skipped (m : movie) : bool :=
  negb (isTruthy (title m)) || negb (truthy (trim (toStr (title m))))
  || bool_decide (toStr (title m) = lit "Untitled").

(** [merged.get(key)] and [merged.set(key, m)] on the [Map] [merged],
    kept as its entries in insertion order: setting a key that is
    present replaces the value where it stands. *)
Fixpoint mergedGet (merged : list (jsstring * movie)) (key : jsstring)
  : option movie :=
  match merged with
  | [] => None
  | (k, m) :: rest => if bool_decide (k = key) then Some m else mergedGet rest key
  end.

Fixpoint mergedSet (merged : list (jsstring * movie)) (key : jsstring)
  (m : movie) : list (jsstring * movie) :=
  match merged with
  | [] => [(key, m)]
  | (k, m0) :: rest =>
      if bool_decide (k = key) then (k, m) :: rest
      else (k, m0) :: mergedSet rest key m
  end.

(** The body of the loop over the objects of a source. *)
Definition addMovie (merged : list (jsstring * movie)) (obj : rawMovie)
  : list (jsstring * movie) :=
  let m := normalizeMovie obj in
  let key := makeKey (title m) in
  if skipped m then merged
  else
    match mergedGet merged key with
    | None => mergedSet merged key m
    | Some old => mergedSet merged key (mergeMovies old m)
    end.

(** A value of the object a source parses to: a profile, or a value
    on which [normalizeMovie] throws ([null], or an object one of whose
    tone, theme or image fields is neither absent nor a string). *)
Inductive sourceEntry : Type :=
| Profile (obj : rawMovie)
| Unreadable.

(** The loop over the values of a source.  The [try] block encloses
    the loop: an exception ends it, what was merged before stays
    merged and the rest of the source is not read. *)
Fixpoint addEntries (merged : list (jsstring * movie))
  (entries : list sourceEntry) : list (jsstring * movie) :=
  match entries with
  | [] => merged
  | Profile obj :: rest => addEntries (addMovie merged obj) rest
  | Unreadable :: _ => merged
  end.

(** A source is the list of the values of the object it parses to, or
    [None] when the request or the parsing failed.  Every failure is
    caught and the next source is read. *)
Definition addSource (merged : list (jsstring * movie))
  (source : option (list sourceEntry)) : list (jsstring * movie) :=
  match source with
  | Some entries => addEntries merged entries
  | None => merged
  end.

Definition mergeSources (sources : list (option (list sourceEntry)))
  : list (jsstring * movie) :=
  foldl addSource [] sources.

(** The white space units, listed. *)
Definition spaceUnits : list N :=
  unitRange 9 5 ++ unitRange 8192 11
  ++ [32; 160; 5760; 8232; 8233; 8239; 8287; 12288; 65279].

(** What holds of the map while the sources are merged: the keys are
    distinct, and every movie is stored under the key of its own title,
    is a loaded record and has a title that is not blank. *)
Definition mergedRight (merged : list (jsstring * movie)) : Prop :=
  NoDup (map fst merged)
  /\ Forall (fun e => makeKey (title (snd e)) = fst e /\ loaded (snd e)
                      /\ trim (toStr (title (snd e))) <> []) merged.

(** Three sources: the first names a film twice, in different
    spellings; the second failed; the third holds a value that is not
    a profile between two profiles. *)
Definition sampleSources : list (option (list sourceEntry)) :=
  [Some [Profile alienRaw; Profile (rawOfTitle (Some (lit "Amelie")));
         Profile (rawOfTitle (Some (lit " ALIEN ")))];
   None;
   Some [Profile (rawOfTitle (Some (lit "Heat"))); Unreadable;
         Profile (rawOfTitle (Some (lit "Ronin")))]].

(** A profile that names two themes and nothing else. *)
Definition rawOfThemes (p s : option jsstring) : rawMovie :=
  {| raw_title := None; raw_Title := None;
     raw_primary_emotional_tone := None; raw_secondary_emotional_tone := None;
     raw_primary_theme := p; raw_secondary_theme := s;
     raw_pacing_style := None; raw_visual_aesthetic := None;
     raw_target_audience := None; raw_similar_films := JAbsent;
     raw_cultural_context := JAbsent; raw_narrative_structure := None;
     raw_energy_level := None; raw_discussion_topics := JAbsent;
     raw_card_description := None; raw_profile_text := None |}.

(* ================================================================== *)
(** * Part II. Properties                                             *)
(* ================================================================== *)

(** ** escapeHtml *)

Lemma escapeChar_special c :
  htmlSpecial c = true -> htmlEntity c = Some (escapeChar c).
Proof.
  unfold htmlSpecial, escapeChar, htmlEntity.
  repeat (destruct (_ =? _); [reflexivity|]). discriminate.
Qed.

Lemma escapeChar_clean c :
  htmlSpecial c = true ->
  Forall (fun d => d <> 60 /\ d <> 62 /\ d <> 34 /\ d <> 39) (escapeChar c).
Proof.
  unfold htmlSpecial, escapeChar, htmlEntity.
  repeat (destruct (_ =? _);
          [intros _; vm_compute; repeat constructor; discriminate|]).
  discriminate.
Qed.

Lemma not_special_clean c :
  htmlSpecial c = false -> c <> 60 /\ c <> 62 /\ c <> 34 /\ c <> 39.
Proof.
  unfold htmlSpecial. rewrite !orb_false_iff, !N.eqb_neq. tauto.
Qed.

Lemma escapeHtml_app s1 s2 :
  escapeHtml (Some (s1 ++ s2)) = escapeHtml (Some s1) ++ escapeHtml (Some s2).
Proof.
  unfold escapeHtml; simpl. induction s1 as [|c s1 IH]; simpl; [reflexivity|].
  rewrite IH. now rewrite app_assoc.
Qed.

Lemma escapeHtml_occurrence s1 s2 c e :
  htmlEntity c = Some e -> e <> [] ->
  escapeHtml (Some (s1 ++ c :: s2)) =
  escapeHtml (Some s1) ++ e ++ escapeHtml (Some s2).
Proof.
  intros He Hne. rewrite escapeHtml_app. f_equal.
  unfold escapeHtml; simpl.
  assert (Hs : htmlSpecial c = true).
  { revert He. unfold htmlEntity, htmlSpecial.
    repeat (destruct (_ =? _); [reflexivity|]). discriminate. }
  rewrite Hs. unfold escapeChar. rewrite He.
  destruct e; [contradiction|reflexivity].
Qed.

(** C10. The output of [escapeHtml] holds none of the code units
    [<] (60), [>] (62), the double quote (34) and the single quote (39),
    whatever the input (absent inputs included); and every occurrence
    of [&], [<], [>], the double quote and the single quote in the input
    is replaced, in place, by its HTML entity. *)
Theorem escapeHtml_no_markup :
  (forall s : option jsstring,
      Forall (fun d => d <> 60 /\ d <> 62 /\ d <> 34 /\ d <> 39) (escapeHtml s))
  /\
  (forall s1 s2 : jsstring,
      escapeHtml (Some (s1 ++ 38 :: s2)) =
        escapeHtml (Some s1) ++ lit "&amp;" ++ escapeHtml (Some s2)
      /\ escapeHtml (Some (s1 ++ 60 :: s2)) =
        escapeHtml (Some s1) ++ lit "&lt;" ++ escapeHtml (Some s2)
      /\ escapeHtml (Some (s1 ++ 62 :: s2)) =
        escapeHtml (Some s1) ++ lit "&gt;" ++ escapeHtml (Some s2)
      /\ escapeHtml (Some (s1 ++ 34 :: s2)) =
        escapeHtml (Some s1) ++ lit "&quot;" ++ escapeHtml (Some s2)
      /\ escapeHtml (Some (s1 ++ 39 :: s2)) =
        escapeHtml (Some s1) ++ lit "&#039;" ++ escapeHtml (Some s2)).
Proof.
  split.
  - intros s. unfold escapeHtml. induction (toStr s) as [|c l IH]; simpl.
    + constructor.
    + apply Forall_app. split; [|exact IH].
      destruct (htmlSpecial c) eqn:Hc.
      * now apply escapeChar_clean.
      * constructor; [now apply not_special_clean | constructor].
  - intros s1 s2.
    repeat split; apply escapeHtml_occurrence; (reflexivity || discriminate).
Qed.




(** ** Strings *)

Lemma startsWith_spec h q :
  startsWith h q = true <-> exists post, h = q ++ post.
Proof.
  revert h. induction q as [|c q IH]; intros h; simpl.
  - destruct h; simpl; split; eauto.
  - destruct h as [|d h]; simpl.
    + split; [discriminate | intros [post H]; discriminate].
    + rewrite andb_true_iff, N.eqb_eq, IH. split.
      * intros [-> [post ->]]. now exists post.
      * intros [post H]. injection H as -> ->. split; [reflexivity|now exists post].
Qed.

Lemma includes_spec h q : includes h q = true <-> substring q h.
Proof.
  unfold substring. induction h as [|d h IH]; cbn [includes].
  - rewrite orb_false_r, startsWith_spec. split.
    + intros [post H]. now exists [], post.
    + intros [pre [post H]]. destruct pre; simpl in H.
      * now exists post.
      * discriminate.
  - rewrite orb_true_iff, startsWith_spec, IH. split.
    + intros [[post H] | [pre [post H]]].
      * now exists [], post.
      * exists (d :: pre), post. simpl. now rewrite H.
    + intros [pre [post H]]. destruct pre as [|e pre]; simpl in H.
      * left. now exists post.
      * right. injection H as _ H. now exists pre, post.
Qed.

(** ** applyFilters *)

Lemma spread_present a :
  is_Some a -> spread a = Normal (listField a).
Proof. intros [l ->]. reflexivity. Qed.

Lemma hay_wellFormed m : wellFormed m -> hay m = Normal (searchedText m).
Proof.
  intros (H1 & H2 & H3 & H4 & H5). unfold hay.
  rewrite (spread_present _ H1), (spread_present _ H2), (spread_present _ H3),
    (spread_present _ H4), (spread_present _ H5).
  reflexivity.
Qed.

Lemma requireAll_present sel field :
  is_Some field -> requireAll sel field = Normal (hasAllb sel field).
Proof. intros [l ->]. destruct sel; reflexivity. Qed.

Lemma keepMovie_wellFormed q tones thms m :
  wellFormed m -> keepMovie q tones thms m = Normal (selectedb q tones thms m).
Proof.
  intros Hwf. pose proof Hwf as (H1 & H2 & _).
  unfold keepMovie, selectedb.
  rewrite (requireAll_present tones _ H1), (requireAll_present thms _ H2).
  destruct (truthy q); simpl.
  - rewrite (hay_wellFormed m Hwf). simpl.
    destruct (includes (searchedText m) q); simpl; [|reflexivity].
    destruct (hasAllb tones (emotional_tone m)); reflexivity.
  - destruct (hasAllb tones (emotional_tone m)); reflexivity.
Qed.

Lemma arrayFilter_total {A} (f : A -> outcome bool) (g : A -> bool) l :
  Forall (fun x => f x = Normal (g x)) l ->
  arrayFilter f l = Normal (filter (fun x => g x = true) l).
Proof.
  induction 1 as [|x l Hx _ IH]; simpl; [reflexivity|].
  rewrite Hx, IH. simpl. rewrite filter_cons.
  destruct (g x); case_decide; congruence.
Qed.

Lemma applyFilters_wellFormed st arr :
  Forall wellFormed arr ->
  applyFilters st arr =
  Normal (filter (fun m => selectedb (search st) (filterTones st)
                             (filterThemes st) m = true) arr).
Proof.
  intros Hwf. apply arrayFilter_total.
  eapply Forall_impl; [exact Hwf|].
  intros m Hm. now apply keepMovie_wellFormed.
Qed.

Lemma hasAllb_spec sel field : hasAllb sel field = true <-> hasAll sel field.
Proof.
  unfold hasAllb, hasAll, arrayIncludes. rewrite forallb_forall. split.
  - intros H t Ht. apply list_elem_of_In in Ht.
    apply H in Ht. now apply bool_decide_eq_true in Ht.
  - intros H t Ht. apply bool_decide_eq_true, H. now apply list_elem_of_In.
Qed.

Lemma truthy_false q : truthy q = false <-> q = [].
Proof. destruct q; simpl; split; congruence. Qed.

Lemma selectedb_spec q tones thms m :
  selectedb q tones thms m = true <-> selected q tones thms m.
Proof.
  unfold selectedb, selected.
  rewrite !andb_true_iff, orb_true_iff, negb_true_iff, truthy_false,
    includes_spec, !hasAllb_spec.
  tauto.
Qed.

(** Whenever the callback completes normally, its verdict is the
    selection test, also on movie objects that lack properties. *)
Lemma hay_sound m h : hay m = Normal h -> h = searchedText m.
Proof.
  unfold hay, searchedText, listField, spread.
  destruct (emotional_tone m), (themes m), (similar_films m),
    (cultural_context m), (discussion_topics m); simpl;
    try discriminate.
  now intros [= <-].
Qed.

Lemma requireAll_sound sel field b :
  requireAll sel field = Normal b -> b = hasAllb sel field.
Proof.
  unfold requireAll, hasAllb. destruct sel as [|t sel].
  - now intros [= <-].
  - destruct field as [l|]; [now intros [= <-] | discriminate].
Qed.

Lemma keepMovie_sound q tones thms m b :
  keepMovie q tones thms m = Normal b -> b = selectedb q tones thms m.
Proof.
  unfold keepMovie, selectedb.
  assert (Hrest : forall found,
    (if negb found then Normal false
     else tonesOk <- requireAll tones (emotional_tone m) ;;
          if negb tonesOk then Normal false
          else requireAll thms (themes m)) = Normal b ->
    b = found && hasAllb tones (emotional_tone m) && hasAllb thms (themes m)).
  { intros [|]; simpl; [|now intros [= <-]].
    destruct (requireAll tones (emotional_tone m)) as [ok|] eqn:Ht; simpl;
      [|discriminate].
    apply requireAll_sound in Ht. subst ok.
    destruct (hasAllb tones (emotional_tone m)); simpl.
    - apply requireAll_sound.
    - now intros [= <-]. }
  destruct (truthy q); simpl.
  - destruct (hay m) as [h|] eqn:Hh; simpl; [|discriminate].
    apply hay_sound in Hh. subst h. apply Hrest.
  - apply (Hrest true).
Qed.

Lemma arrayFilter_sound {A} (f : A -> outcome bool) (g : A -> bool) l out :
  (forall x b, f x = Normal b -> b = g x) ->
  arrayFilter f l = Normal out ->
  out = filter (fun x => g x = true) l.
Proof.
  intros Hf. revert out. induction l as [|x l IH]; intros out; simpl.
  - now intros [= <-].
  - destruct (f x) as [b|] eqn:Hx; simpl; [|discriminate].
    destruct (arrayFilter f l) as [r|]; simpl; [|discriminate].
    intros [= <-]. apply Hf in Hx. subst b. rewrite filter_cons, (IH r eq_refl).
    destruct (g x); case_decide; congruence.
Qed.

Lemma applyFilters_sound st arr out :
  applyFilters st arr = Normal out ->
  out = filter (fun m => selectedb (search st) (filterTones st)
                           (filterThemes st) m = true) arr.
Proof. apply arrayFilter_sound. intros m b. apply keepMovie_sound. Qed.

(** C9. Whenever [applyFilters] returns, it returns the movies
    selected by the search, each as often and in the order it occurs
    in the input: those for which the search string is empty or a
    substring of the searched text, and which carry every selected
    tone and every selected theme.  It does return on every catalog
    whose movies have their list properties. *)
Theorem applyFilters_selects st arr :
  (forall out, applyFilters st arr = Normal out ->
     out = filter (fun m => selectedb (search st) (filterTones st)
                              (filterThemes st) m = true) arr
     /\ sublist out arr
     /\ (forall m, m ∈ out <->
                   m ∈ arr /\ selected (search st) (filterTones st)
                                (filterThemes st) m))
  /\ (forall m, selectedb (search st) (filterTones st) (filterThemes st) m = true
                <-> selected (search st) (filterTones st) (filterThemes st) m)
  /\ (Forall wellFormed arr -> exists out, applyFilters st arr = Normal out).
Proof.
  split; [|split].
  - intros out Hout. apply applyFilters_sound in Hout. subst out.
    split; [reflexivity|]. split; [apply sublist_filter|].
    intros m. rewrite list_elem_of_filter, selectedb_spec. tauto.
  - intros m. apply selectedb_spec.
  - intros Hwf. eexists. now apply applyFilters_wellFormed.
Qed.

Lemma alien_wellFormed : Forall wellFormed [alien; amelie].
Proof. repeat constructor; simpl; eauto. Qed.

Lemma applyFilters_selects_witness :
  (forall out,
     applyFilters (searching (lit "stowaway")) [alien; amelie] = Normal out ->
     out = filter (fun m => selectedb (lit "stowaway") [lit "Tense"] [] m = true)
             [alien; amelie]
     /\ sublist out [alien; amelie]
     /\ (forall m, m ∈ out <->
                   m ∈ [alien; amelie]
                   /\ selected (lit "stowaway") [lit "Tense"] [] m))
  /\ (forall m, selectedb (lit "stowaway") [lit "Tense"] [] m = true
                <-> selected (lit "stowaway") [lit "Tense"] [] m)
  /\ (Forall wellFormed [alien; amelie] ->
      exists out,
        applyFilters (searching (lit "stowaway")) [alien; amelie] = Normal out).
Proof.
  exact (applyFilters_selects (searching (lit "stowaway")) [alien; amelie]).
Defined.

(** ** The empty search *)

Lemma keepMovie_no_criteria m : keepMovie [] [] [] m = Normal true.
Proof. reflexivity. Qed.

Lemma arrayFilter_all {A} (f : A -> outcome bool) l :
  Forall (fun x => f x = Normal true) l -> arrayFilter f l = Normal l.
Proof.
  induction 1 as [|x l Hx _ IH]; simpl; [reflexivity|].
  now rewrite Hx, IH.
Qed.

Lemma normalizeBase_empty val : trim (toStr val) = [] -> normalizeBase val = [].
Proof. unfold normalizeBase. now intros ->. Qed.

Lemma render_local_when_no_search env net st d :
  search st = [] -> render env net st d = renderLocal st d.
Proof.
  intros Hq. unfold render. rewrite Hq. simpl. now rewrite andb_false_r.
Qed.

(** C1, as the code has it.  With an empty search text the search
    tests the filters only: whenever [applyFilters] returns, the
    result holds the movies carrying every selected tone and every
    selected theme, in catalog order; it returns, without error, on
    every catalog whose movies have their list properties, and with
    the whole catalog on any catalog when no filter is selected;
    [render] takes the local path. *)
Theorem empty_search_applies_filters_only st arr :
  search st = [] ->
  (forall out, applyFilters st arr = Normal out ->
     out = filter (fun m => hasAllb (filterTones st) (emotional_tone m)
                            && hasAllb (filterThemes st) (themes m) = true) arr)
  /\ (Forall wellFormed arr -> exists out, applyFilters st arr = Normal out)
  /\ (filterTones st = [] -> filterThemes st = [] ->
      applyFilters st arr = Normal arr)
  /\ (forall env net d, render env net st d = renderLocal st d).
Proof.
  intros Hq. split; [|split; [|split]].
  - intros out Hout. apply applyFilters_sound in Hout. subst out.
    apply list_filter_iff. intros m. unfold selectedb. now rewrite Hq.
  - intros Hwf. eexists. now apply applyFilters_wellFormed.
  - intros Ht Hth. unfold applyFilters. rewrite Hq, Ht, Hth.
    apply arrayFilter_all, Forall_forall. intros m _. reflexivity.
  - intros env net d. now apply render_local_when_no_search.
Qed.

Lemma empty_search_applies_filters_only_witness :
  (forall out, applyFilters browsing [alien; amelie] = Normal out ->
     out = filter (fun m => hasAllb [] (emotional_tone m)
                            && hasAllb [] (themes m) = true) [alien; amelie])
  /\ (Forall wellFormed [alien; amelie] ->
      exists out, applyFilters browsing [alien; amelie] = Normal out)
  /\ (filterTones browsing = [] -> filterThemes browsing = [] ->
      applyFilters browsing [alien; amelie] = Normal [alien; amelie])
  /\ (forall env net d, render env net browsing d = renderLocal browsing d).
Proof.
  apply (empty_search_applies_filters_only browsing [alien; amelie]).
  reflexivity.
Defined.

(** C1, as stated, fails: with an empty search text and no filter the
    search returns the whole catalog, here two movies, and [render]
    shows them. *)
Lemma empty_search_returns_catalog :
  ~ (forall st arr, search st = [] -> applyFilters st arr = Normal [])
  /\ ~ (forall env net st d, search st = [] ->
          exists st' d', render env net st d = Normal (st', d') /\ cards d' = []).
Proof.
  split.
  - intros H. specialize (H browsing [alien; amelie] eq_refl). discriminate H.
  - intros H.
    destruct (H noEnvironment backendDown browsing emptyDom eq_refl)
      as (st' & d' & Hr & Hc).
    vm_compute in Hr. injection Hr as _ Hd. subst d'. discriminate Hc.
Qed.

(** ** Determinism *)

Lemma sameMembers_nil s : sameMembers [] s -> s = [].
Proof.
  destruct s as [|t s]; [reflexivity|]. intros H.
  assert (Ht : t ∈ []) by (apply H; left). inversion Ht.
Qed.

Lemma hasAllb_sameMembers s1 s2 field :
  sameMembers s1 s2 -> hasAllb s1 field = hasAllb s2 field.
Proof.
  intros H. apply eq_true_iff_eq. rewrite !hasAllb_spec. unfold hasAll.
  split; intros Hall t Ht; apply Hall, H, Ht.
Qed.

Lemma requireAll_sameMembers s1 s2 field :
  sameMembers s1 s2 -> requireAll s1 field = requireAll s2 field.
Proof.
  intros H. destruct s1 as [|a s1], s2 as [|b s2].
  - reflexivity.
  - apply sameMembers_nil in H. discriminate.
  - assert (H' : sameMembers [] (a :: s1)) by (intros t; symmetry; apply H).
    apply sameMembers_nil in H'. discriminate.
  - simpl. destruct field as [l|]; [|reflexivity]. f_equal.
    apply (hasAllb_sameMembers _ _ (Some l) H).
Qed.

Lemma arrayFilter_ext {A} (f g : A -> outcome bool) l :
  (forall x, f x = g x) -> arrayFilter f l = arrayFilter g l.
Proof.
  intros H. induction l as [|x l IH]; simpl; [reflexivity|].
  now rewrite H, IH.
Qed.

(** C3. Two runs of [applyFilters] on equal inputs (the same catalog
    array, the same search string, tone sets with the same members and
    theme sets with the same members, whatever the order in which the
    members were selected) give the same completion: the same sequence
    of movies, element for element, or the same exception. *)
Theorem applyFilters_deterministic st1 st2 arr1 arr2 :
  arr1 = arr2 ->
  search st1 = search st2 ->
  sameMembers (filterTones st1) (filterTones st2) ->
  sameMembers (filterThemes st1) (filterThemes st2) ->
  applyFilters st1 arr1 = applyFilters st2 arr2.
Proof.
  intros -> Hq Ht Hth. unfold applyFilters. apply arrayFilter_ext.
  intros m. unfold keepMovie. rewrite Hq.
  rewrite (requireAll_sameMembers _ _ (emotional_tone m) Ht).
  now rewrite (requireAll_sameMembers _ _ (themes m) Hth).
Qed.

Lemma applyFilters_deterministic_witness :
  applyFilters tenseThenDark [alien; amelie] =
  applyFilters darkThenTense [alien; amelie].
Proof.
  apply (applyFilters_deterministic tenseThenDark darkThenTense
           [alien; amelie] [alien; amelie]).
  - reflexivity.
  - reflexivity.
  - intros t. simpl. rewrite !elem_of_cons. tauto.
  - intros t. simpl. tauto.
Defined.

(** ** No exception on a loaded catalog *)

Lemma loaded_wellFormed m : loaded m -> wellFormed m.
Proof. induction 1; repeat split; simpl; eauto. Qed.

Lemma Forall_loaded_wellFormed arr : Forall loaded arr -> Forall wellFormed arr.
Proof. intros H. eapply Forall_impl; [exact H | exact loaded_wellFormed]. Qed.

Lemma orElse_emptyIfAbsent x y : orElse (emptyIfAbsent x) y = orElse x y.
Proof. destruct x as [[|c s]|]; reflexivity. Qed.

Lemma formatTheme_emptyIfAbsent x : formatTheme (emptyIfAbsent x) = formatTheme x.
Proof. destruct x as [[|c s]|]; reflexivity. Qed.

Lemma formatEmotionalTone_emptyIfAbsent x :
  formatEmotionalTone (emptyIfAbsent x) = formatEmotionalTone x.
Proof. destruct x as [[|c s]|]; reflexivity. Qed.

Lemma toArray_emptyIfAbsentList v : toArray (emptyIfAbsentList v) = toArray v.
Proof. destruct v; reflexivity. Qed.

Lemma toStr_emptyIfAbsent x : toStr (emptyIfAbsent x) = toStr x.
Proof. reflexivity. Qed.

Lemma normalizeMovie_withDefaults obj :
  normalizeMovie (withDefaults obj) = normalizeMovie obj.
Proof.
  unfold normalizeMovie, withDefaults; cbn [raw_title raw_Title
    raw_primary_emotional_tone raw_secondary_emotional_tone raw_primary_theme
    raw_secondary_theme raw_pacing_style raw_visual_aesthetic
    raw_target_audience raw_similar_films raw_cultural_context
    raw_narrative_structure raw_energy_level raw_discussion_topics
    raw_card_description raw_profile_text].
  rewrite !formatTheme_emptyIfAbsent, !formatEmotionalTone_emptyIfAbsent,
    !toArray_emptyIfAbsentList, !toStr_emptyIfAbsent.
  f_equal. f_equal. f_equal. rewrite orElse_emptyIfAbsent.
  destruct (raw_title obj) as [[|c s]|]; simpl;
    try reflexivity; apply orElse_emptyIfAbsent.
Qed.

(** Inside [applyFilters] an absent string property counts as the
    empty string: the filter callback cannot tell the two apart. *)
Lemma keepMovie_absent_strings q tones thms m :
  keepMovie q tones thms (withEmptyStrings m) = keepMovie q tones thms m.
Proof.
  unfold keepMovie, hay, withEmptyStrings, emptyIfAbsent; simpl.
  destruct (title m), (pacing_style m), (energy_level m), (visual_aesthetic m),
    (target_audience m), (narrative_structure m), (profile_text m); reflexivity.
Qed.

(** ** renderLocal *)

Lemma relIndex_window len s n :
  (0 <= len)%Z -> (0 <= n)%Z -> (relIndex len (s + n) - relIndex len s <= n)%Z.
Proof.
  intros Hlen Hn. unfold relIndex.
  destruct (Z.ltb_spec (s + n) 0), (Z.ltb_spec s 0); lia.
Qed.

Lemma slice_length {A} (l : list A) s n :
  (0 <= n)%Z -> (Z.of_nat (length (slice l s (s + n))) <= n)%Z.
Proof.
  intros Hn. unfold slice. rewrite length_take.
  pose proof (relIndex_window (Z.of_nat (length l)) s n ltac:(lia) Hn).
  lia.
Qed.

Lemma renderLocal_shows st d out :
  applyFilters st (data st) = Normal out ->
  exists st' d',
    renderLocal st d = Normal (st', d')
    /\ data st' = data st /\ search st' = search st
    /\ pageSize st' = pageSize st
    /\ cards d' = slice out ((page st' - 1) * pageSize st)
                        ((page st' - 1) * pageSize st + pageSize st)
    /\ stats d' = StatsLocal (length out) (page st')
                    (pageCountOf (length out) (pageSize st))
    /\ pagination d' = Some (pageCountOf (length out) (pageSize st))
    /\ apiStatus d' = apiStatus d.
Proof.
  intros H. unfold renderLocal. rewrite H. simpl.
  eexists _, _. split; [reflexivity|]. simpl. repeat split; reflexivity.
Qed.

Lemma renderLocal_total st d :
  Forall wellFormed (data st) ->
  exists st' d', renderLocal st d = Normal (st', d').
Proof.
  intros Hwf.
  destruct (renderLocal_shows st d _ (applyFilters_wellFormed st _ Hwf))
    as (st' & d' & H & _).
  eauto.
Qed.


(** [renderLocal] writes the statistics, the cards and the pagination
    bar afresh: they do not depend on what the page showed before. *)
Lemma renderLocal_overwrites st d1 d2 st' d1' :
  renderLocal st d1 = Normal (st', d1') ->
  exists d2',
    renderLocal st d2 = Normal (st', d2')
    /\ cards d2' = cards d1' /\ stats d2' = stats d1'
    /\ pagination d2' = pagination d1'.
Proof.
  unfold renderLocal.
  destruct (applyFilters st (data st)) as [out|]; simpl; [|discriminate].
  intros H. injection H as <- <-. eexists. split; [reflexivity|].
  simpl. repeat split; reflexivity.
Qed.

(** ** render and the search API *)

Lemma render_cases env net st d :
  render env net st d = renderLocal st d
  \/ exists base, render env net st d = renderUsingApi net base st d.
Proof.
  unfold render.
  match goal with |- context [if ?b then _ else _] => destruct b end;
    [right; eexists; reflexivity | now left].
Qed.

Lemma renderUsingApi_reply net base st d req dat :
  searchRequest base st = Some req -> net req = Reply dat ->
  renderUsingApi net base st d =
  Normal (st, {| stats := StatsApi (length (default [] (results dat)))
                            (semantic_enabled dat);
                 cards := map (resultMovie st) (default [] (results dat));
                 pagination := None;
                 apiStatus := apiStatus d |}).
Proof. unfold renderUsingApi. now intros -> ->. Qed.

(** What [renderUsingApi] comes to: the answer of the backend is
    shown, or the [catch] block runs. *)
Lemma renderUsingApi_cases net base st d :
  (exists req dat,
      searchRequest base st = Some req /\ net req = Reply dat
      /\ renderUsingApi net base st d
         = Normal (st, {| stats := StatsApi (length (default [] (results dat)))
                                     (semantic_enabled dat);
                          cards := map (resultMovie st)
                                     (default [] (results dat));
                          pagination := None;
                          apiStatus := apiStatus d |}))
  \/ (exists message,
        renderUsingApi net base st d
        = searchFailed st
            {| stats := StatsSearching; cards := []; pagination := None;
               apiStatus := apiStatus d |} message).
Proof.
  unfold renderUsingApi.
  destruct (searchRequest base st) as [req|]; [|right; eexists; reflexivity].
  destruct (net req) as [msg|code text|msg|dat] eqn:Hn;
    try (right; eexists; reflexivity).
  left. exists req, dat. auto.
Qed.

Lemma renderUsingApi_failure net base st d :
  (forall req, failureMessage (net req) <> None) ->
  exists message,
    renderUsingApi net base st d
    = searchFailed st
        {| stats := StatsSearching; cards := []; pagination := None;
           apiStatus := apiStatus d |} message.
Proof.
  intros Hfail.
  destruct (renderUsingApi_cases net base st d)
    as [(req & dat & _ & Hn & _) | H]; [|exact H].
  specialize (Hfail req). rewrite Hn in Hfail. contradiction.
Qed.

Lemma render_total env net st d :
  Forall wellFormed (data st) ->
  exists st' d', render env net st d = Normal (st', d').
Proof.
  intros Hwf. destruct (render_cases env net st d) as [-> | [base ->]].
  - now apply renderLocal_total.
  - destruct (renderUsingApi_cases net base st d)
      as [(req & dat & _ & _ & ->) | [message ->]]; [eauto|].
    now apply renderLocal_total.
Qed.

(** C5. The search rejects no input.  On every catalog the loader
    builds (records that [normalizeMovie] returns, merged by
    [mergeMovies] when two profiles share a key), the empty catalog
    included, for every search string and filter state,
    [applyFilters] completes normally with a sub-list of the catalog
    and [render] completes normally whatever the network answers; on
    the empty catalog the result is the empty list; a string property
    that is absent counts as the empty string; and a profile with
    absent fields is loaded as the same profile with empty strings and
    empty arrays in their place. *)
Theorem search_never_throws st arr :
  Forall loaded arr ->
  (exists out, applyFilters st arr = Normal out /\ sublist out arr)
  /\ (data st = arr ->
      forall env net d, exists st' d', render env net st d = Normal (st', d'))
  /\ applyFilters st [] = Normal []
  /\ (forall m, keepMovie (search st) (filterTones st) (filterThemes st)
                  (withEmptyStrings m)
                = keepMovie (search st) (filterTones st) (filterThemes st) m)
  /\ (forall obj, normalizeMovie obj = normalizeMovie (withDefaults obj)).
Proof.
  intros Hl. apply Forall_loaded_wellFormed in Hl as Hwf.
  split; [|split; [|split; [|split]]].
  - eexists. split; [now apply applyFilters_wellFormed | apply sublist_filter].
  - intros <- env net d. now apply render_total.
  - reflexivity.
  - intros m. apply keepMovie_absent_strings.
  - intros obj. symmetry. apply normalizeMovie_withDefaults.
Qed.

Lemma search_never_throws_witness :
  (exists out,
      applyFilters (searching (lit "no such words"))
        [alien; normalizeMovie (rawOfTitle None); mergeMovies alien amelie]
      = Normal out
      /\ sublist out
           [alien; normalizeMovie (rawOfTitle None); mergeMovies alien amelie])
  /\ (data (searching (lit "no such words"))
      = [alien; normalizeMovie (rawOfTitle None); mergeMovies alien amelie] ->
      forall env net d, exists st' d',
        render env net (searching (lit "no such words")) d = Normal (st', d'))
  /\ applyFilters (searching (lit "no such words")) [] = Normal []
  /\ (forall m, keepMovie (lit "no such words") [lit "Tense"] []
                  (withEmptyStrings m)
                = keepMovie (lit "no such words") [lit "Tense"] [] m)
  /\ (forall obj, normalizeMovie obj = normalizeMovie (withDefaults obj)).
Proof.
  apply (search_never_throws (searching (lit "no such words"))
           [alien; normalizeMovie (rawOfTitle None); mergeMovies alien amelie]).
  repeat constructor.
Defined.

(** [applyFilters] counts on the loader for the list properties: on
    a movie object without them, which the page never stores, it
    throws as soon as there is a search string, because the haystack
    spreads [m.emotional_tone] and the other lists. *)
Lemma applyFilters_throws_without_lists :
  ~ (forall st arr, exists out, applyFilters st arr = Normal out).
Proof.
  intros H.
  destruct (H (searching (lit "stowaway")) [bareTitle]) as [out Hout].
  discriminate Hout.
Qed.





(** C4. When the search backend fails (the request is rejected, the
    response is not ok, or its body cannot be used), [render] does not
    fail: on a catalog whose movies have their list properties it
    completes normally and shows, for the same search string and
    filters, exactly the state, cards, statistics and pagination of
    the local search. *)
Theorem render_falls_back_to_local env net st d :
  Forall wellFormed (data st) ->
  (forall req, failureMessage (net req) <> None) ->
  exists st' d' dl,
    render env net st d = Normal (st', d')
    /\ renderLocal st d = Normal (st', dl)
    /\ cards d' = cards dl /\ stats d' = stats dl
    /\ pagination d' = pagination dl.
Proof.
  intros Hwf Hfail.
  destruct (renderLocal_total st d Hwf) as (st' & dl & Hl).
  destruct (render_cases env net st d) as [E | [base E]].
  - exists st', dl, dl. rewrite E. repeat split; assumption.
  - destruct (renderUsingApi_failure net base st d Hfail) as [message E'].
    rewrite E, E'. unfold searchFailed.
    destruct (renderLocal_overwrites st d
                {| stats := StatsSearching; cards := []; pagination := None;
                   apiStatus :=
                     Some (lit "Search failed, falling back to local: "
                             ++ message) |}
                st' dl Hl) as (d' & Hd & Hc & Hs & Hp).
    exists st', d', dl. repeat split; assumption.
Qed.

Lemma render_falls_back_to_local_witness :
  exists st' d' dl,
    render noEnvironment backendDown (searching (lit "crew")) emptyDom
    = Normal (st', d')
    /\ renderLocal (searching (lit "crew")) emptyDom = Normal (st', dl)
    /\ cards d' = cards dl /\ stats d' = stats dl
    /\ pagination d' = pagination dl.
Proof.
  apply (render_falls_back_to_local noEnvironment backendDown
           (searching (lit "crew")) emptyDom).
  - exact alien_wellFormed.
  - intros req. discriminate.
Defined.

(** ** makeKey *)

Lemma unitRange_elem lo len c :
  lo <= c -> c < lo + N.of_nat len -> c ∈ unitRange lo len.
Proof.
  intros H1 H2. unfold unitRange. apply list_elem_of_fmap.
  exists (N.to_nat (c - lo)). split; [lia|].
  apply list_elem_of_In, in_seq. lia.
Qed.

Lemma plainUnit_listed c : plainUnit c = true -> c ∈ plainUnits.
Proof.
  unfold plainUnit, inFragment, isSpace, plainUnits.
  rewrite !andb_true_iff, !orb_true_iff, !andb_true_iff, !negb_true_iff,
    !N.eqb_eq, !N.eqb_neq, !N.leb_le, N.ltb_lt.
  intros [[H Hn1] Hn2]. rewrite !elem_of_app.
  repeat match goal with H : _ \/ _ |- _ => destruct H as [H|H] end;
    try match goal with H : _ /\ _ |- _ => destruct H end;
    first [ left; apply unitRange_elem; simpl; lia
          | right; left; apply unitRange_elem; simpl; lia
          | right; right; left; apply unitRange_elem; simpl; lia
          | congruence
          | subst c; right; right; right;
            repeat first [ apply list_elem_of_here | apply list_elem_of_further ] ].
Qed.

Lemma plainUnit_settles c :
  plainUnit c = true ->
  forallb settledOrMark (decompose (toLowerCaseUnit c)) = true.
Proof.
  intros H. apply plainUnit_listed in H. revert c H.
  apply Forall_forall.
  apply (Forall_forall
           (fun c => forallb settledOrMark (decompose (toLowerCaseUnit c)) = true)).
  intros c Hc%list_elem_of_In. revert c Hc. apply forallb_forall.
  vm_compute. reflexivity.
Qed.

Lemma settled_space : settled 32 = true.
Proof. reflexivity. Qed.

Lemma stripDiacritics_app a b :
  stripDiacritics (a ++ b) = stripDiacritics a ++ stripDiacritics b.
Proof.
  unfold stripDiacritics. induction a as [|c a IH]; simpl; [reflexivity|].
  now rewrite IH, app_assoc.
Qed.

Lemma stripDiacritics_settles l :
  forallb settledOrMark l = true -> forallb settled (stripDiacritics l) = true.
Proof.
  unfold stripDiacritics. induction l as [|c l IH]; simpl; [reflexivity|].
  rewrite andb_true_iff. intros [Hc Hl]. unfold settledOrMark in Hc.
  destruct (isDiacritic c); simpl.
  - now apply IH.
  - simpl in Hc. rewrite Hc. now apply IH.
Qed.

Lemma first_steps_settle s :
  forallb plainUnit s = true ->
  forallb settled (stripDiacritics (normalizeNFKD (toLowerCase s))) = true.
Proof.
  unfold normalizeNFKD, toLowerCase.
  induction s as [|c s IH]; simpl; [reflexivity|].
  rewrite andb_true_iff. intros [Hc Hs].
  rewrite stripDiacritics_app, forallb_app, (IH Hs), andb_true_r.
  now apply stripDiacritics_settles, plainUnit_settles.
Qed.

Lemma settled_fixed c :
  settled c = true ->
  toLowerCaseUnit c = c /\ decompose c = [c] /\ isDiacritic c = false.
Proof.
  unfold settled. rewrite !andb_true_iff, N.eqb_eq, negb_true_iff.
  intros [[H1 H2] H3]. apply bool_decide_eq_true in H2. tauto.
Qed.

Lemma first_steps_fixed u :
  forallb settled u = true ->
  stripDiacritics (normalizeNFKD (toLowerCase u)) = u.
Proof.
  unfold normalizeNFKD, toLowerCase, stripDiacritics.
  induction u as [|c u IH]; [reflexivity|]. cbn [forallb].
  rewrite andb_true_iff. intros [Hc Hu].
  destruct (settled_fixed c Hc) as (H1 & H2 & H3).
  cbn [map flat_map]. rewrite H1, H2. cbn [app replaceClass].
  rewrite H3. cbn [app]. f_equal. now apply IH.
Qed.

(** *** White space *)

Lemma collapseFrom_singleSpaced b t : singleSpaced b (collapseFrom b t) = true.
Proof.
  revert b. induction t as [|c t IH]; intros b; [reflexivity|].
  cbn [collapseFrom]. destruct (isSpace c) eqn:Hc.
  - destruct b; [apply IH|]. cbn [singleSpaced].
    change (isSpace 32) with true. cbn. apply IH.
  - cbn [singleSpaced]. rewrite Hc. apply IH.
Qed.

Lemma singleSpaced_fixed b w :
  singleSpaced b w = true -> collapseFrom b w = w.
Proof.
  revert b. induction w as [|c w IH]; intros b; [reflexivity|].
  cbn [singleSpaced collapseFrom]. destruct (isSpace c).
  - rewrite !andb_true_iff, negb_true_iff, N.eqb_eq.
    intros [[-> ->] H]. f_equal. now apply IH.
  - intros H. f_equal. now apply IH.
Qed.

Lemma singleSpaced_weaken b w :
  singleSpaced b w = true -> singleSpaced false w = true.
Proof.
  destruct w as [|c w]; [reflexivity|]. cbn [singleSpaced].
  destruct (isSpace c); [|easy]. destruct b; [|easy].
  rewrite andb_false_r. discriminate.
Qed.

Lemma singleSpaced_prefix b w v :
  singleSpaced b (w ++ v) = true -> singleSpaced b w = true.
Proof.
  revert b. induction w as [|c w IH]; intros b; [reflexivity|].
  cbn [app singleSpaced]. destruct (isSpace c).
  - rewrite !andb_true_iff. intros [H1 H2]. split; [exact H1|]. now apply IH.
  - apply IH.
Qed.

Lemma trimStart_suffix s : exists p, s = p ++ trimStart s.
Proof.
  induction s as [|c s [p IH]]; [now exists []|]. cbn [trimStart].
  destruct (isSpace c).
  - exists (c :: p). simpl. now rewrite <- IH.
  - now exists [].
Qed.

Lemma trimEnd_prefix s : exists p, s = trimEnd s ++ p.
Proof.
  unfold trimEnd. destruct (trimStart_suffix (rev s)) as [p H].
  exists (rev p). rewrite <- rev_app_distr, <- H. now rewrite rev_involutive.
Qed.

Lemma singleSpaced_trimStart b w :
  singleSpaced b w = true -> singleSpaced false (trimStart w) = true.
Proof.
  revert b. induction w as [|c w IH]; intros b; [reflexivity|].
  cbn [trimStart]. destruct (isSpace c) eqn:Hc.
  - cbn [singleSpaced]. rewrite Hc, !andb_true_iff. intros [_ H]. now apply IH with true.
  - apply singleSpaced_weaken.
Qed.

Lemma singleSpaced_trim w :
  singleSpaced false w = true -> singleSpaced false (trim w) = true.
Proof.
  intros H. unfold trim. apply singleSpaced_trimStart in H.
  destruct (trimEnd_prefix (trimStart w)) as [p Hp].
  rewrite Hp in H. now apply singleSpaced_prefix in H.
Qed.

Lemma trimStart_noLeadingSpace s : noLeadingSpace (trimStart s).
Proof.
  induction s as [|c s IH]; [exact I|]. cbn [trimStart].
  destruct (isSpace c) eqn:Hc; [exact IH | exact Hc].
Qed.

Lemma noLeadingSpace_fixed s : noLeadingSpace s -> trimStart s = s.
Proof. destruct s as [|c s]; [reflexivity|]. simpl. now intros ->. Qed.

Lemma noLeadingSpace_prefix w v : noLeadingSpace (w ++ v) -> noLeadingSpace w.
Proof. destruct w; [intros _; exact I | easy]. Qed.

Lemma trimEnd_noTrailingSpace s : noLeadingSpace (rev (trimEnd s)).
Proof. unfold trimEnd. rewrite rev_involutive. apply trimStart_noLeadingSpace. Qed.

Lemma trim_idempotent s : trim (trim s) = trim s.
Proof.
  unfold trim at 1.
  assert (Hstart : noLeadingSpace (trim s)).
  { unfold trim. destruct (trimEnd_prefix (trimStart s)) as [p Hp].
    apply (noLeadingSpace_prefix _ p). rewrite <- Hp.
    apply trimStart_noLeadingSpace. }
  rewrite (noLeadingSpace_fixed _ Hstart).
  unfold trimEnd at 1. unfold trim.
  rewrite (noLeadingSpace_fixed _ (trimEnd_noTrailingSpace (trimStart s))).
  apply rev_involutive.
Qed.

Lemma forallb_trimStart (P : N -> bool) s :
  forallb P s = true -> forallb P (trimStart s) = true.
Proof.
  intros H. destruct (trimStart_suffix s) as [p Hp].
  rewrite Hp, forallb_app, andb_true_iff in H. tauto.
Qed.

Lemma forallb_trim (P : N -> bool) s :
  forallb P s = true -> forallb P (trim s) = true.
Proof.
  intros H. apply forallb_trimStart in H. unfold trim.
  destruct (trimEnd_prefix (trimStart s)) as [p Hp].
  rewrite Hp, forallb_app, andb_true_iff in H. tauto.
Qed.

Lemma forallb_collapseFrom (P : N -> bool) b s :
  P 32 = true -> forallb P s = true -> forallb P (collapseFrom b s) = true.
Proof.
  intros H32. revert b. induction s as [|c s IH]; intros b; [reflexivity|].
  cbn [forallb collapseFrom]. rewrite andb_true_iff. intros [Hc Hs].
  destruct (isSpace c); [destruct b|]; cbn [forallb];
    rewrite ?H32, ?Hc; simpl; now apply IH.
Qed.

(** On strings of plain units, normalization reaches its fixed point
    after one application. *)
Lemma makeKey_idempotent_plain s :
  forallb plainUnit s = true ->
  makeKey (Some (makeKey (Some s))) = makeKey (Some s).
Proof.
  intros Hs.
  assert (Hkey : forall x, makeKey (Some x) =
            trim (collapseSpaces (stripDiacritics (normalizeNFKD (toLowerCase x))))).
  { intros [|c x]; reflexivity. }
  rewrite !Hkey.
  set (t := stripDiacritics (normalizeNFKD (toLowerCase s))).
  assert (Ht : forallb settled t = true) by now apply first_steps_settle.
  set (u := trim (collapseSpaces t)).
  assert (Hu : forallb settled u = true).
  { apply forallb_trim, forallb_collapseFrom; [exact settled_space | exact Ht]. }
  assert (Hsp : singleSpaced false u = true).
  { apply singleSpaced_trim, collapseFrom_singleSpaced. }
  rewrite (first_steps_fixed u Hu).
  unfold collapseSpaces at 1. rewrite (singleSpaced_fixed _ _ Hsp).
  apply trim_idempotent.
Qed.

(** C6, at the input that breaks it.  The key of the service mark
    sign (U+2120) is the two capital letters SM, because the
    compatibility decomposition runs after the lowercasing; the key of
    that key is sm.  So [makeKey] applied twice differs from [makeKey]
    applied once; the same happens at the trade mark sign (U+2122). *)
Theorem makeKey_twice_differs :
  makeKey (Some [8480]) = lit "SM"
  /\ makeKey (Some (makeKey (Some [8480]))) = lit "sm"
  /\ makeKey (Some (makeKey (Some [8480]))) <> makeKey (Some [8480])
  /\ makeKey (Some (makeKey (Some [8482]))) <> makeKey (Some [8482]).
Proof. repeat split; (reflexivity || (vm_compute; discriminate)). Qed.

(** ** Reciprocal rank fusion *)

Lemma recip_antitone (x y : Q) : (0 < x)%Q -> (x <= y)%Q -> (1 / y <= 1 / x)%Q.
Proof.
  intros Hx Hxy.
  assert (Hy : (0 < y)%Q) by lra.
  apply Qle_shift_div_l; [exact Hx|].
  setoid_replace (1 / y * x)%Q with (x / y)%Q using relation Qeq by (field; lra).
  apply Qle_shift_div_r; [exact Hy|]. lra.
Qed.

Lemma recip_strict (x y : Q) : (0 < x)%Q -> (x < y)%Q -> (1 / y < 1 / x)%Q.
Proof.
  intros Hx Hxy.
  assert (Hy : (0 < y)%Q) by lra.
  apply Qlt_shift_div_l; [exact Hx|].
  setoid_replace (1 / y * x)%Q with (x / y)%Q using relation Qeq by (field; lra).
  apply Qlt_shift_div_r; [exact Hy|]. lra.
Qed.

Lemma recip_pos (x : Q) : (0 < x)%Q -> (0 < 1 / x)%Q.
Proof. intros H. apply Qlt_shift_div_l; [exact H | lra]. Qed.

Lemma rank_as_Q (n m : nat) :
  (n <= m)%nat -> (inject_Z (Z.of_nat n) <= inject_Z (Z.of_nat m))%Q.
Proof. intros H. rewrite <- Zle_Qle. lia. Qed.

Lemma rank_as_Q_strict (n m : nat) :
  (n < m)%nat -> (inject_Z (Z.of_nat n) < inject_Z (Z.of_nat m))%Q.
Proof. intros H. rewrite <- Zlt_Qlt. lia. Qed.

Lemma rankFrom_ge start c l n : Design.rankFrom start c l = Some n -> (start <= n)%nat.
Proof.
  revert start. induction l as [|x l IH]; intros start; simpl; [discriminate|].
  case_bool_decide.
  - intros [= <-]. lia.
  - intros Hr%IH. lia.
Qed.

Lemma rankFrom_elem start c l n : Design.rankFrom start c l = Some n -> c ∈ l.
Proof.
  revert start. induction l as [|x l IH]; intros start; simpl; [discriminate|].
  case_bool_decide.
  - subst x. intros _. left.
  - intros Hr%IH. now right.
Qed.

Lemma rankIn_positive c l n : Design.rankIn c l = Some n -> (1 <= n)%nat.
Proof. apply rankFrom_ge. Qed.

Lemma contribution_nonneg k r :
  (0 <= k)%Q -> (forall n, r = Some n -> (1 <= n)%nat) ->
  (0 <= Design.contribution k r)%Q.
Proof.
  intros Hk Hr. destruct r as [n|]; simpl; [|lra].
  pose proof (rank_as_Q 1 n (Hr n eq_refl)) as Hn.
  change (inject_Z (Z.of_nat 1)) with 1%Q in Hn.
  apply Qlt_le_weak, recip_pos. lra.
Qed.

Lemma contribution_monotone k a b l :
  (0 <= k)%Q ->
  Design.atLeastAsHigh (Design.rankIn a l) (Design.rankIn b l) ->
  (Design.contribution k (Design.rankIn b l) <= Design.contribution k (Design.rankIn a l))%Q.
Proof.
  intros Hk H.
  destruct (Design.rankIn b l) as [y|] eqn:Hb.
  - destruct (Design.rankIn a l) as [x|] eqn:Ha; [|contradiction]. simpl in *.
    pose proof (rank_as_Q 1 x (rankIn_positive _ _ _ Ha)) as Hx.
    change (inject_Z (Z.of_nat 1)) with 1%Q in Hx.
    pose proof (rank_as_Q x y H) as Hxy.
    apply recip_antitone; lra.
  - apply contribution_nonneg; [exact Hk|]. apply rankIn_positive.
Qed.

Lemma top_contribution k : Design.contribution k (Some 1%nat) == (1 / (k + 1))%Q.
Proof. reflexivity. Qed.

Lemma lower_contribution k r :
  (0 <= k)%Q -> (1 < r)%nat ->
  (Design.contribution k (Some r) < 1 / (k + 1))%Q.
Proof.
  intros Hk Hr. simpl.
  pose proof (rank_as_Q_strict 1 r Hr) as H.
  change (inject_Z (Z.of_nat 1)) with 1%Q in H.
  apply recip_strict; lra.
Qed.

(** *** The final ordering *)

Lemma lexLe_total a b : Design.lexLe a b = true \/ Design.lexLe b a = true.
Proof.
  revert b. induction a as [|x a IH]; intros b; [now left|].
  destruct b as [|y b]; [now right|]. simpl.
  destruct (N.ltb_spec x y), (N.ltb_spec y x); try tauto; try lia.
  assert (x = y) by lia. subst y. rewrite N.eqb_refl. apply IH.
Qed.

Lemma lexLe_trans a b c :
  Design.lexLe a b = true -> Design.lexLe b c = true -> Design.lexLe a c = true.
Proof.
  revert b c. induction a as [|x a IH]; intros b c; [reflexivity|].
  destruct b as [|y b]; [discriminate|].
  destruct c as [|z c]; [intros _ H; simpl in H; discriminate H|].
  simpl.
  destruct (N.ltb_spec x y), (N.ltb_spec y z), (N.ltb_spec x z),
    (N.eqb_spec x y), (N.eqb_spec y z), (N.eqb_spec x z);
    try discriminate; try reflexivity; try lia.
  apply IH.
Qed.

Section FinalOrdering.
Variables (k : Q) (kw sem : list Design.movieId).

Lemma rankedBefore_spec a b :
  Design.rankedBefore k kw sem a b = true <->
  (Design.fusedScore k kw sem b < Design.fusedScore k kw sem a)%Q
  \/ (Design.fusedScore k kw sem a == Design.fusedScore k kw sem b
      /\ Design.lexLe a b = true).
Proof.
  unfold Design.rankedBefore.
  destruct (Qeq_bool (Design.fusedScore k kw sem a)
                     (Design.fusedScore k kw sem b)) eqn:E.
  - apply Qeq_bool_iff in E. split; [tauto|].
    intros [H | [_ H]]; [lra | exact H].
  - apply Qeq_bool_neq in E. rewrite Qle_bool_iff. split.
    + intros H. left. apply Qle_lteq in H. destruct H as [H|H]; [exact H|].
      exfalso. apply E. now symmetry.
    + intros [H | [H _]]; [lra | contradiction].
Qed.

Lemma rankedBefore_total a b :
  Design.rankedBefore k kw sem a b = true
  \/ Design.rankedBefore k kw sem b a = true.
Proof.
  rewrite !rankedBefore_spec.
  destruct (Q_dec (Design.fusedScore k kw sem a)
                  (Design.fusedScore k kw sem b)) as [[H|H]|H];
    [tauto | tauto |].
  destruct (lexLe_total a b); [left | right]; right; split;
    try assumption; lra.
Qed.

Lemma rankedBefore_trans a b c :
  Design.rankedBefore k kw sem a b = true ->
  Design.rankedBefore k kw sem b c = true ->
  Design.rankedBefore k kw sem a c = true.
Proof.
  rewrite !rankedBefore_spec.
  intros [H1 | [H1 L1]] [H2 | [H2 L2]].
  - left; lra.
  - left; lra.
  - left; lra.
  - right. split; [lra | now apply lexLe_trans with b].
Qed.

Lemma rankedBefore_strict a b :
  (Design.fusedScore k kw sem b < Design.fusedScore k kw sem a)%Q ->
  Design.rankedBefore k kw sem b a = false.
Proof.
  intros H. apply not_true_is_false. rewrite rankedBefore_spec.
  intros [H' | [H' _]]; lra.
Qed.
End FinalOrdering.

Section InsertionSort.
Context {A : Type} (le : A -> A -> bool).
Hypothesis le_total : forall a b, le a b = true \/ le b a = true.
Hypothesis le_trans :
  forall a b c, le a b = true -> le b c = true -> le a c = true.

Lemma insertBy_elem x y l : y ∈ Design.insertBy le x l <-> y = x \/ y ∈ l.
Proof.
  induction l as [|z l IH]; simpl.
  - rewrite list_elem_of_singleton, elem_of_nil. tauto.
  - destruct (le x z); rewrite !elem_of_cons; [tauto|]. rewrite IH. tauto.
Qed.

Lemma sortBy_elem y l : y ∈ Design.sortBy le l <-> y ∈ l.
Proof.
  induction l as [|z l IH]; simpl; [tauto|].
  rewrite insertBy_elem, elem_of_cons, IH. tauto.
Qed.

Lemma insertBy_sorted x l :
  StronglySorted (fun a b => le a b = true) l ->
  StronglySorted (fun a b => le a b = true) (Design.insertBy le x l).
Proof.
  induction 1 as [|z l Hs IH Hz]; simpl.
  - repeat constructor.
  - destruct (le x z) eqn:E.
    + constructor; [now constructor|]. constructor; [exact E|].
      eapply Forall_impl; [exact Hz|]. intros w Hw. now apply le_trans with z.
    + constructor; [exact IH|]. apply Forall_forall. intros w Hw.
      apply insertBy_elem in Hw. destruct Hw as [-> | Hw].
      * destruct (le_total x z) as [H|H]; [congruence | exact H].
      * revert w Hw. now apply Forall_forall.
Qed.

Lemma sortBy_sorted l :
  StronglySorted (fun a b => le a b = true) (Design.sortBy le l).
Proof.
  induction l as [|z l IH]; simpl; [constructor | now apply insertBy_sorted].
Qed.

Lemma sorted_precedes a b l :
  StronglySorted (fun a b => le a b = true) l ->
  a ∈ l -> b ∈ l -> a <> b -> le b a = false ->
  Design.precedes a b l.
Proof.
  intros Hs Ha Hb Hne Hba. revert Ha Hb.
  induction Hs as [|z l Hs IH Hz]; intros Ha Hb.
  - inversion Ha.
  - apply elem_of_cons in Ha. apply elem_of_cons in Hb.
    destruct Ha as [Ha | Ha], Hb as [Hb | Hb].
    + congruence.
    + subst z. apply list_elem_of_split in Hb. destruct Hb as (l2 & l3 & ->).
      now exists [], l2, l3.
    + subst z. exfalso.
      assert (H : le b a = true).
      { rewrite Forall_forall in Hz. now apply Hz. }
      congruence.
    + destruct (IH Ha Hb) as (l1 & l2 & l3 & ->).
      now exists (z :: l1), l2, l3.
Qed.
End InsertionSort.

Lemma setFrom_elem seen l x : x ∈ setFrom seen l <-> x ∈ l /\ x ∉ seen.
Proof.
  revert seen. induction l as [|y l IH]; intros seen; simpl.
  - rewrite elem_of_nil. tauto.
  - case_bool_decide as Hy.
    + rewrite IH, elem_of_cons. split; [tauto|].
      intros [[-> | Hx] Hn]; [contradiction | tauto].
    + rewrite !elem_of_cons, IH, elem_of_cons. split.
      * intros [-> | [Hx Hn]]; [tauto | tauto].
      * intros [[-> | Hx] Hn]; [tauto|].
        destruct (decide (x = y)) as [-> | Hxy]; [tauto | right; tauto].
Qed.

Lemma fuse_elem kw sem k c : c ∈ Design.fuse kw sem k <-> c ∈ kw \/ c ∈ sem.
Proof.
  unfold Design.fuse. rewrite sortBy_elem, setFrom_elem, elem_of_app, elem_of_nil.
  tauto.
Qed.

Lemma fuse_sorted kw sem k :
  StronglySorted (fun a b => Design.rankedBefore k kw sem a b = true)
    (Design.fuse kw sem k).
Proof.
  apply sortBy_sorted.
  - apply rankedBefore_total.
  - apply rankedBefore_trans.
Qed.

(** C7. Reciprocal rank fusion is monotonic, for every smoothing
    constant that is not negative: a candidate ranked at least as high
    as another in the keyword list and in the semantic list has a
    fused score at least as large; and a movie ranked first in both
    lists scores strictly above any movie that appears in only one
    list, at a worse rank, and stands before it in the fused order. *)
Theorem fusion_monotonic (k : Q) (kw sem : list Design.movieId)
  (a b : Design.movieId) :
  (0 <= k)%Q ->
  (Design.atLeastAsHigh (Design.rankIn a kw) (Design.rankIn b kw) ->
   Design.atLeastAsHigh (Design.rankIn a sem) (Design.rankIn b sem) ->
   (Design.fusedScore k kw sem b <= Design.fusedScore k kw sem a)%Q)
  /\
  (Design.rankIn a kw = Some 1%nat -> Design.rankIn a sem = Some 1%nat ->
   (exists r, (1 < r)%nat /\
      ((Design.rankIn b kw = Some r /\ Design.rankIn b sem = None)
       \/ (Design.rankIn b kw = None /\ Design.rankIn b sem = Some r))) ->
   (Design.fusedScore k kw sem b < Design.fusedScore k kw sem a)%Q
   /\ Design.precedes a b (Design.fuse kw sem k)).
Proof.
  intros Hk. split.
  - intros H1 H2. unfold Design.fusedScore.
    apply Qplus_le_compat; now apply contribution_monotone.
  - intros Ha1 Ha2 (r & Hr & Hb).
    assert (Hlt : (Design.fusedScore k kw sem b < Design.fusedScore k kw sem a)%Q).
    { unfold Design.fusedScore. rewrite Ha1, Ha2.
      pose proof (lower_contribution k r Hk Hr) as Hlow.
      assert (Hpos : (0 < 1 / (k + 1))%Q) by (apply recip_pos; lra).
      rewrite !top_contribution.
      destruct Hb as [[-> ->] | [-> ->]];
        change (Design.contribution k None) with 0%Q; lra. }
    split; [exact Hlt|].
    apply (sorted_precedes (Design.rankedBefore k kw sem)).
    + apply fuse_sorted.
    + apply fuse_elem. left. now apply (rankFrom_elem 1 a kw 1%nat).
    + apply fuse_elem.
      destruct Hb as [[Hb _] | [_ Hb]];
        [left | right]; now apply (rankFrom_elem 1 b _ r).
    + intros ->. destruct Hb as [[Hb _] | [_ Hb]].
      * rewrite Ha1 in Hb. injection Hb as <-. lia.
      * rewrite Ha2 in Hb. injection Hb as <-. lia.
    + now apply rankedBefore_strict.
Qed.

Lemma fusion_monotonic_witness :
  (Design.fusedScore 60 [heat; ronin] [heat] ronin
   <= Design.fusedScore 60 [heat; ronin] [heat] heat)%Q
  /\ (Design.fusedScore 60 [heat; ronin] [heat] ronin
      < Design.fusedScore 60 [heat; ronin] [heat] heat)%Q
  /\ Design.precedes heat ronin (Design.fuse [heat; ronin] [heat] 60).
Proof.
  destruct (fusion_monotonic 60 [heat; ronin] [heat] heat ronin) as [H1 H2].
  - lra.
  - split.
    + apply H1; vm_compute; [lia | exact I].
    + apply H2; [reflexivity | reflexivity |].
      exists 2%nat. split; [lia|]. left. split; reflexivity.
Defined.

(** ** Exclusion *)

Lemma passesFilters_excluded intent m g :
  Design.passesFilters intent m = true ->
  g ∈ Design.excludedGenres intent -> g ∉ Design.genres m.
Proof.
  unfold Design.passesFilters. rewrite !andb_true_iff.
  intros [[[_ H] _] _] Hg. rewrite forallb_forall in H.
  apply list_elem_of_In, H in Hg. apply negb_true_iff in Hg.
  now apply bool_decide_eq_false in Hg.
Qed.

(** C8. Exclusion is correct: whenever the intent parsed from the
    query excludes a genre, no record returned by the orchestrator has
    that genre, provided the re-ranker returns only candidates it was
    given. *)
Theorem excluded_genre_never_returned (B : Design.Backend)
  (catalog : list Design.MovieRecord) (query : jsstring) (limit : Z)
  (g : jsstring) (r : Design.MovieRecord) :
  (forall q l, Design.rerank B q l ⊆ l) ->
  g ∈ Design.excludedGenres (Design.parseIntent B query) ->
  r ∈ Design.search B catalog query limit ->
  g ∉ Design.genres r.
Proof.
  intros Hrerank Hg Hr. unfold Design.search in Hr.
  apply subseteq_take, Hrerank, subseteq_take in Hr.
  apply list_elem_of_filter in Hr. destruct Hr as [Hpass _].
  now apply (passesFilters_excluded _ _ _ Hpass).
Qed.

Lemma excluded_genre_never_returned_witness :
  lit "horror" ∉ Design.genres arrival.
Proof.
  apply (excluded_genre_never_returned sampleBackend [eventHorizon; arrival]
           (lit "sci-fi, no horror") 20 (lit "horror") arrival).
  - intros q l. reflexivity.
  - vm_compute. repeat constructor.
  - vm_compute. repeat constructor.
Defined.

(** Scenario C of the specification on the sample backend: the movie
    tagged both sci-fi and horror is not returned for the query
    [sci-fi, no horror]; the one tagged sci-fi only is. *)
Example scenario_C :
  Design.search sampleBackend [eventHorizon; arrival] (lit "sci-fi, no horror") 20
  = [arrival].
Proof. vm_compute. reflexivity. Qed.

(** ** Worked examples *)

Example escapeHtml_markup :
  escapeHtml (Some (lit "<b>Tom & Jerry's</b>"))
  = lit "&lt;b&gt;Tom &amp; Jerry&#039;s&lt;/b&gt;".
Proof. reflexivity. Qed.

Example escapeHtml_absent : escapeHtml None = [].
Proof. reflexivity. Qed.

(** Accents, capitals and runs of white space (here a tab and a
    no-break space) disappear from a key. *)
Example makeKey_amelie :
  makeKey (Some ([32; 9; 65; 109; 201; 108; 105; 101; 160; 32] ++ lit "POULAIN "))
  = lit "amelie poulain".
Proof. reflexivity. Qed.

Example makeKey_absent : makeKey None = [].
Proof. reflexivity. Qed.

(** A title that ends in the trade mark sign: its key keeps the two
    capitals, and the key of the key does not. *)
Example makeKey_trade_mark :
  makeKey (Some (lit "Blade Runner" ++ [8482])) = lit "blade runnerTM"
  /\ makeKey (Some (lit "blade runnerTM")) = lit "blade runnertm".
Proof. split; reflexivity. Qed.

Example slice_inside : slice [10; 20; 30; 40; 50] 1 3 = [20; 30].
Proof. reflexivity. Qed.

Example slice_past_the_end : slice [10; 20; 30] 2 26 = [30].
Proof. reflexivity. Qed.

Example slice_negative : slice [10; 20; 30] (-2) 3 = [20; 30].
Proof. reflexivity. Qed.

Example pageCountOf_25 : pageCountOf 25 24 = Pages 2.
Proof. reflexivity. Qed.

Example pageCountOf_empty : pageCountOf 0 24 = Pages 1.
Proof. reflexivity. Qed.

Example normalizeBase_host :
  normalizeBase (Some (lit " localhost:8000/ ")) = lit "http://localhost:8000".
Proof. reflexivity. Qed.

Example normalizeBase_blank : normalizeBase (Some (lit "   ")) = [].
Proof. reflexivity. Qed.

Example applyFilters_finds_stowaway :
  applyFilters (searching (lit "stowaway")) [alien; amelie] = Normal [alien].
Proof. reflexivity. Qed.

(** The filter reads through the list properties of a movie: an
    object that lacks them raises a TypeError as soon as a search
    string or a filter is set.  Such objects are not in [state.data]. *)
Example applyFilters_bare_object :
  applyFilters (searching (lit "stowaway")) [alien; bareTitle] = TypeError
  /\ applyFilters browsing [alien; bareTitle] = Normal [alien; bareTitle].
Proof. split; reflexivity. Qed.

Example render_backend_down :
  exists st' d',
    render noEnvironment backendDown (searching (lit "stowaway")) emptyDom
    = Normal (st', d')
    /\ cards d' = [alien]
    /\ apiStatus d'
       = Some (lit "Search failed, falling back to local: 503 Service Unavailable").
Proof. eexists _, _. split; [reflexivity|]. split; reflexivity. Qed.

Example fuse_two_lists :
  Design.fuse [heat; ronin] [ronin] 60 = [ronin; heat].
Proof. vm_compute. reflexivity. Qed.

(* ================================================================== *)
(** * Part III. Further properties of the code                        *)
(* ================================================================== *)

(** ** escapeHtml as a code *)

(** What one code unit becomes in [escapeHtml]. *)
Lemma escapeHtml_unit c s :
  replaceClass htmlSpecial escapeChar (c :: s)
  = escapedUnit c
      ++ replaceClass htmlSpecial escapeChar s.
Proof. reflexivity. Qed.

Lemma escaped_unit_cases c :
  (htmlSpecial c = false /\ escapedUnit c = [c])
  \/ (c = 38 /\ escapedUnit c = [38; 97; 109; 112; 59])
  \/ (c = 60 /\ escapedUnit c = [38; 108; 116; 59])
  \/ (c = 62 /\ escapedUnit c = [38; 103; 116; 59])
  \/ (c = 34 /\ escapedUnit c
               = [38; 113; 117; 111; 116; 59])
  \/ (c = 39 /\ escapedUnit c
               = [38; 35; 48; 51; 57; 59]).
Proof.
  destruct (N.eq_dec c 38) as [->|H38]; [right; left; now split|].
  destruct (N.eq_dec c 60) as [->|H60]; [right; right; left; now split|].
  destruct (N.eq_dec c 62) as [->|H62]; [right; right; right; left; now split|].
  destruct (N.eq_dec c 34) as [->|H34];
    [right; right; right; right; left; now split|].
  destruct (N.eq_dec c 39) as [->|H39];
    [right; right; right; right; right; now split|].
  left. assert (Hc : htmlSpecial c = false).
  { unfold htmlSpecial. rewrite !orb_false_iff, !N.eqb_neq. tauto. }
  unfold escapedUnit. rewrite Hc. now split.
Qed.

Lemma escaped_nonempty s :
  replaceClass htmlSpecial escapeChar s = [] -> s = [].
Proof.
  destruct s as [|c s]; [reflexivity|]. rewrite escapeHtml_unit.
  destruct (escaped_unit_cases c) as [[_ ->]|[[_ ->]|[[_ ->]|[[_ ->]|[[_ ->]|[_ ->]]]]]];
    discriminate.
Qed.

Lemma escaped_injective s1 s2 :
  replaceClass htmlSpecial escapeChar s1 = replaceClass htmlSpecial escapeChar s2 ->
  s1 = s2.
Proof.
  revert s2. induction s1 as [|c1 s1 IH]; intros s2 H.
  - symmetry. apply escaped_nonempty. now rewrite <- H.
  - destruct s2 as [|c2 s2]; [now apply escaped_nonempty in H|].
    rewrite !escapeHtml_unit in H.
    destruct (escaped_unit_cases c1)
      as [[N1 E1]|[[-> E1]|[[-> E1]|[[-> E1]|[[-> E1]|[-> E1]]]]]];
      destruct (escaped_unit_cases c2)
        as [[N2 E2]|[[-> E2]|[[-> E2]|[[-> E2]|[[-> E2]|[-> E2]]]]]];
      rewrite ?E1, ?E2 in H; simpl in H;
      try discriminate H;
      try (injection H as H; f_equal; now apply IH);
      try (injection H as -> H; f_equal; now apply IH);
      try (injection H as -> _; discriminate N1);
      try (injection H as <- _; discriminate N2).
Qed.

(** X1. [escapeHtml] loses nothing: two different strings never have
    the same escaped text. *)
Theorem escapeHtml_injective (s1 s2 : jsstring) :
  escapeHtml (Some s1) = escapeHtml (Some s2) -> s1 = s2.
Proof. apply escaped_injective. Qed.

Lemma escapeHtml_injective_witness :
  lit "Tom & Jerry" = lit "Tom & Jerry".
Proof.
  apply (escapeHtml_injective (lit "Tom & Jerry") (lit "Tom & Jerry")).
  reflexivity.
Defined.

Lemma escaped_length s :
  (length s <= length (replaceClass htmlSpecial escapeChar s))%nat
  /\ (existsb htmlSpecial s = true ->
      (length s < length (replaceClass htmlSpecial escapeChar s))%nat).
Proof.
  induction s as [|c s [IH1 IH2]]; [split; [simpl; lia | discriminate]|].
  rewrite escapeHtml_unit, length_app.
  destruct (escaped_unit_cases c)
    as [[N E]|[[-> E]|[[-> E]|[[-> E]|[[-> E]|[-> E]]]]]];
    rewrite E; cbn [length existsb]; split; try lia.
  rewrite N. simpl. intros H. apply IH2 in H. lia.
Qed.

(** X2. [escapeHtml] never shortens a string, and it returns the
    string unchanged exactly when the string holds none of the five
    characters it escapes; so comparing an escaped title with the
    title itself succeeds only for titles without those characters. *)
Theorem escapeHtml_unchanged_iff (s : jsstring) :
  (length s <= length (escapeHtml (Some s)))%nat
  /\ (escapeHtml (Some s) = s <-> existsb htmlSpecial s = false).
Proof.
  split; [apply escaped_length|]. split.
  - intros H. destruct (existsb htmlSpecial s) eqn:E; [|reflexivity].
    apply (proj2 (escaped_length s)) in E. unfold escapeHtml in H. simpl in H.
    rewrite H in E. lia.
  - unfold escapeHtml. simpl. induction s as [|c s IH]; [reflexivity|].
    cbn [existsb]. rewrite orb_false_iff. intros [Hc Hs].
    rewrite escapeHtml_unit, (IH Hs). unfold escapedUnit. now rewrite Hc.
Qed.

(** ** The shape of a key *)

Lemma makeKey_present x :
  makeKey (Some x)
  = trim (collapseSpaces (stripDiacritics (normalizeNFKD (toLowerCase x)))).
Proof. destruct x; reflexivity. Qed.

Lemma makeKey_unfold title :
  makeKey title
  = trim (collapseSpaces (stripDiacritics (normalizeNFKD
      (toLowerCase (toStr (orElse title (Some []))))))).
Proof. reflexivity. Qed.

Lemma trim_noLeadingSpace s : noLeadingSpace (trim s).
Proof.
  unfold trim. destruct (trimEnd_prefix (trimStart s)) as [p Hp].
  apply (noLeadingSpace_prefix _ p). rewrite <- Hp.
  apply trimStart_noLeadingSpace.
Qed.

Lemma stripDiacritics_clean l :
  forallb (fun c => negb (isDiacritic c)) (stripDiacritics l) = true.
Proof.
  unfold stripDiacritics. induction l as [|c l IH]; [reflexivity|].
  cbn [replaceClass]. destruct (isDiacritic c) eqn:Hc; simpl.
  - exact IH.
  - now rewrite Hc.
Qed.

(** X3. Whatever the title, its key is tidy: it neither starts nor
    ends with white space, white space occurs in it only as single
    U+0020 units between other units, and it holds no combining
    diacritical mark of U+0300 to U+036F. *)
Theorem makeKey_tidy (title : option jsstring) :
  noLeadingSpace (makeKey title)
  /\ noLeadingSpace (rev (makeKey title))
  /\ singleSpaced false (makeKey title) = true
  /\ forallb (fun c => negb (isDiacritic c)) (makeKey title) = true.
Proof.
  rewrite makeKey_unfold. repeat split.
  - apply trim_noLeadingSpace.
  - apply trimEnd_noTrailingSpace.
  - apply singleSpaced_trim, collapseFrom_singleSpaced.
  - apply forallb_trim, forallb_collapseFrom; [reflexivity|].
    apply stripDiacritics_clean.
Qed.

Lemma toLowerCaseUnit_idempotent c :
  toLowerCaseUnit (toLowerCaseUnit c) = toLowerCaseUnit c.
Proof.
  unfold toLowerCaseUnit.
  destruct (N.leb_spec 65 c), (N.leb_spec c 90), (N.leb_spec 192 c),
    (N.leb_spec c 222), (N.eqb_spec c 215); simpl; try reflexivity;
    repeat match goal with
           | |- context [N.leb ?a ?b] => destruct (N.leb_spec a b); simpl
           | |- context [N.eqb ?a ?b] => destruct (N.eqb_spec a b); simpl
           end; try reflexivity; lia.
Qed.

Lemma makeKey_unit_congruence s1 s2 c c' :
  stripDiacritics (decompose (toLowerCaseUnit c))
  = stripDiacritics (decompose (toLowerCaseUnit c')) ->
  makeKey (Some (s1 ++ c :: s2)) = makeKey (Some (s1 ++ c' :: s2)).
Proof.
  intros H. rewrite !makeKey_present. do 2 f_equal.
  unfold normalizeNFKD, toLowerCase.
  rewrite !map_app, !flat_map_app, !stripDiacritics_app. f_equal.
  cbn [map flat_map]. rewrite !stripDiacritics_app. now rewrite H.
Qed.

Lemma latin1_accents_fold :
  forallb (fun c =>
             match latin1Accent (toLowerCaseUnit c) with
             | Some (b, m) =>
                 bool_decide (stripDiacritics (decompose (toLowerCaseUnit c))
                              = stripDiacritics (decompose (toLowerCaseUnit b)))
                 && (97 <=? b) && (b <=? 122)
             | None => true
             end) (unitRange 0 256) = true.
Proof. vm_compute. reflexivity. Qed.

(** X4. Keys ignore letter case and the accents of Latin-1: replacing
    a code unit by its lower-case form does not change the key of a
    title, and neither does replacing an accented Latin-1 letter,
    capital or small, by its unaccented small letter. *)
Theorem makeKey_ignores_case_and_accents (s1 s2 : jsstring) (c : N) :
  makeKey (Some (s1 ++ c :: s2)) = makeKey (Some (s1 ++ toLowerCaseUnit c :: s2))
  /\ (forall b m,
        c < 256 -> latin1Accent (toLowerCaseUnit c) = Some (b, m) ->
        97 <= b <= 122
        /\ makeKey (Some (s1 ++ c :: s2)) = makeKey (Some (s1 ++ b :: s2))).
Proof.
  split.
  - apply makeKey_unit_congruence. now rewrite toLowerCaseUnit_idempotent.
  - intros b m Hc Hacc.
    pose proof latin1_accents_fold as Hall. rewrite forallb_forall in Hall.
    assert (Hin : In c (unitRange 0 256)).
    { apply list_elem_of_In, unitRange_elem; simpl; lia. }
    specialize (Hall c Hin). rewrite Hacc in Hall.
    rewrite !andb_true_iff, N.leb_le, N.leb_le in Hall.
    destruct Hall as [[Heq Hlo] Hhi]. apply bool_decide_eq_true in Heq.
    split; [lia|]. now apply makeKey_unit_congruence.
Qed.

Lemma makeKey_ignores_case_and_accents_witness :
  makeKey (Some (lit "Am" ++ 201 :: lit "lie"))
  = makeKey (Some (lit "Am" ++ 233 :: lit "lie"))
  /\ makeKey (Some (lit "Am" ++ 201 :: lit "lie")) = makeKey (Some (lit "Amelie")).
Proof.
  destruct (makeKey_ignores_case_and_accents (lit "Am") (lit "lie") 201)
    as [H1 H2].
  split; [exact H1|].
  destruct (H2 101 769) as [_ H]; [reflexivity | reflexivity | exact H].
Defined.

(** ** truncate *)

Lemma slice_from_start {A} (l : list A) (stop : Z) :
  exists n, slice l 0 stop = take n l.
Proof.
  unfold slice.
  assert (H : relIndex (Z.of_nat (length l)) 0 = 0%Z).
  { unfold relIndex. simpl. lia. }
  rewrite H. simpl. eexists. reflexivity.
Qed.

Lemma trimEnd_length s : (length (trimEnd s) <= length s)%nat.
Proof.
  destruct (trimEnd_prefix s) as [p Hp]. rewrite Hp at 2.
  rewrite length_app. lia.
Qed.

(** X5. For a limit of at least one, [truncate] returns at most
    [max] code units: the trimmed text itself when it fits, and
    otherwise a prefix of the trimmed text followed by an ellipsis. *)
Theorem truncate_within_limit (str : option jsstring) (max : Z) :
  (1 <= max)%Z ->
  (Z.of_nat (length (truncate str max)) <= max)%Z
  /\ ((Z.of_nat (length (trim (toStr str))) <= max)%Z ->
      truncate str max = trim (toStr str))
  /\ ((max < Z.of_nat (length (trim (toStr str))))%Z ->
      exists p q, trim (toStr str) = p ++ q
                  /\ truncate str max = p ++ [8230]).
Proof.
  intros Hmax.
  assert (Hs : toStr (orElse str (Some [])) = toStr str).
  { destruct str as [[|c s]|]; reflexivity. }
  unfold truncate. rewrite Hs. set (s := trim (toStr str)).
  destruct (Z.leb_spec (Z.of_nat (length s)) max) as [Hfit|Hlong].
  - split; [exact Hfit|]. split; [reflexivity | lia].
  - split; [|split; [lia|]].
    + rewrite length_app. simpl.
      pose proof (trimEnd_length (slice s 0 (max - 1))).
      pose proof (slice_length s 0 (max - 1) ltac:(lia)) as Hl.
      rewrite Z.add_0_l in Hl. lia.
    + intros _. destruct (slice_from_start s (max - 1)) as [n Hn].
      destruct (trimEnd_prefix (slice s 0 (max - 1))) as [r Hr].
      exists (trimEnd (slice s 0 (max - 1))), (r ++ drop n s).
      split; [|reflexivity].
      rewrite app_assoc, <- Hr, Hn. symmetry. apply take_drop.
Qed.

Lemma truncate_within_limit_witness :
  (Z.of_nat (length (truncate (Some (lit "  The Thing  ")) 5)) <= 5)%Z
  /\ ((Z.of_nat (length (trim (lit "  The Thing  "))) <= 5)%Z ->
      truncate (Some (lit "  The Thing  ")) 5 = trim (lit "  The Thing  "))
  /\ ((5 < Z.of_nat (length (trim (lit "  The Thing  "))))%Z ->
      exists p q, trim (lit "  The Thing  ") = p ++ q
                  /\ truncate (Some (lit "  The Thing  ")) 5 = p ++ [8230]).
Proof.
  apply (truncate_within_limit (Some (lit "  The Thing  ")) 5). lia.
Defined.

Example truncate_drops_the_gap :
  truncate (Some (lit "  The Thing  ")) 5 = lit "The" ++ [8230]
  /\ truncate (Some (lit "Alien")) 5 = lit "Alien"
  /\ truncate None 5 = [].
Proof. repeat split. Qed.

(** ** normalizeBase *)

Lemma dropTrailingSlash_cases v :
  dropTrailingSlash v = v \/ v = dropTrailingSlash v ++ [47].
Proof.
  unfold dropTrailingSlash. destruct (rev v) as [|c r] eqn:E; [now left|].
  destruct c as [|p]; [now left|].
  do 6 (try destruct p as [p|p|]); try (now left).
  right. rewrite <- (rev_involutive v), E. reflexivity.
Qed.

Lemma dropTrailingSlash_keeps_prefix (p v rest : jsstring) :
  map asciiLower v = p ++ rest -> rest <> [] ->
  exists rest', map asciiLower (dropTrailingSlash v) = p ++ rest'.
Proof.
  intros Hv Hrest. destruct (dropTrailingSlash_cases v) as [-> | Hsplit].
  - now exists rest.
  - destruct (exists_last Hrest) as (rest' & x & ->).
    rewrite Hsplit, map_app, app_assoc in Hv. simpl in Hv.
    apply app_inj_tail in Hv. destruct Hv as [Hv _]. now exists rest'.
Qed.

(** X6. [normalizeBase] returns the empty string exactly for a blank
    or absent value; every other value becomes an address that begins,
    in any letter case, with [http:] or [https:]. *)
Theorem normalizeBase_scheme (val : option jsstring) :
  (normalizeBase val = [] <-> trim (toStr val) = [])
  /\ (trim (toStr val) <> [] ->
      exists rest,
        map asciiLower (normalizeBase val) = lit "http:" ++ rest
        \/ map asciiLower (normalizeBase val) = lit "https:" ++ rest).
Proof.
  assert (Hscheme : trim (toStr val) <> [] ->
    exists rest,
      map asciiLower (normalizeBase val) = lit "http:" ++ rest
      \/ map asciiLower (normalizeBase val) = lit "https:" ++ rest).
  { unfold normalizeBase. destruct (trim (toStr val)) as [|c v] eqn:Ev;
      [congruence|]. intros _.
    destruct (startsWith (map asciiLower (c :: v)) (lit "http://")) eqn:E1.
    - apply startsWith_spec in E1. destruct E1 as [post E1]. simpl orb. cbv iota.
      destruct (dropTrailingSlash_keeps_prefix (lit "http:") (c :: v)
                  ([47; 47] ++ post)) as [rest' Hr]; [exact E1 | discriminate |].
      exists rest'. now left.
    - destruct (startsWith (map asciiLower (c :: v)) (lit "https://")) eqn:E2.
      + apply startsWith_spec in E2. destruct E2 as [post E2]. simpl orb. cbv iota.
        destruct (dropTrailingSlash_keeps_prefix (lit "https:") (c :: v)
                    ([47; 47] ++ post)) as [rest' Hr];
          [exact E2 | discriminate |].
        exists rest'. now right.
      + simpl orb. cbv iota.
        destruct (startsWith (c :: v) (lit "//")).
        * destruct (dropTrailingSlash_keeps_prefix (lit "http:")
                      (lit "http:" ++ c :: v) (map asciiLower (c :: v)))
            as [rest' Hr]; [now rewrite map_app | discriminate |].
          exists rest'. now left.
        * destruct (dropTrailingSlash_keeps_prefix (lit "http:")
                      (lit "http://" ++ c :: v)
                      ([47; 47] ++ map asciiLower (c :: v)))
            as [rest' Hr]; [now rewrite map_app | discriminate |].
          exists rest'. now left. }
  split; [|exact Hscheme]. split.
  - intros H. destruct (trim (toStr val)) as [|c v] eqn:Ev; [reflexivity|].
    destruct Hscheme as [rest [Hr | Hr]]; [discriminate | |];
      rewrite H in Hr; discriminate Hr.
  - apply normalizeBase_empty.
Qed.

Lemma normalizeBase_scheme_witness :
  exists rest,
    map asciiLower (normalizeBase (Some (lit " localhost:8000/ ")))
    = lit "http:" ++ rest
    \/ map asciiLower (normalizeBase (Some (lit " localhost:8000/ ")))
       = lit "https:" ++ rest.
Proof.
  apply (normalizeBase_scheme (Some (lit " localhost:8000/ "))).
  vm_compute. discriminate.
Defined.

(** The address that is only a scheme loses its last slash. *)
Example normalizeBase_bare_scheme :
  normalizeBase (Some (lit "http://")) = lit "http:/".
Proof. reflexivity. Qed.

(** ** Pagination *)

Lemma pageRange_elem first last p :
  p ∈ pageRange first last <-> (first <= p <= last)%Z.
Proof.
  unfold pageRange. rewrite list_elem_of_fmap. split.
  - intros (i & -> & Hi). apply list_elem_of_In, in_seq in Hi. lia.
  - intros H. exists (Z.to_nat (p - first)). split; [lia|].
    apply list_elem_of_In, in_seq. lia.
Qed.

Lemma pageRange_length first last :
  Z.of_nat (length (pageRange first last)) = Z.max 0 (last - first + 1).
Proof. unfold pageRange. rewrite length_map, length_seq. lia. Qed.

Lemma filter_none {A} (P : A -> Prop) `{forall x, Decision (P x)} (l : list A) :
  (forall x, x ∈ l -> ~ P x) -> filter P l = [].
Proof.
  induction l as [|x l IH]; intros Hl; [reflexivity|].
  rewrite filter_cons_False by (apply Hl, list_elem_of_here).
  apply IH. intros y Hy. apply Hl. now apply list_elem_of_further.
Qed.

Lemma pageRange_split first last p :
  (first <= p <= last)%Z ->
  pageRange first last = pageRange first (p - 1) ++ [p] ++ pageRange (p + 1) last.
Proof.
  intros Hp. unfold pageRange.
  replace (Z.to_nat (last - first + 1))
    with (Z.to_nat (p - 1 - first + 1) + (1 + Z.to_nat (last - (p + 1) + 1)))%nat
    by lia.
  rewrite seq_app, map_app. f_equal.
  rewrite seq_app, map_app. simpl. f_equal; [f_equal; lia|].
  replace (seq (Z.to_nat (p - 1 - first + 1) + 1) (Z.to_nat (last - (p + 1) + 1)))
    with (map (Nat.add (Z.to_nat (p - 1 - first + 1) + 1))
            (seq 0 (Z.to_nat (last - (p + 1) + 1))))
    by (rewrite (fmap_add_seq _ 0); f_equal; lia).
  rewrite map_map. apply map_ext. intros i. lia.
Qed.

Lemma active_button_unique first last pg :
  (first <= pg <= last)%Z ->
  filter (fun b => btn_active b = true)
    (map (fun p => {| btn_label := PageLabel p; btn_page := p;
                      btn_disabled := false;
                      btn_active := (p =? pg)%Z |})
       (pageRange first last))
  = [{| btn_label := PageLabel pg; btn_page := pg;
        btn_disabled := false; btn_active := true |}].
Proof.
  intros Hp.
  assert (Hoff : forall lo hi, (hi < pg \/ pg < lo)%Z ->
            filter (fun b => btn_active b = true)
              (map (fun p => {| btn_label := PageLabel p; btn_page := p;
                                btn_disabled := false;
                                btn_active := (p =? pg)%Z |})
                 (pageRange lo hi)) = []).
  { intros lo hi Hlh. apply filter_none. intros b Hb.
    apply list_elem_of_fmap in Hb as (p & -> & Hin).
    apply pageRange_elem in Hin. simpl. intros Hact.
    apply Z.eqb_eq in Hact. lia. }
  rewrite (pageRange_split first last pg Hp), !map_app, !filter_app.
  rewrite !Hoff by lia. simpl map.
  rewrite (filter_cons_True _ _ []) by (simpl; apply Z.eqb_refl).
  rewrite filter_nil, Z.eqb_refl. reflexivity.
Qed.

(** X7. On a valid page ([1 <= page <= pages]) the pagination bar
    offers valid pages only: every button, Prev and Next included,
    leads to a page between 1 and [pages]; it shows [min 7 pages]
    numbered buttons, consecutive ones, and the current page is one of
    them: its button is active, and it is the only active button of the
    bar. *)
Theorem renderPagination_valid (st : state) (pages : Z) :
  (1 <= page st <= pages)%Z ->
  Forall (fun b => (1 <= btn_page b <= pages)%Z) (renderPagination st pages)
  /\ Z.of_nat (length (numberedPages (page st) pages)) = Z.min 7 pages
  /\ (exists first, numberedPages (page st) pages
                    = pageRange first (first + Z.min 7 pages - 1))
  /\ page st ∈ numberedPages (page st) pages
  /\ (forall b, b ∈ renderPagination st pages ->
                btn_active b = true -> btn_label b = PageLabel (page st))
  /\ filter (fun b => btn_active b = true) (renderPagination st pages)
     = [{| btn_label := PageLabel (page st); btn_page := page st;
           btn_disabled := false; btn_active := true |}].
Proof.
  intros Hp.
  assert (Hdiv : (7 / 2 = 3)%Z) by reflexivity.
  split; [|split; [|split; [|split; [|split]]]]; cycle 5.
  { unfold renderPagination. rewrite !filter_app.
    rewrite (filter_cons_False _ _ []) by (simpl; discriminate).
    rewrite (filter_cons_False _ _ []) by (simpl; discriminate).
    rewrite !filter_nil, app_nil_l, app_nil_r.
    unfold numberedPages. rewrite Hdiv.
    apply active_button_unique. lia. }
  - unfold renderPagination. rewrite !Forall_app. repeat split.
    + repeat constructor; simpl; lia.
    + apply Forall_fmap, Forall_forall. intros p Hin. simpl.
      unfold numberedPages in Hin. rewrite Hdiv in Hin.
      apply pageRange_elem in Hin. lia.
    + repeat constructor; simpl; lia.
  - unfold numberedPages. rewrite Hdiv, pageRange_length. lia.
  - unfold numberedPages. rewrite Hdiv. eexists. f_equal. lia.
  - unfold numberedPages. rewrite Hdiv. apply pageRange_elem. lia.
  - unfold renderPagination. intros b Hb Hact.
    rewrite !elem_of_app, !list_elem_of_singleton, list_elem_of_fmap in Hb.
    destruct Hb as [-> | [(p & -> & _) | ->]]; simpl in *; try discriminate.
    apply Z.eqb_eq in Hact. now subst p.
Qed.

Lemma renderPagination_valid_witness :
  Forall (fun b => (1 <= btn_page b <= 5)%Z) (renderPagination browsing 5)
  /\ Z.of_nat (length (numberedPages 1 5)) = Z.min 7 5
  /\ (exists first, numberedPages 1 5 = pageRange first (first + Z.min 7 5 - 1))
  /\ 1%Z ∈ numberedPages 1 5
  /\ (forall b, b ∈ renderPagination browsing 5 ->
                btn_active b = true -> btn_label b = PageLabel 1)
  /\ filter (fun b => btn_active b = true) (renderPagination browsing 5)
     = [{| btn_label := PageLabel 1; btn_page := 1;
           btn_disabled := false; btn_active := true |}].
Proof.
  apply (renderPagination_valid browsing 5). simpl. lia.
Defined.

Example numberedPages_near_the_end :
  numberedPages 9 10 = [4; 5; 6; 7; 8; 9; 10]%Z.
Proof. reflexivity. Qed.

Lemma ceil_pages_cover (total : nat) (size : Z) :
  (0 < size)%Z ->
  exists n, pageCountOf total size = Pages n
            /\ (1 <= n)%Z /\ (Z.of_nat total <= n * size)%Z
            /\ (Z.of_nat total = 0 -> n = 1)%Z
            /\ (0 < Z.of_nat total -> (n - 1) * size < Z.of_nat total)%Z.
Proof.
  intros Hs. unfold pageCountOf.
  destruct (Z.ltb_spec 0 size) as [_|]; [|lia].
  eexists. split; [reflexivity|].
  set (q := ((Z.of_nat total + size - 1) / size)%Z).
  pose proof (Z.mul_succ_div_gt (Z.of_nat total + size - 1) size Hs) as Hgt.
  pose proof (Z.mul_div_le (Z.of_nat total + size - 1) size Hs) as Hle.
  fold q in Hgt, Hle.
  assert (Hq0 : (0 <= q)%Z) by (apply Z.div_pos; lia).
  repeat split; try lia; try nia.
Qed.

(** X8. A local render leaves the page within range: with a positive
    page size and a page number of at least one, [renderLocal] ends on
    a page between 1 and the number of pages it computed, the same
    page if it was in range and the last page otherwise; and that
    number of pages is the least that holds all the results. *)
Theorem renderLocal_page_in_range (st : state) (d : dom) :
  Forall wellFormed (data st) ->
  (0 < pageSize st)%Z ->
  (1 <= page st)%Z ->
  exists st' d' out n,
    renderLocal st d = Normal (st', d')
    /\ applyFilters st (data st) = Normal out
    /\ pagination d' = Some (Pages n)
    /\ (1 <= page st' <= n)%Z
    /\ page st' = Z.min (page st) n
    /\ (Z.of_nat (length out) <= n * pageSize st)%Z
    /\ (1 < n -> (n - 1) * pageSize st < Z.of_nat (length out))%Z.
Proof.
  intros Hwf Hps Hpg.
  pose proof (applyFilters_wellFormed st (data st) Hwf) as Hout.
  set (out := filter _ (data st)) in Hout.
  destruct (ceil_pages_cover (length out) (pageSize st) Hps)
    as (n & Hn & Hn1 & Hcover & Hzero & Hleast).
  unfold renderLocal. rewrite Hout. simpl. rewrite Hn.
  eexists _, _, out, n. split; [reflexivity|]. simpl.
  split; [reflexivity|]. split; [reflexivity|].
  destruct (Z.ltb_spec n (page st)); repeat split; try lia.
Qed.

Lemma renderLocal_page_in_range_witness :
  exists st' d' out n,
    renderLocal browsing emptyDom = Normal (st', d')
    /\ applyFilters browsing (data browsing) = Normal out
    /\ pagination d' = Some (Pages n)
    /\ (1 <= page st' <= n)%Z
    /\ page st' = Z.min (page browsing) n
    /\ (Z.of_nat (length out) <= n * pageSize browsing)%Z
    /\ (1 < n -> (n - 1) * pageSize browsing < Z.of_nat (length out))%Z.
Proof.
  apply (renderLocal_page_in_range browsing emptyDom).
  - exact alien_wellFormed.
  - simpl. lia.
  - simpl. lia.
Defined.

Lemma slice_forward {A} (l : list A) (a n : Z) :
  (0 <= a)%Z -> (0 <= n)%Z ->
  slice l a (a + n) = take (Z.to_nat n) (drop (Z.to_nat a) l).
Proof.
  intros Ha Hn. unfold slice, relIndex.
  destruct (Z.ltb_spec a 0); [lia|]. destruct (Z.ltb_spec (a + n) 0); [lia|].
  destruct (Z_le_gt_dec a (Z.of_nat (length l))) as [Hin|Hout].
  - rewrite (Z.min_l a) by lia.
    destruct (Z_le_gt_dec (a + n) (Z.of_nat (length l))).
    + rewrite Z.min_l by lia. f_equal. lia.
    + rewrite Z.min_r by lia.
      rewrite (take_ge _ (Z.to_nat n)) by (rewrite length_drop; lia).
      apply take_ge. rewrite length_drop. lia.
  - rewrite !Z.min_r by lia. rewrite Z.sub_diag. simpl.
    rewrite (drop_ge l (Z.to_nat a)) by lia. now destruct (Z.to_nat n).
Qed.

Lemma chunks_rebuild {A} (k m : nat) (l : list A) :
  (length l <= m * k)%nat ->
  concat (map (fun i => take k (drop (i * k) l)) (seq 0 m)) = l.
Proof.
  revert l. induction m as [|m IH]; intros l Hl.
  - destruct l; [reflexivity | simpl in Hl; lia].
  - rewrite <- cons_seq, <- fmap_S_seq. cbn [map concat].
    change (0 * k)%nat with 0%nat. rewrite drop_0.
    transitivity (take k l ++ drop k l); [|apply take_drop]. f_equal.
    etransitivity; [|apply (IH (drop k l)); rewrite length_drop; lia].
    f_equal. rewrite <- list_fmap_compose. apply list_fmap_ext.
    intros _ i _. simpl. rewrite drop_drop. reflexivity.
Qed.

Lemma cardsOnPage_slice st out n p :
  (0 < pageSize st)%Z ->
  applyFilters st (data st) = Normal out ->
  pageCountOf (length out) (pageSize st) = Pages n ->
  (1 <= p <= n)%Z ->
  cardsOnPage st p
  = take (Z.to_nat (pageSize st))
      (drop (Z.to_nat (p - 1) * Z.to_nat (pageSize st)) out).
Proof.
  intros Hps Hout Hn Hp. unfold cardsOnPage, renderLocal.
  change (applyFilters (setPage st p) (data (setPage st p)))
    with (applyFilters st (data st)).
  rewrite Hout. simpl. rewrite Hn. simpl.
  destruct (Z.ltb_spec n p); [lia|]. simpl.
  rewrite slice_forward by nia. do 2 f_equal. nia.
Qed.

(** X9. Paging loses and repeats nothing: with a positive page size,
    the cards of pages 1, 2, ... up to the number of pages, put one
    after the other, are exactly the filtered results in their order. *)
Theorem pages_cover_results (st : state) (out : list movie) :
  (0 < pageSize st)%Z ->
  applyFilters st (data st) = Normal out ->
  exists n,
    pageCountOf (length out) (pageSize st) = Pages n
    /\ concat (map (cardsOnPage st) (pageRange 1 n)) = out.
Proof.
  intros Hps Hout.
  destruct (ceil_pages_cover (length out) (pageSize st) Hps)
    as (n & Hn & Hn1 & Hcover & _).
  exists n. split; [exact Hn|].
  etransitivity;
    [|apply (chunks_rebuild (Z.to_nat (pageSize st)) (Z.to_nat n) out); nia].
  unfold pageRange. rewrite <- list_fmap_compose.
  replace (Z.to_nat (n - 1 + 1)) with (Z.to_nat n) by lia.
  f_equal. apply list_fmap_ext. intros idx i Hi. simpl.
  apply lookup_seq in Hi. destruct Hi as [-> Hi]. simpl.
  rewrite (cardsOnPage_slice st out n) by (try assumption; lia).
  do 2 f_equal. lia.
Qed.

Lemma pages_cover_results_witness :
  exists n,
    pageCountOf (length [alien; amelie]) (pageSize browsing) = Pages n
    /\ concat (map (cardsOnPage browsing) (pageRange 1 n)) = [alien; amelie].
Proof.
  apply (pages_cover_results browsing [alien; amelie]).
  - simpl. lia.
  - reflexivity.
Defined.

(** ** What the loader stores *)

Lemma keepTruthy_elem l x : x ∈ keepTruthy l <-> Some x ∈ l /\ x <> [].
Proof.
  unfold keepTruthy. rewrite list_elem_of_omap. split.
  - intros ([[|c y]|] & Hin & Hy); try discriminate.
    injection Hy as <-. split; [exact Hin | discriminate].
  - intros [Hin Hx]. exists (Some x). split; [exact Hin|].
    destruct x; [contradiction | reflexivity].
Qed.

Lemma keepTruthy_length l : (length (keepTruthy l) <= length l)%nat.
Proof.
  unfold keepTruthy. induction l as [|o l IH]; [simpl; lia|].
  destruct o as [[|c y]|]; cbn [omap list_omap length]; lia.
Qed.

Lemma keepNamed_elem l x :
  x ∈ keepNamed l <-> Some x ∈ l /\ x <> [] /\ x <> lit "none".
Proof. unfold keepNamed. rewrite list_elem_of_filter, keepTruthy_elem. tauto. Qed.

Lemma keepNamed_length l : (length (keepNamed l) <= length l)%nat.
Proof.
  unfold keepNamed. etransitivity; [apply length_filter | apply keepTruthy_length].
Qed.

Lemma toArray_nonempty v : Forall (fun x => x <> []) (toArray v).
Proof.
  apply Forall_forall. intros x Hx. destruct v as [|[|c s]|l]; simpl in Hx.
  - inversion Hx.
  - inversion Hx.
  - apply list_elem_of_singleton in Hx. now subst x.
  - now apply keepTruthy_elem in Hx.
Qed.

Lemma splitOn_free sep s : Forall (fun w => sep ∉ w) (splitOn sep s).
Proof.
  induction s as [|c s IH]; simpl.
  - repeat constructor. inversion 1.
  - destruct (N.eqb_spec c sep) as [->|Hc].
    + constructor; [inversion 1 | exact IH].
    + destruct (splitOn sep s) as [|w ws].
      * repeat constructor. rewrite list_elem_of_singleton. congruence.
      * inversion IH as [|? ? Hw Hws]; subst.
        constructor; [|exact Hws].
        rewrite elem_of_cons. intros [<- | H]; [congruence | exact (Hw H)].
Qed.

Lemma toUpperCaseUnit_free c : c <> 95 -> 95 ∉ toUpperCaseUnit c.
Proof.
  intros Hc. unfold toUpperCaseUnit.
  destruct ((97 <=? c) && (c <=? 122)) eqn:E1.
  { apply andb_true_iff in E1. rewrite !N.leb_le in E1.
    rewrite list_elem_of_singleton. lia. }
  destruct ((224 <=? c) && (c <=? 254) && negb (c =? 247)) eqn:E2.
  { rewrite !andb_true_iff, !N.leb_le in E2.
    rewrite list_elem_of_singleton. lia. }
  destruct (c =? 223); [rewrite !elem_of_cons, elem_of_nil; intuition discriminate|].
  destruct (c =? 255); [rewrite list_elem_of_singleton; discriminate|].
  destruct (c =? 181); [rewrite list_elem_of_singleton; discriminate|].
  rewrite list_elem_of_singleton. congruence.
Qed.

Lemma capitalize_free w : 95 ∉ w -> 95 ∉ capitalize w.
Proof.
  destruct w as [|c w]; [easy|]. simpl. rewrite elem_of_cons, elem_of_app.
  intros H [Hc | Hw]; [|tauto].
  apply (toUpperCaseUnit_free c); [intros ->; tauto | exact Hc].
Qed.

Lemma join_free (u : N) sep l :
  u ∉ sep -> Forall (fun w => u ∉ toStr w) l -> u ∉ join sep l.
Proof.
  intros Hsep. induction 1 as [|w l Hw Hl IH]; [inversion 1|].
  cbn [join]. destruct l as [|w' l']; [exact Hw|].
  rewrite !elem_of_app. tauto.
Qed.

Lemma formatTheme_present (t : jsstring) :
  t <> [] ->
  formatTheme (Some t)
  = if bool_decide (t = lit "none") then None
    else Some (join (lit " ") (map (fun w => Some (capitalize w)) (splitOn 95 t))).
Proof. destruct t; [contradiction | reflexivity]. Qed.

Lemma formatTheme_free theme x : formatTheme theme = Some x -> 95 ∉ x.
Proof.
  destruct theme as [t|]; [|discriminate].
  destruct (decide (t = [])) as [->|Hne]; [discriminate|].
  rewrite (formatTheme_present t Hne).
  case_bool_decide; [discriminate|]. intros [= <-].
  apply join_free.
  - change (95 ∉ [32]). rewrite list_elem_of_singleton. discriminate.
  - apply Forall_fmap. eapply Forall_impl; [apply splitOn_free|].
    intros w Hw. simpl. now apply capitalize_free.
Qed.

Lemma validTones_free :
  forallb (fun t => negb (existsb (N.eqb 95) t)) validTones = true.
Proof. vm_compute. reflexivity. Qed.

Lemma toLowerCase_keeps_underscore t : 95 ∈ t -> 95 ∈ toLowerCase t.
Proof.
  intros H. unfold toLowerCase. apply list_elem_of_fmap. now exists 95.
Qed.

Lemma formatEmotionalTone_present (t : jsstring) :
  t <> [] ->
  formatEmotionalTone (Some t)
  = if bool_decide (t = lit "none") then None
    else if bool_decide (toLowerCase t ∈ validTones) then Some (capitalize t)
    else if includes t [95] then None
    else Some (capitalize t).
Proof. destruct t; [contradiction | reflexivity]. Qed.

Lemma formatEmotionalTone_free tone x :
  formatEmotionalTone tone = Some x -> 95 ∉ x.
Proof.
  destruct tone as [t|]; [|discriminate].
  destruct (decide (t = [])) as [->|Hne]; [discriminate|].
  rewrite (formatEmotionalTone_present t Hne).
  case_bool_decide as Hnone; [discriminate|].
  case_bool_decide as Hvalid.
  - intros [= <-]. apply capitalize_free. intros Hu.
    apply toLowerCase_keeps_underscore in Hu.
    pose proof validTones_free as Hall. rewrite forallb_forall in Hall.
    apply list_elem_of_In, Hall, negb_true_iff in Hvalid.
    assert (Hex : existsb (N.eqb 95) (toLowerCase t) = true).
    { apply existsb_exists. exists 95. split;
        [now apply list_elem_of_In | reflexivity]. }
    congruence.
  - destruct (includes t [95]) eqn:Hinc; [discriminate|].
    intros [= <-]. apply capitalize_free. intros Hu.
    apply list_elem_of_split in Hu. destruct Hu as (l1 & l2 & Hu).
    assert (Hsub : includes t [95] = true).
    { apply includes_spec. now exists l1, l2. }
    congruence.
Qed.

(** X10. What [normalizeMovie] returns, whatever the profile: a title
    that is not empty; at most two emotional tones and at most two
    themes, each of them a proper label (not empty, not [none], free of
    underscores); and similar films, cultural context and discussion
    topics without empty entries. *)
Theorem normalizeMovie_invariants (obj : rawMovie) :
  (exists t, title (normalizeMovie obj) = Some t /\ t <> [])
  /\ (exists tones, emotional_tone (normalizeMovie obj) = Some tones
                    /\ (length tones <= 2)%nat /\ Forall properLabel tones)
  /\ (exists thms, themes (normalizeMovie obj) = Some thms
                   /\ (length thms <= 2)%nat /\ Forall properLabel thms)
  /\ (exists l, similar_films (normalizeMovie obj) = Some l
                /\ Forall (fun x => x <> []) l)
  /\ (exists l, cultural_context (normalizeMovie obj) = Some l
                /\ Forall (fun x => x <> []) l)
  /\ (exists l, discussion_topics (normalizeMovie obj) = Some l
                /\ Forall (fun x => x <> []) l).
Proof.
  split; [|split; [|split; [|split; [|split]]]].
  - eexists. split; [reflexivity|].
    destruct (raw_title obj) as [[|c t]|], (raw_Title obj) as [[|c' t']|];
      simpl; discriminate.
  - eexists. split; [reflexivity|]. split; [apply keepNamed_length|].
    apply Forall_forall. intros x Hx. apply keepNamed_elem in Hx.
    destruct Hx as (Hin & Hne & Hnone). repeat split; try assumption.
    rewrite !elem_of_cons, elem_of_nil in Hin.
    destruct Hin as [Hin | [Hin | []]]; symmetry in Hin;
      now apply formatEmotionalTone_free in Hin.
  - eexists. split; [reflexivity|]. split; [apply keepNamed_length|].
    apply Forall_forall. intros x Hx. apply keepNamed_elem in Hx.
    destruct Hx as (Hin & Hne & Hnone). repeat split; try assumption.
    rewrite !elem_of_cons, elem_of_nil in Hin.
    destruct Hin as [Hin | [Hin | []]]; symmetry in Hin;
      now apply formatTheme_free in Hin.
  - eexists. split; [reflexivity | apply toArray_nonempty].
  - eexists. split; [reflexivity | apply toArray_nonempty].
  - eexists. split; [reflexivity | apply toArray_nonempty].
Qed.

Lemma setFrom_NoDup seen l : NoDup (setFrom seen l).
Proof.
  revert seen. induction l as [|x l IH]; intros seen; simpl; [constructor|].
  case_bool_decide; [apply IH|]. constructor; [|apply IH].
  rewrite setFrom_elem, elem_of_cons. tauto.
Qed.

Lemma union_merges la lb : mergesLists (union la lb) la lb.
Proof.
  unfold mergesLists, union. split; [apply setFrom_NoDup|].
  intros x. rewrite setFrom_elem, list_elem_of_filter, elem_of_app, elem_of_nil.
  tauto.
Qed.

(** X11. Merging two profiles loses no label and repeats none: each
    list of the merged movie (tones, themes, similar films, cultural
    context, discussion topics) has no duplicate and holds exactly the
    non-empty entries of the two lists it merges. *)
Theorem mergeMovies_lists (a b : movie) :
  (exists l, emotional_tone (mergeMovies a b) = Some l
             /\ mergesLists l (emotional_tone a) (emotional_tone b))
  /\ (exists l, themes (mergeMovies a b) = Some l
                /\ mergesLists l (themes a) (themes b))
  /\ (exists l, similar_films (mergeMovies a b) = Some l
                /\ mergesLists l (similar_films a) (similar_films b))
  /\ (exists l, cultural_context (mergeMovies a b) = Some l
                /\ mergesLists l (cultural_context a) (cultural_context b))
  /\ (exists l, discussion_topics (mergeMovies a b) = Some l
                /\ mergesLists l (discussion_topics a) (discussion_topics b)).
Proof.
  repeat apply conj; eexists; (split; [reflexivity | apply union_merges]).
Qed.

(** X12. For a string field, merging keeps the longer of the two
    trimmed values and the first one when they are equally long; the
    special cases for empty values in [pref] agree with this rule. *)
Theorem pref_keeps_longer (x y : option jsstring) :
  ((length (trim (toStr y)) <= length (trim (toStr x)))%nat ->
   pref x y = trim (toStr x))
  /\ ((length (trim (toStr x)) < length (trim (toStr y)))%nat ->
      pref x y = trim (toStr y)).
Proof.
  unfold pref.
  destruct (trim (toStr x)) as [|c sx] eqn:Ex,
           (trim (toStr y)) as [|c' sy] eqn:Ey; simpl;
    split; intros H; try reflexivity; try lia.
  - destruct (Nat.ltb_spec (S (length sx)) (S (length sy))); [lia | reflexivity].
  - destruct (Nat.ltb_spec (S (length sx)) (S (length sy))); [reflexivity | lia].
Qed.

Lemma pref_keeps_longer_witness :
  pref (Some (lit " Heat ")) (Some (lit "Heat (1995)")) = lit "Heat (1995)".
Proof.
  destruct (pref_keeps_longer (Some (lit " Heat ")) (Some (lit "Heat (1995)")))
    as [_ H].
  apply H. vm_compute. lia.
Defined.

(** ** Results of the search API on the page *)

Lemma last_filter_Some {A} (P : A -> Prop) `{!forall x, Decision (P x)}
  (l : list A) (x : A) :
  last (filter P l) = Some x ->
  P x /\ exists l1 l2, l = l1 ++ x :: l2 /\ Forall (fun y => ~ P y) l2.
Proof.
  induction l as [|y l IH] using rev_ind; [discriminate|].
  rewrite filter_app, filter_cons, filter_nil.
  destruct (decide (P y)) as [Hy|Hy].
  - rewrite last_snoc. intros [= ->]. split; [exact Hy|].
    exists l, []. split; [reflexivity | constructor].
  - rewrite app_nil_r. intros Hl. destruct (IH Hl) as (Hx & l1 & l2 & -> & Hl2).
    split; [exact Hx|]. exists l1, (l2 ++ [y]).
    split; [now rewrite <- app_assoc|].
    apply Forall_app. split; [exact Hl2 | now repeat constructor].
Qed.

Lemma last_filter_None {A} (P : A -> Prop) `{!forall x, Decision (P x)}
  (l : list A) :
  last (filter P l) = None <-> Forall (fun y => ~ P y) l.
Proof.
  rewrite last_None. split.
  - intros Hl. apply Forall_forall. intros y Hy Hp.
    assert (Hin : y ∈ filter P l) by (apply list_elem_of_filter; tauto).
    rewrite Hl in Hin. inversion Hin.
  - intros Hl. induction Hl as [|y l Hy _ IH]; [reflexivity|].
    rewrite filter_cons. now destruct (decide (P y)).
Qed.

Lemma last_filter_later {A} (P : A -> Prop) `{!forall x, Decision (P x)}
  (l1 l2 : list A) (x : A) :
  P x -> Forall (fun y => ~ P y) l2 ->
  last (filter P (l1 ++ x :: l2)) = Some x.
Proof.
  intros Hx Hl2. rewrite filter_app, filter_cons.
  destruct (decide (P x)); [|contradiction].
  apply (proj2 (last_filter_None P l2)) in Hl2.
  apply last_None in Hl2. rewrite Hl2. apply last_snoc.
Qed.

(** X13. The lookup of a local movie by key finds a movie of the
    catalog with that very key, and the last one when several share it
    (in a [Map] a later entry replaces an earlier one); it finds
    nothing exactly when no movie has the key. *)
Theorem byKeyGet_finds_last (ms : list movie) (k : jsstring) :
  (forall m, byKeyGet ms k = Some m ->
     makeKey (title m) = k
     /\ exists l1 l2, ms = l1 ++ m :: l2
                      /\ Forall (fun m' => makeKey (title m') <> k) l2)
  /\ (byKeyGet ms k = None <-> Forall (fun m' => makeKey (title m') <> k) ms)
  /\ (forall l1 m l2,
        ms = l1 ++ m :: l2 -> makeKey (title m) = k ->
        Forall (fun m' => makeKey (title m') <> k) l2 ->
        byKeyGet ms k = Some m).
Proof.
  unfold byKeyGet. split; [|split].
  - intros m Hm.
    apply (last_filter_Some (fun m' => makeKey (title m') = k)) in Hm.
    exact Hm.
  - apply (last_filter_None (fun m' => makeKey (title m') = k)).
  - intros l1 m l2 -> Hm Hl2.
    now apply (last_filter_later (fun m' => makeKey (title m') = k)).
Qed.

Lemma resultMovie_why st r :
  _why (resultMovie st r)
  = if hasDescription (localMovie st r) then _why (localMovie st r)
    else Some (explanation r).
Proof.
  unfold resultMovie, hasDescription, explanation, localMovie. simpl.
  destruct (truthy _ || truthy _); [reflexivity|].
  unfold isTruthy.
  destruct (res_why_pretty r) as [[|c s]|]; simpl; try reflexivity;
    destruct (res_why r) as [[|c' s']|]; reflexivity.
Qed.

(** X14. A card built from an API result shows the backend's
    explanation only when the local movie has no description: with a
    card description or a profile text that is not blank, the preview
    is the preview of the local movie; otherwise it is the trimmed
    explanation (the prettified one, else the plain one, else the one
    composed from badges, snippet and ranks). *)
Theorem resultMovie_preview (st : state) (r : apiResult) :
  (hasDescription (localMovie st r) = true ->
   previewSrc (resultMovie st r) = previewSrc (localMovie st r)
   /\ previewSrc (resultMovie st r) <> [])
  /\ (hasDescription (localMovie st r) = false ->
      previewSrc (resultMovie st r) = trim (explanation r)).
Proof.
  pose proof (resultMovie_why st r) as Hwhy.
  unfold previewSrc.
  change (card_description (resultMovie st r))
    with (card_description (localMovie st r)).
  change (profile_text (resultMovie st r))
    with (profile_text (localMovie st r)).
  unfold hasDescription in *.
  destruct (truthy (trim (toStr (card_description (localMovie st r))))) eqn:E1.
  - split; [|discriminate]. intros _. split; [reflexivity|].
    destruct (trim (toStr (card_description (localMovie st r))));
      [discriminate E1 | discriminate].
  - destruct (truthy (trim (toStr (profile_text (localMovie st r))))) eqn:E2;
      simpl in *.
    + split; [|discriminate]. intros _. split; [reflexivity|].
      destruct (trim (toStr (profile_text (localMovie st r))));
        [discriminate E2 | discriminate].
    + split; [discriminate|]. intros _. rewrite Hwhy. simpl.
      now destruct (trim (explanation r)).
Qed.

Lemma resultMovie_preview_witness :
  previewSrc (resultMovie browsing
                {| res_title := Some (lit "alien"); res_badges := None;
                   res_why_pretty := Some (lit "space horror");
                   res_why := None; res_snippet := None;
                   res_kw_rank := None; res_vec_rank := None |})
  = lit "A crew meets a stowaway.".
Proof.
  destruct (resultMovie_preview browsing
              {| res_title := Some (lit "alien"); res_badges := None;
                 res_why_pretty := Some (lit "space horror");
                 res_why := None; res_snippet := None;
                 res_kw_rank := None; res_vec_rank := None |}) as [H _].
  destruct H as [H _]; [reflexivity|]. exact H.
Defined.

Lemma setFrom_app seen a b seen2 :
  (forall y, y ∈ seen2 <-> y ∈ a \/ y ∈ seen) ->
  setFrom seen (a ++ b) = setFrom seen a ++ setFrom seen2 b.
Proof.
  revert seen. induction a as [|x a IH]; intros seen Hs.
  - simpl. revert seen seen2 Hs. induction b as [|y b IHb]; intros seen seen2 Hs;
      [reflexivity|].
    simpl. assert (Hy : y ∈ seen <-> y ∈ seen2)
      by (rewrite Hs, elem_of_nil; tauto).
    destruct (decide (y ∈ seen)) as [Hin | Hin].
    + rewrite (bool_decide_eq_true_2 _ Hin).
      rewrite (bool_decide_eq_true_2 _ (proj1 Hy Hin)). now apply IHb.
    + rewrite (bool_decide_eq_false_2 _ Hin).
      rewrite bool_decide_eq_false_2 by tauto. f_equal. apply IHb.
      intros z. rewrite !elem_of_cons, Hs, !elem_of_nil. tauto.
  - cbn [app setFrom]. destruct (decide (x ∈ seen)) as [Hin | Hin].
    + rewrite (bool_decide_eq_true_2 _ Hin). apply IH.
      intros y. rewrite Hs, elem_of_cons. split; [|tauto].
      intros [[-> | Hy] | Hy]; tauto.
    + rewrite (bool_decide_eq_false_2 _ Hin). cbn [app]. f_equal. apply IH.
      intros y. rewrite Hs, !elem_of_cons. tauto.
Qed.

Lemma setFrom_filter (l seen sa sb : list jsstring) :
  (forall y, y ∈ sb <-> y ∈ sa \/ y ∈ seen) ->
  setFrom sb l = filter (fun x => x ∉ sa) (setFrom seen l).
Proof.
  revert seen sb. induction l as [|x l IH]; intros seen sb Hs; [reflexivity|].
  cbn [setFrom]. destruct (decide (x ∈ seen)) as [Hin | Hin].
  - rewrite (bool_decide_eq_true_2 _ Hin).
    rewrite bool_decide_eq_true_2 by (apply Hs; tauto). now apply IH.
  - rewrite (bool_decide_eq_false_2 _ Hin).
    destruct (decide (x ∈ sa)) as [Ha | Ha].
    + rewrite bool_decide_eq_true_2 by (apply Hs; tauto).
      rewrite filter_cons_False by tauto. apply IH.
      intros y. rewrite Hs, elem_of_cons. split; [tauto|].
      intros [Hy | [-> | Hy]]; tauto.
    + rewrite bool_decide_eq_false_2 by (rewrite Hs; tauto).
      rewrite filter_cons_True by exact Ha. f_equal. apply IH.
      intros y. rewrite !elem_of_cons, Hs. tauto.
Qed.

(** X15. The card of an API result keeps the local movie's themes and
    puts the badges of the result in front of them, each label once:
    when the local movie has a theme list, the card's theme list has no
    duplicate, holds exactly the badges and the local themes, and
    consists of the badges, in their order, followed by the local
    themes that are not badges, in theirs. *)
Theorem resultMovie_themes (st : state) (r : apiResult) (t : list jsstring) :
  themes (localMovie st r) = Some t ->
  exists l,
    themes (resultMovie st r) = Some l
    /\ NoDup l
    /\ (forall x, x ∈ l <-> x ∈ default [] (res_badges r) \/ x ∈ t)
    /\ l = setFrom [] (default [] (res_badges r))
           ++ filter (fun x => x ∉ default [] (res_badges r)) (setFrom [] t).
Proof.
  intros Ht. exists (setFrom [] (default [] (res_badges r) ++ t)).
  split; [|split; [|split]].
  - unfold resultMovie. fold (localMovie st r). simpl. now rewrite Ht.
  - apply setFrom_NoDup.
  - intros x. rewrite setFrom_elem, elem_of_app, elem_of_nil. tauto.
  - rewrite (setFrom_app [] (default [] (res_badges r)) t
               (default [] (res_badges r)))
      by (intros y; rewrite elem_of_nil; tauto).
    f_equal. apply setFrom_filter. intros y. rewrite elem_of_nil. tauto.
Qed.

Lemma resultMovie_themes_witness :
  exists l,
    themes (resultMovie browsing
              {| res_title := Some (lit "ALIEN"); res_badges := Some [lit "Survival"; lit "space"];
                 res_why_pretty := None; res_why := None; res_snippet := None;
                 res_kw_rank := None; res_vec_rank := None |}) = Some l
    /\ NoDup l
    /\ (forall x, x ∈ l <-> x ∈ [lit "Survival"; lit "space"] \/ x ∈ [lit "Survival"])
    /\ l = setFrom [] [lit "Survival"; lit "space"]
           ++ filter (fun x => x ∉ [lit "Survival"; lit "space"])
                (setFrom [] [lit "Survival"]).
Proof.
  apply (resultMovie_themes browsing
           {| res_title := Some (lit "ALIEN"); res_badges := Some [lit "Survival"; lit "space"];
              res_why_pretty := None; res_why := None; res_snippet := None;
              res_kw_rank := None; res_vec_rank := None |} [lit "Survival"]).
  reflexivity.
Defined.

Lemma encodeURIComponent_no_surrogate s :
  forallb (fun c => negb (isHighSurrogate c || isLowSurrogate c)) s = true ->
  is_Some (encodeURIComponent s).
Proof.
  induction s as [|c s IH]; [now eexists|].
  cbn [forallb]. rewrite andb_true_iff, negb_true_iff, orb_false_iff.
  intros [[Hh Hl] Hs]. destruct (IH Hs) as [q Hq].
  cbn [encodeURIComponent]. rewrite Hh, Hl, Hq.
  destruct (uriUnescaped c); now eexists.
Qed.

(** X16. [render] asks the search API exactly when there is a search
    string that [encodeURIComponent] accepts and an API base that is
    not blank, the base being the one of the state, else the one of the
    input field, else the stored one.  With a blank base or no search
    string it renders locally; with a search string that holds a lone
    surrogate the URL cannot be built, nothing is sent and the [catch]
    block renders locally; otherwise one request goes to the normalized
    base, with the encoded search string, [state.pageSize] as limit and
    the hybrid mode, and what is rendered is decided by its answer.  A
    search string without surrogates is always accepted. *)
Theorem render_asks_api_iff (env : environment) (net : request -> apiReply)
  (st : state) (d : dom) :
  (trim (toStr (rawBase env st)) = [] \/ search st = [] ->
   render env net st d = renderLocal st d)
  /\ (trim (toStr (rawBase env st)) <> [] -> search st <> [] ->
      encodeURIComponent (search st) = None ->
      render env net st d
      = searchFailed st
          {| stats := StatsSearching; cards := []; pagination := None;
             apiStatus := apiStatus d |} uriErrorMessage)
  /\ (forall q,
        trim (toStr (rawBase env st)) <> [] -> search st <> [] ->
        encodeURIComponent (search st) = Some q ->
        render env net st d
        = match net {| req_base := normalizeBase (rawBase env st);
                       req_path := lit "/search"; req_q := q;
                       req_limit := pageSize st; req_mode := lit "hybrid" |}
          with
          | Reply dat =>
              Normal (st,
                      {| stats := StatsApi (length (default [] (results dat)))
                                    (semantic_enabled dat);
                         cards := map (resultMovie st)
                                    (default [] (results dat));
                         pagination := None;
                         apiStatus := apiStatus d |})
          | failure =>
              searchFailed st
                {| stats := StatsSearching; cards := []; pagination := None;
                   apiStatus := apiStatus d |}
                (toStr (failureMessage failure))
          end)
  /\ (forallb (fun c => negb (isHighSurrogate c || isLowSurrogate c))
        (search st) = true ->
      is_Some (encodeURIComponent (search st)))
  /\ (apiBase st <> [] -> rawBase env st = Some (apiBase st))
  /\ (apiBase st = [] -> isTruthy (apiBaseInput env) = true ->
      rawBase env st = apiBaseInput env).
Proof.
  assert (Hapi : trim (toStr (rawBase env st)) <> [] -> search st <> [] ->
                 render env net st d
                 = renderUsingApi net (normalizeBase (rawBase env st)) st d).
  { intros Hb Hq. unfold render. fold (rawBase env st).
    assert (Hn : normalizeBase (rawBase env st) <> []).
    { intros H. apply Hb. now apply normalizeBase_scheme. }
    destruct (normalizeBase (rawBase env st)); [contradiction|].
    destruct (search st); [contradiction | reflexivity]. }
  split; [|split; [|split; [|split; [|split]]]].
  - intros [Hb | Hq]; unfold render; fold (rawBase env st).
    + now rewrite (normalizeBase_empty _ Hb).
    + rewrite Hq. simpl. now rewrite andb_false_r.
  - intros Hb Hq He. rewrite (Hapi Hb Hq).
    unfold renderUsingApi, searchRequest. now rewrite He.
  - intros q Hb Hq He. rewrite (Hapi Hb Hq).
    unfold renderUsingApi, searchRequest. rewrite He. cbn [option_map].
    now destruct (net _).
  - apply encodeURIComponent_no_surrogate.
  - unfold rawBase. destruct (apiBase st); [contradiction | reflexivity].
  - unfold rawBase, isTruthy. intros ->. simpl.
    destruct (apiBaseInput env) as [[|c s]|]; simpl; try discriminate.
    reflexivity.
Qed.

Lemma render_asks_api_iff_witness :
  render noEnvironment backendEmpty (searching (lit "crew")) emptyDom
  = Normal (searching (lit "crew"),
            {| stats := StatsApi 0 (Some false); cards := [];
               pagination := None; apiStatus := None |}).
Proof.
  destruct (render_asks_api_iff noEnvironment backendEmpty
              (searching (lit "crew")) emptyDom) as (_ & _ & H & _).
  rewrite (H (lit "crew")).
  - reflexivity.
  - vm_compute. discriminate.
  - discriminate.
  - reflexivity.
Defined.

(** A search string with a space, an ampersand and an accented
    letter; a film clapper written as a surrogate pair; and a lone
    surrogate, with which no request is made. *)
Example encodeURIComponent_samples :
  encodeURIComponent [97; 32; 38; 233] = Some (lit "a%20%26%C3%A9")
  /\ encodeURIComponent [55356; 57260] = Some (lit "%F0%9F%8E%AC")
  /\ encodeURIComponent [97; 55356] = None
  /\ render noEnvironment backendEmpty (searching [97; 55356]) emptyDom
     = searchFailed (searching [97; 55356])
         {| stats := StatsSearching; cards := []; pagination := None;
            apiStatus := None |} (lit "URI malformed").
Proof. vm_compute. repeat split; reflexivity. Qed.

(** ** Favourites *)

Lemma removeFromFavorites_elem liked t x :
  x ∈ removeFromFavorites liked t <-> x ∈ liked /\ x <> t.
Proof. unfold removeFromFavorites. rewrite list_elem_of_filter. tauto. Qed.

(** X17. Liking toggles: on a set of liked titles, a click on the
    like button of [t] makes [t] liked if it was not and not liked if
    it was, leaves every other title as it was, keeps the titles
    distinct, changes the count by exactly one, and a second click
    restores the same set of titles. *)
Theorem toggleLike_toggles (liked : list jsstring) (t : jsstring) :
  NoDup liked ->
  NoDup (toggleLike liked t)
  /\ (t ∈ toggleLike liked t <-> t ∉ liked)
  /\ (forall x, x <> t -> (x ∈ toggleLike liked t <-> x ∈ liked))
  /\ (t ∈ liked -> S (length (toggleLike liked t)) = length liked)
  /\ (t ∉ liked -> length (toggleLike liked t) = S (length liked))
  /\ (forall x, x ∈ toggleLike (toggleLike liked t) t <-> x ∈ liked).
Proof.
  intros Hnd.
  assert (Hmem : forall l x, x ∈ toggleLike l t <->
                   (x = t /\ t ∉ l) \/ (x <> t /\ x ∈ l)).
  { intros l x. unfold toggleLike. case_bool_decide as Ht.
    - rewrite list_elem_of_filter. destruct (decide (x = t)); subst; tauto.
    - rewrite elem_of_app, list_elem_of_singleton.
      destruct (decide (x = t)); subst; tauto. }
  split; [|split; [|split; [|split; [|split]]]].
  - unfold toggleLike. case_bool_decide as Ht.
    + now apply NoDup_filter.
    + apply NoDup_app. split; [exact Hnd|]. split.
      * intros x Hx Hx'. apply list_elem_of_singleton in Hx'. now subst.
      * apply NoDup_singleton.
  - rewrite Hmem. tauto.
  - intros x Hx. rewrite Hmem. tauto.
  - intros Ht. unfold toggleLike. rewrite bool_decide_eq_true_2 by exact Ht.
    clear Hmem. induction Hnd as [|y l Hy Hnd IH]; [inversion Ht|].
    rewrite filter_cons. apply elem_of_cons in Ht.
    destruct (decide (y <> t)) as [Hne|Heq].
    + destruct Ht as [-> | Ht]; [contradiction|]. simpl. now rewrite IH.
    + assert (y = t) by (destruct (decide (y = t)); tauto). subst y.
      simpl. f_equal. clear IH Ht Heq.
      assert (Hall : Forall (fun x => x <> t) l).
      { apply Forall_forall. intros x Hx ->. contradiction. }
      clear Hy Hnd. induction Hall as [|z l Hz _ IH]; [reflexivity|].
      rewrite filter_cons. destruct (decide (z <> t)); [|contradiction].
      simpl. now rewrite IH.
  - intros Ht. unfold toggleLike. rewrite bool_decide_eq_false_2 by exact Ht.
    rewrite length_app. simpl. lia.
  - intros x. rewrite !Hmem.
    destruct (decide (x = t)), (decide (t ∈ liked)); subst; tauto.
Qed.

Lemma toggleLike_toggles_witness :
  NoDup (toggleLike [lit "Alien"; lit "Heat"] (lit "Heat"))
  /\ (lit "Heat" ∈ toggleLike [lit "Alien"; lit "Heat"] (lit "Heat")
      <-> lit "Heat" ∉ [lit "Alien"; lit "Heat"])
  /\ (forall x, x <> lit "Heat" ->
        (x ∈ toggleLike [lit "Alien"; lit "Heat"] (lit "Heat")
         <-> x ∈ [lit "Alien"; lit "Heat"]))
  /\ (lit "Heat" ∈ [lit "Alien"; lit "Heat"] ->
      S (length (toggleLike [lit "Alien"; lit "Heat"] (lit "Heat")))
      = length [lit "Alien"; lit "Heat"])
  /\ (lit "Heat" ∉ [lit "Alien"; lit "Heat"] ->
      length (toggleLike [lit "Alien"; lit "Heat"] (lit "Heat"))
      = S (length [lit "Alien"; lit "Heat"]))
  /\ (forall x,
        x ∈ toggleLike (toggleLike [lit "Alien"; lit "Heat"] (lit "Heat"))
              (lit "Heat")
        <-> x ∈ [lit "Alien"; lit "Heat"]).
Proof.
  apply (toggleLike_toggles [lit "Alien"; lit "Heat"] (lit "Heat")).
  apply NoDup_cons. split.
  - rewrite list_elem_of_singleton. discriminate.
  - apply NoDup_singleton.
Defined.

(** X18. The favourites panel shows movies of the catalog only, each
    with a liked title, in the order the titles were liked and at most
    one per liked title; a liked title that some movie of the catalog
    bears is shown, one that no movie bears is silently left out; and
    after [removeFromFavorites] no shown movie bears the removed
    title. *)
Theorem favoriteMovies_shown (liked : list jsstring) (ms : list movie) :
  (forall m, m ∈ favoriteMovies liked ms ->
     m ∈ ms /\ exists t, t ∈ liked /\ title m = Some t)
  /\ (length (favoriteMovies liked ms) <= length liked)%nat
  /\ (forall t, t ∈ liked ->
        (exists m, m ∈ ms /\ title m = Some t) <->
        (exists m, m ∈ favoriteMovies liked ms /\ title m = Some t))
  /\ (forall t m, m ∈ favoriteMovies (removeFromFavorites liked t) ms ->
        title m <> Some t)
  /\ map title (favoriteMovies liked ms)
     = map Some
         (filter (fun t => existsb (fun m => bool_decide (title m = Some t)) ms
                           = true) liked).
Proof.
  assert (Hget : forall t m, moviesByTitleGet ms t = Some m ->
                   m ∈ ms /\ title m = Some t).
  { intros t m Hm.
    apply (last_filter_Some (fun m' => title m' = Some t)) in Hm.
    destruct Hm as (Ht & l1 & l2 & -> & _). split; [|exact Ht].
    rewrite elem_of_app, elem_of_cons. tauto. }
  assert (Hnone : forall t, moviesByTitleGet ms t = None <->
                    ~ exists m, m ∈ ms /\ title m = Some t).
  { intros t. unfold moviesByTitleGet.
    rewrite (last_filter_None (fun m' => title m' = Some t)), Forall_forall.
    split; [intros H (m & Hm & Ht); exact (H m Hm Ht) | eauto]. }
  split; [|split; [|split; [|split]]].
  - intros m Hm. unfold favoriteMovies in Hm. apply list_elem_of_omap in Hm.
    destruct Hm as (t & Ht & Hm). apply Hget in Hm. destruct Hm as [Hin Htitle].
    split; [exact Hin|]. now exists t.
  - unfold favoriteMovies. induction liked as [|t l IH]; [simpl; lia|].
    cbn [omap list_omap].
    destruct (moviesByTitleGet ms t); cbn [length]; lia.
  - intros t Ht. split.
    + intros Hex. destruct (moviesByTitleGet ms t) as [m|] eqn:E.
      * exists m. split; [|now apply (Hget t)].
        unfold favoriteMovies. apply list_elem_of_omap. now exists t.
      * apply Hnone in E. contradiction.
    + intros (m & Hm & Htitle). unfold favoriteMovies in Hm.
      apply list_elem_of_omap in Hm. destruct Hm as (t' & _ & Hm).
      apply Hget in Hm. exists m. tauto.
  - intros t m Hm Htitle. unfold favoriteMovies in Hm.
    apply list_elem_of_omap in Hm. destruct Hm as (t' & Ht' & Hm).
    apply removeFromFavorites_elem in Ht'. apply Hget in Hm.
    destruct Hm as [_ Hm]. rewrite Hm in Htitle. injection Htitle as ->. tauto.
  - unfold favoriteMovies. induction liked as [|t l IH]; [reflexivity|].
    rewrite filter_cons. cbn [omap list_omap].
    assert (Hb : existsb (fun m => bool_decide (title m = Some t)) ms = true
                 <-> exists m, m ∈ ms /\ title m = Some t).
    { rewrite existsb_exists. split; intros (m & Hm & Ht); exists m.
      - apply bool_decide_eq_true in Ht. now rewrite list_elem_of_In.
      - rewrite <- list_elem_of_In. split; [exact Hm|].
        now apply bool_decide_eq_true. }
    destruct (moviesByTitleGet ms t) as [m|] eqn:E.
    + destruct (Hget t m E) as [Hin Htitle].
      rewrite decide_True by (apply Hb; eauto).
      cbn [map]. now rewrite Htitle, IH.
    + apply Hnone in E. rewrite decide_False by (rewrite Hb; exact E).
      exact IH.
Qed.

(** ** apiFetch *)

Lemma tryCandidates_returned net path cands errors base res :
  tryCandidates net path cands errors = Returned base res ->
  net (base ++ path) = Responded res /\ res_ok res = true
  /\ exists l1 l2, cands = l1 ++ base :: l2
                   /\ Forall (fun b => ~ answersOk net path b) l1.
Proof.
  revert errors. induction cands as [|b rest IH]; intros errors; [discriminate|].
  cbn [tryCandidates].
  destruct (net (b ++ path)) as [r|msg] eqn:Eb.
  - destruct (res_ok r) eqn:Eok.
    + intros [= <- <-]. repeat split; try assumption.
      exists [], rest. split; [reflexivity | constructor].
    + intros H. destruct (IH _ H) as (Hn & Hok & l1 & l2 & -> & Hl1).
      repeat split; try assumption. exists (b :: l1), l2.
      split; [reflexivity|]. constructor; [|exact Hl1].
      intros (r' & Hr' & Hok'). congruence.
  - intros H. destruct (IH _ H) as (Hn & Hok & l1 & l2 & -> & Hl1).
    repeat split; try assumption. exists (b :: l1), l2.
    split; [reflexivity|]. constructor; [|exact Hl1].
    intros (r' & Hr' & Hok'). congruence.
Qed.

Lemma tryCandidates_thrown net path cands errors msg :
  tryCandidates net path cands errors = Thrown msg ->
  Forall (fun b => ~ answersOk net path b) cands
  /\ msg = lit "All API endpoints failed: "
           ++ join (lit " | ")
                (map Some (errors
                           ++ map (fun b => failureEntry b (net (b ++ path))) cands)).
Proof.
  revert errors. induction cands as [|b rest IH]; intros errors.
  - cbn [tryCandidates]. intros [= <-]. split; [constructor|].
    simpl. now rewrite app_nil_r.
  - cbn [tryCandidates].
    destruct (net (b ++ path)) as [r|m] eqn:Eb.
    + destruct (res_ok r) eqn:Eok; [discriminate|].
      intros H. destruct (IH _ H) as [Hall ->]. split.
      * constructor; [|exact Hall]. intros (r' & Hr' & Hok'). congruence.
      * cbn [map]. rewrite Eb, <- app_assoc. reflexivity.
    + intros H. destruct (IH _ H) as [Hall ->]. split.
      * constructor; [|exact Hall]. intros (r' & Hr' & Hok'). congruence.
      * cbn [map]. rewrite Eb, <- app_assoc. reflexivity.
Qed.

Lemma tryCandidates_first_ok net path l1 base l2 errors res :
  Forall (fun b => ~ answersOk net path b) l1 ->
  net (base ++ path) = Responded res -> res_ok res = true ->
  tryCandidates net path (l1 ++ base :: l2) errors = Returned base res.
Proof.
  intros Hl1. revert errors. induction Hl1 as [|b l1 Hb _ IH]; intros errors Hn Hok.
  - cbn [app tryCandidates]. now rewrite Hn, Hok.
  - cbn [app tryCandidates]. destruct (net (b ++ path)) as [r|m] eqn:Eb.
    + destruct (res_ok r) eqn:Er; [|now apply IH].
      exfalso. apply Hb. now exists r.
    + now apply IH.
Qed.

(** X19. [apiFetch] returns exactly the response of the first
    candidate, in the order override, stored base, page origin, four
    local addresses, that answers with an ok response; it throws
    exactly when no candidate answers ok, and then its message lists
    every candidate with its failure, in that order. *)
Theorem apiFetch_first_ok (cx : fetchContext) (net : jsstring -> fetched)
  (path : jsstring) :
  (forall base res,
     apiFetch cx net path = Returned base res <->
     exists l1 l2,
       apiCandidates cx = l1 ++ base :: l2
       /\ Forall (fun b => ~ answersOk net path b) l1
       /\ net (base ++ path) = Responded res /\ res_ok res = true)
  /\ (forall msg,
        apiFetch cx net path = Thrown msg <->
        Forall (fun b => ~ answersOk net path b) (apiCandidates cx)
        /\ msg = lit "All API endpoints failed: "
                 ++ join (lit " | ")
                      (map (fun b => Some (failureEntry b (net (b ++ path))))
                           (apiCandidates cx))).
Proof.
  unfold apiFetch. split.
  - intros base res. split.
    + intros H. apply tryCandidates_returned in H.
      destruct H as (Hn & Hok & l1 & l2 & Hc & Hl1). now exists l1, l2.
    + intros (l1 & l2 & -> & Hl1 & Hn & Hok).
      now apply tryCandidates_first_ok.
  - intros msg. split.
    + intros H. apply tryCandidates_thrown in H. destruct H as [Hall ->].
      split; [exact Hall|]. simpl. now rewrite <- list_fmap_compose.
    + intros [Hall ->].
      destruct (tryCandidates net path (apiCandidates cx) []) as [b r|m] eqn:E.
      * apply tryCandidates_returned in E.
        destruct E as (Hn & Hok & l1 & l2 & Hc & _).
        rewrite Hc, Forall_app, Forall_cons in Hall.
        exfalso. apply (proj1 (proj2 Hall)). now exists r.
      * apply tryCandidates_thrown in E. destruct E as [_ ->].
        simpl. now rewrite <- list_fmap_compose.
Qed.

(** X20. The candidates of [apiFetch] always end with the four local
    addresses, after at most three others; and once it has returned
    from a base that is not empty, and stored it, the candidates of the
    next call begin with that base (less one trailing slash), unless
    the global override is set. *)
Theorem apiFetch_fallbacks (cx : fetchContext) (net : jsstring -> fetched)
  (path : jsstring) :
  (exists l, apiCandidates cx
             = l ++ [lit "http://localhost:8001"; lit "https://localhost:8001";
                     lit "http://127.0.0.1:8003"; lit "https://127.0.0.1:8003"]
             /\ (length l <= 3)%nat)
  /\ (forall base res,
        apiFetch cx net path = Returned base res ->
        isTruthy (win_API_BASE cx) = false -> base <> [] ->
        exists rest,
          apiCandidates (afterFetch cx (Returned base res))
          = dropTrailingSlash base :: rest).
Proof.
  split.
  - unfold apiCandidates. eexists. rewrite !app_assoc. split; [reflexivity|].
    rewrite !length_app.
    destruct (isTruthy (win_API_BASE cx)), (isTruthy (stored_apiBase cx)),
      (bool_decide _ || bool_decide _); simpl; lia.
  - intros base res _ Hwin Hbase. unfold apiCandidates, afterFetch.
    cbn [win_API_BASE stored_apiBase]. rewrite Hwin.
    destruct base as [|c b]; [contradiction|]. eexists. reflexivity.
Qed.

Lemma apiFetch_fallbacks_witness :
  exists rest,
    apiCandidates
      (afterFetch {| win_API_BASE := None; stored_apiBase := None;
                     location_protocol := lit "file:";
                     location_origin := lit "null" |}
         (Returned (lit "http://localhost:8001")
            {| res_ok := true; res_status := 200; res_statusText := lit "OK" |}))
    = dropTrailingSlash (lit "http://localhost:8001") :: rest.
Proof.
  destruct (apiFetch_fallbacks
              {| win_API_BASE := None; stored_apiBase := None;
                 location_protocol := lit "file:";
                 location_origin := lit "null" |}
              (fun _ => Responded {| res_ok := true; res_status := 200;
                                     res_statusText := lit "OK" |})
              (lit "/api/likes")) as [_ H].
  apply (H (lit "http://localhost:8001")
           {| res_ok := true; res_status := 200; res_statusText := lit "OK" |}).
  - reflexivity.
  - reflexivity.
  - discriminate.
Defined.

(** ** Narrowing a search *)

Lemma arrayFilter_defined {A} (f : A -> outcome bool) l out :
  arrayFilter f l = Normal out -> Forall (fun x => exists b, f x = Normal b) l.
Proof.
  revert out. induction l as [|x l IH]; intros out; simpl; [constructor|].
  destruct (f x) as [b|] eqn:Hx; simpl; [|discriminate].
  destruct (arrayFilter f l) as [r|]; simpl; [|discriminate].
  intros _. constructor; [now exists b | now apply (IH r)].
Qed.

Lemma substring_trans a b c : substring a b -> substring b c -> substring a c.
Proof.
  intros (p1 & s1 & ->) (p2 & s2 & ->). exists (p2 ++ p1), (s1 ++ s2).
  now rewrite <- !app_assoc.
Qed.

Lemma selected_narrows q1 q2 t1 t2 h1 h2 m :
  substring q1 q2 -> t1 ⊆ t2 -> h1 ⊆ h2 ->
  selected q2 t2 h2 m -> selected q1 t1 h1 m.
Proof.
  intros Hq Ht Hh ([-> | Hs] & Htn & Hth); repeat split.
  - left. destruct Hq as (p & s & Hq). symmetry in Hq.
    apply app_eq_nil in Hq as [_ Hq]. now apply app_eq_nil in Hq as [Hq _].
  - intros t Hin. apply Htn, Ht, Hin.
  - intros t Hin. apply Hth, Hh, Hin.
  - right. eapply substring_trans; eassumption.
  - intros t Hin. apply Htn, Ht, Hin.
  - intros t Hin. apply Hth, Hh, Hin.
Qed.

Lemma filter_filter_narrow {A} (P Q : A -> bool) (l : list A) :
  (forall x, Q x = true -> P x = true) ->
  filter (fun x => Q x = true) (filter (fun x => P x = true) l)
  = filter (fun x => Q x = true) l.
Proof.
  intros H. induction l as [|x l IH]; [reflexivity|].
  specialize (H x). rewrite !filter_cons.
  destruct (P x) eqn:HP, (Q x) eqn:HQ.
  - rewrite !decide_True by reflexivity. rewrite filter_cons.
    rewrite decide_True by exact HQ. now rewrite IH.
  - rewrite decide_True by reflexivity. rewrite decide_False by discriminate.
    rewrite filter_cons, HQ. rewrite decide_False by discriminate. exact IH.
  - specialize (H eq_refl). discriminate.
  - rewrite !decide_False by discriminate. exact IH.
Qed.

(** X21. Narrowing a search narrows its results.  When the earlier
    search string occurs in the later one and every tone and theme
    selected earlier is still selected, the later results are among the
    earlier ones, in the same order; and filtering the earlier results
    again gives exactly what filtering the whole catalog gives. *)
Theorem applyFilters_narrows (st1 st2 : state) (arr out1 out2 : list movie) :
  substring (search st1) (search st2) ->
  filterTones st1 ⊆ filterTones st2 ->
  filterThemes st1 ⊆ filterThemes st2 ->
  applyFilters st1 arr = Normal out1 ->
  applyFilters st2 arr = Normal out2 ->
  sublist out2 out1 /\ applyFilters st2 out1 = Normal out2.
Proof.
  intros Hq Ht Hh H1 H2.
  pose proof (arrayFilter_defined _ _ _ H2) as Hdef.
  apply applyFilters_sound in H1. apply applyFilters_sound in H2.
  assert (Himp : forall m,
    selectedb (search st2) (filterTones st2) (filterThemes st2) m = true ->
    selectedb (search st1) (filterTones st1) (filterThemes st1) m = true).
  { intros m. rewrite !selectedb_spec. now apply selected_narrows. }
  assert (Hagain : applyFilters st2 out1 = Normal out2).
  { unfold applyFilters.
    rewrite (arrayFilter_total _
               (selectedb (search st2) (filterTones st2) (filterThemes st2))).
    - subst out1 out2. f_equal. now apply filter_filter_narrow.
    - subst out1. apply Forall_forall. intros m Hm.
      apply list_elem_of_filter in Hm as [_ Hm].
      rewrite Forall_forall in Hdef. destruct (Hdef m Hm) as [b Hb].
      rewrite Hb. f_equal. now apply keepMovie_sound in Hb. }
  split; [|exact Hagain].
  apply applyFilters_sound in Hagain. rewrite Hagain. apply sublist_filter.
Qed.

Lemma applyFilters_narrows_witness :
  sublist [alien] [alien; amelie]
  /\ applyFilters (searching (lit "alien")) [alien; amelie] = Normal [alien].
Proof.
  apply (applyFilters_narrows browsing (searching (lit "alien"))
           [alien; amelie] [alien; amelie] [alien]).
  - exists [], (lit "alien"). reflexivity.
  - intros t Ht. inversion Ht.
  - intros t Ht. exact Ht.
  - vm_compute. reflexivity.
  - vm_compute. reflexivity.
Defined.

Lemma toLowerCase_no_capital c s :
  toLowerCaseUnit c <> c -> c ∉ toLowerCase s.
Proof.
  intros Hc Hin. unfold toLowerCase in Hin.
  apply list_elem_of_fmap in Hin as (d & -> & _).
  apply Hc, toLowerCaseUnit_idempotent.
Qed.

(** X22. The search text is compared as it is with the lowercased
    text of a movie, so a search string holding a capital letter (a
    unit that lowercasing changes) matches no movie: whenever
    [applyFilters] returns, it returns nothing, and on a catalog whose
    movies have their list properties it does return. *)
Theorem applyFilters_capital_matches_nothing (st : state) (arr : list movie)
  (c : N) :
  c ∈ search st -> toLowerCaseUnit c <> c ->
  (forall out, applyFilters st arr = Normal out -> out = [])
  /\ (Forall wellFormed arr -> applyFilters st arr = Normal []).
Proof.
  intros Hin Hc.
  assert (Hno : forall m,
    selectedb (search st) (filterTones st) (filterThemes st) m = false).
  { intros m. apply not_true_is_false. rewrite selectedb_spec.
    intros ([Hq | (pre & post & Hs)] & _).
    - rewrite Hq in Hin. inversion Hin.
    - apply (toLowerCase_no_capital c
               (join (lit " ")
                  ([title m; pacing_style m; energy_level m; visual_aesthetic m;
                    target_audience m; narrative_structure m; profile_text m]
                   ++ listField (emotional_tone m) ++ listField (themes m)
                   ++ listField (similar_films m)
                   ++ listField (cultural_context m)
                   ++ listField (discussion_topics m))) Hc).
      fold (searchedText m). rewrite Hs.
      apply elem_of_app. right. apply elem_of_app. now left. }
  assert (Hnil : filter (fun m => selectedb (search st) (filterTones st)
                                    (filterThemes st) m = true) arr = []).
  { induction arr as [|m arr IH]; [reflexivity|].
    rewrite filter_cons, Hno. case_decide; [discriminate | exact IH]. }
  split.
  - intros out Hout. apply applyFilters_sound in Hout. now rewrite Hout.
  - intros Hwf. rewrite (applyFilters_wellFormed st arr Hwf). now f_equal.
Qed.

Lemma applyFilters_capital_matches_nothing_witness :
  applyFilters (searching (lit "Alien")) [alien; amelie] = Normal [].
Proof.
  apply (applyFilters_capital_matches_nothing (searching (lit "Alien"))
           [alien; amelie] 65).
  - vm_compute. apply list_elem_of_here.
  - vm_compute. discriminate.
  - apply alien_wellFormed.
Defined.

(** ** convertTmdbPath *)

(** X23. A converted image path is settled: it never starts with a
    slash, and converting it again, for whatever size, returns it
    unchanged, so merging does not prefix a URL twice. *)
Theorem convertTmdbPath_settled (path : option jsstring) (size size' : jsstring) :
  startsWith (convertTmdbPath path size) (lit "/") = false
  /\ convertTmdbPath (Some (convertTmdbPath path size)) size'
     = convertTmdbPath path size.
Proof.
  unfold convertTmdbPath.
  destruct path as [[|c p]|]; [split; reflexivity | | split; reflexivity].
  destruct (startsWith (c :: p) (lit "http")) eqn:Eh.
  - rewrite Eh. split; [|reflexivity].
    apply startsWith_spec in Eh as [post Eh]. rewrite Eh. reflexivity.
  - destruct (startsWith (c :: p) (lit "/")) eqn:Es.
    + split; reflexivity.
    + rewrite Eh, Es. split; reflexivity.
Qed.

(** ** Array.prototype.sort *)

Lemma sortedInsert_perm {A} (cmp : A -> A -> Z) x (l : list A) :
  sortedInsert cmp x l ≡ₚ x :: l.
Proof.
  induction l as [|y l IH]; simpl; [reflexivity|].
  destruct (cmp x y <=? 0)%Z; [reflexivity|].
  rewrite IH. apply Permutation_swap.
Qed.

Lemma arraySort_perm {A} (cmp : A -> A -> Z) (l : list A) :
  arraySort cmp l ≡ₚ l.
Proof.
  induction l as [|x l IH]; simpl; [reflexivity|].
  unfold arraySort in *. simpl. rewrite sortedInsert_perm. now rewrite IH.
Qed.

Lemma sortedInsert_sorted {A} (cmp : A -> A -> Z) (key : A -> Z) x (l : list A) :
  (forall a b, cmp a b = (key a - key b)%Z) ->
  StronglySorted (fun a b => (key a <= key b)%Z) l ->
  StronglySorted (fun a b => (key a <= key b)%Z) (sortedInsert cmp x l).
Proof.
  intros Hc. induction 1 as [|y l Hs IH Hy]; simpl.
  - repeat constructor.
  - rewrite Hc. destruct (Z.leb_spec (key x - key y) 0).
    + constructor; [now constructor|]. constructor; [lia|].
      eapply Forall_impl; [exact Hy|]. simpl. intros; lia.
    + constructor; [exact IH|].
      rewrite (sortedInsert_perm cmp x l). constructor; [lia | exact Hy].
Qed.

Lemma arraySort_sorted {A} (cmp : A -> A -> Z) (key : A -> Z) (l : list A) :
  (forall a b, cmp a b = (key a - key b)%Z) ->
  StronglySorted (fun a b => (key a <= key b)%Z) (arraySort cmp l).
Proof.
  intros Hc. induction l as [|x l IH]; [constructor|].
  unfold arraySort in *. simpl. now apply (sortedInsert_sorted cmp key).
Qed.

Lemma arraySort_already {A} (cmp : A -> A -> Z) (l : list A) :
  StronglySorted (fun a b => (cmp a b <= 0)%Z) l -> arraySort cmp l = l.
Proof.
  induction 1 as [|x l Hs IH Hx]; [reflexivity|].
  unfold arraySort in *. simpl. rewrite IH.
  destruct Hx as [|y l Hy _]; [reflexivity|]. simpl.
  destruct (Z.leb_spec (cmp x y) 0); [reflexivity | lia].
Qed.

Lemma sorted_weaken {A} (R R' : A -> A -> Prop) (l : list A) :
  (forall a b, R a b -> R' a b) -> StronglySorted R l -> StronglySorted R' l.
Proof.
  intros HR. induction 1 as [|x l _ IH Hx]; constructor; [exact IH|].
  eapply Forall_impl; [exact Hx|]. apply HR.
Qed.

Lemma sorted_split {A} (R : A -> A -> Prop) l1 a l2 b l3 :
  StronglySorted R (l1 ++ a :: l2 ++ b :: l3) -> R a b.
Proof.
  induction l1 as [|x l1 IH]; simpl; intros H.
  - apply StronglySorted_inv in H as [_ H]. rewrite Forall_forall in H.
    apply H. apply elem_of_app. right. apply list_elem_of_here.
  - apply StronglySorted_inv in H as [H _]. now apply IH.
Qed.

(** ** Themed carousels *)

(** The count stored for an id in the map, 0 when there is none. *)
Lemma countTheme_ids theme tm :
  map car_id (countTheme theme tm)
  = if bool_decide (themeId theme ∈ map car_id tm) then map car_id tm
    else map car_id tm ++ [themeId theme].
Proof.
  induction tm as [|c tm IH]; cbn [countTheme map].
  - rewrite bool_decide_eq_false_2; [reflexivity | apply not_elem_of_nil].
  - destruct (decide (car_id c = themeId theme)) as [Hc | Hc].
    + rewrite (bool_decide_eq_true_2 _ Hc).
      rewrite bool_decide_eq_true_2; [reflexivity|].
      rewrite Hc. apply list_elem_of_here.
    + rewrite (bool_decide_eq_false_2 _ Hc). cbn [map]. rewrite IH.
      destruct (decide (themeId theme ∈ map car_id tm)) as [Hin | Hin].
      * rewrite (bool_decide_eq_true_2 _ Hin).
        rewrite bool_decide_eq_true_2; [reflexivity|].
        now apply list_elem_of_further.
      * rewrite (bool_decide_eq_false_2 _ Hin).
        rewrite bool_decide_eq_false_2; [reflexivity|].
        intros Hin'. apply elem_of_cons in Hin' as [Heq|Hin'];
          [now symmetry in Heq | contradiction].
Qed.

Lemma countTheme_NoDup theme tm :
  NoDup (map car_id tm) -> NoDup (map car_id (countTheme theme tm)).
Proof.
  intros Hnd. rewrite countTheme_ids. case_bool_decide as Hin; [exact Hnd|].
  apply NoDup_app. split; [exact Hnd|]. split.
  - intros x Hx Hx'. apply list_elem_of_singleton in Hx'. now subst x.
  - apply NoDup_singleton.
Qed.

Lemma countTheme_elem theme tm c :
  NoDup (map car_id tm) ->
  c ∈ countTheme theme tm ->
  (car_id c <> themeId theme /\ c ∈ tm)
  \/ (car_id c = themeId theme
      /\ (((themeId theme ∉ map car_id tm) /\ car_count c = Some 1)
          \/ (exists c0, c0 ∈ tm /\ car_id c0 = themeId theme
                         /\ car_count c
                            = option_map (fun n => n + 1) (car_count c0)))).
Proof.
  induction tm as [|d tm IH]; simpl; intros Hnd Hin.
  - apply list_elem_of_singleton in Hin. subst c. right. split; [reflexivity|].
    left. split; [apply not_elem_of_nil | reflexivity].
  - apply NoDup_cons in Hnd as [Hd Hnd].
    case_bool_decide as Hid.
    + apply elem_of_cons in Hin as [-> | Hin].
      * right. split; [exact Hid|]. right. exists d.
        split; [apply list_elem_of_here | split; [exact Hid | reflexivity]].
      * left. split; [|now apply list_elem_of_further].
        intros Hc. apply Hd. rewrite Hid, <- Hc.
        apply list_elem_of_fmap. now exists c.
    + apply elem_of_cons in Hin as [-> | Hin].
      * left. split; [exact Hid | apply list_elem_of_here].
      * destruct (IH Hnd Hin) as [[Hne Hc] | [Heq [[Hnot Hone] | (c0 & Hc0 & Hid0 & Hcnt)]]].
        -- left. split; [exact Hne | now apply list_elem_of_further].
        -- right. split; [exact Heq|]. left. split; [|exact Hone].
           intros Hin'. apply elem_of_cons in Hin' as [Hx | Hx];
             [now symmetry in Hx | contradiction].
        -- right. split; [exact Heq|]. right. exists c0.
           split; [now apply list_elem_of_further | now split].
Qed.

Lemma countMovie_mentions tm movies :
  foldl countMovie tm movies
  = foldl (fun tm theme => countTheme theme tm) tm (mentions movies).
Proof.
  unfold mentions. revert tm. induction movies as [|m movies IH]; intros tm.
  - reflexivity.
  - simpl. rewrite filter_app, foldl_app, IH. f_equal.
    unfold countMovie. generalize (movieThemes m). intros l. revert tm.
    induction l as [|t l IHl]; intros tm; [reflexivity|].
    simpl. rewrite filter_cons. case_bool_decide as Hn.
    + rewrite decide_False by (now intros ?). apply IHl.
    + rewrite decide_True by exact Hn. simpl. apply IHl.
Qed.

Lemma countsRight_step ts tm theme :
  countsRight ts tm -> countsRight (ts ++ [theme]) (countTheme theme tm).
Proof.
  intros (Hnd & Hcnt & Hall). split; [now apply countTheme_NoDup|]. split.
  - intros c Hc. rewrite filter_app, length_app, filter_cons, filter_nil.
    destruct (countTheme_elem _ _ _ Hnd Hc)
      as [[Hne Hin] | [Heq [[Hnot Hone] | (c0 & Hc0 & Hid0 & Hc1)]]].
    + rewrite (Hcnt c Hin).
      destruct (decide (themeId theme = car_id c)) as [He | _];
        [now symmetry in He|].
      cbn [length]. now rewrite Nat.add_0_r.
    + rewrite Hone.
      destruct (decide (themeId theme = car_id c)) as [_ | He];
        [|now symmetry in Heq].
      replace (filter (fun t => themeId t = car_id c) ts) with (@nil jsstring).
      * reflexivity.
      * symmetry. apply filter_none. intros t Ht Hid.
        apply Hnot. rewrite <- Heq, <- Hid. now apply Hall.
    + rewrite Hc1, (Hcnt c0 Hc0).
      destruct (decide (themeId theme = car_id c)) as [_ | He];
        [|now symmetry in Heq].
      cbn [option_map length]. rewrite Hid0, Heq. f_equal. lia.
  - intros t Ht. rewrite countTheme_ids.
    apply elem_of_app in Ht as [Ht | Ht].
    + case_bool_decide; [now apply Hall|]. apply elem_of_app. left. now apply Hall.
    + apply list_elem_of_singleton in Ht. subst t.
      case_bool_decide as Hin; [exact Hin|]. apply elem_of_app. right.
      apply list_elem_of_here.
Qed.

Lemma countsRight_fold ts :
  countsRight ts (foldl (fun tm theme => countTheme theme tm) [] ts).
Proof.
  induction ts as [|t ts IH] using rev_ind.
  - split; [constructor|]. split; intros ? H; inversion H.
  - rewrite foldl_app. simpl. now apply countsRight_step.
Qed.

(** X24. The themes [loadThemesFromData] derives from the movies:
    every theme kept is mentioned at least ten times, and its count is
    the number of times a movie names it as its primary or its
    secondary theme (the word none apart); the ids are distinct; the
    themes come out by count, highest first; and every theme mentioned
    ten times or more is kept. *)
Theorem themesFrom_counts (movies : list rawMovie) :
  NoDup (map car_id (themesFrom movies))
  /\ StronglySorted (fun a b => (countZ b <= countZ a)%Z) (themesFrom movies)
  /\ (forall c, c ∈ themesFrom movies ->
        car_count c = Some (mentionsOf (car_id c) movies)
        /\ 10 <= mentionsOf (car_id c) movies)
  /\ (forall t, t ∈ mentions movies -> 10 <= mentionsOf (themeId t) movies ->
        themeId t ∈ map car_id (themesFrom movies)).
Proof.
  pose proof (countsRight_fold (mentions movies)) as (Hnd & Hcnt & Hall).
  rewrite <- countMovie_mentions in Hnd, Hcnt, Hall.
  assert (Hperm : themesFrom movies
                  ≡ₚ filter (fun c => atLeastTen c = true)
                       (foldl countMovie [] movies))
    by apply arraySort_perm.
  split; [|split; [|split]].
  - rewrite Hperm. eapply sublist_NoDup; [exact Hnd|].
    apply (fmap_sublist car_id). apply sublist_filter.
  - unfold themesFrom.
    pose proof (arraySort_sorted (fun a b => (countZ b - countZ a)%Z)
                  (fun c => (- countZ c)%Z)
                  (filter (fun c => atLeastTen c = true)
                     (foldl countMovie [] movies))) as Hs.
    eapply sorted_weaken; [|apply Hs; intros; lia].
    simpl. intros; lia.
  - intros c Hc. rewrite Hperm in Hc.
    apply list_elem_of_filter in Hc as [Hten Hc].
    specialize (Hcnt c Hc). unfold mentionsOf. split; [exact Hcnt|].
    unfold atLeastTen in Hten. rewrite Hcnt in Hten. now apply N.leb_le.
  - intros t Ht Hten. specialize (Hall t Ht).
    apply list_elem_of_fmap in Hall as (c & Hid & Hc).
    apply list_elem_of_fmap. exists c. split; [exact Hid|].
    rewrite Hperm. apply list_elem_of_filter. split; [|exact Hc].
    unfold atLeastTen. rewrite (Hcnt c Hc). apply N.leb_le.
    unfold mentionsOf in Hten. now rewrite <- Hid.
Qed.

Lemma indexOf_range l x :
  (-1 <= indexOf l x)%Z /\ (x ∉ l <-> indexOf l x = (-1)%Z).
Proof.
  induction l as [|y l [IH1 IH2]]; simpl.
  - split; [lia|]. split; [reflexivity | intros _; apply not_elem_of_nil].
  - case_bool_decide as Hy.
    + split; [lia|]. split; [|lia]. intros Hn. exfalso. apply Hn. subst.
      apply list_elem_of_here.
    + destruct (Z.ltb_spec (indexOf l x) 0).
      * split; [lia|]. split; [reflexivity|]. intros _ Hin.
        apply elem_of_cons in Hin as [Hx | Hin]; [now symmetry in Hx|].
        revert Hin. apply IH2. lia.
      * split; [lia|]. split; [|lia]. intros Hn. exfalso.
        assert (Hx : x ∉ l) by (intros Hin; apply Hn; now apply list_elem_of_further).
        apply IH2 in Hx. lia.
Qed.

Lemma indexOf_app_fresh l1 x l2 :
  x ∉ l1 -> indexOf (l1 ++ x :: l2) x = Z.of_nat (length l1).
Proof.
  induction l1 as [|y l1 IH]; simpl; intros Hx.
  - now rewrite bool_decide_eq_true_2.
  - rewrite bool_decide_eq_false_2.
    + rewrite IH; [|intros Hin; apply Hx; now apply list_elem_of_further].
      destruct (Z.ltb_spec (Z.of_nat (length l1)) 0); lia.
    + intros ->. apply Hx, list_elem_of_here.
Qed.

Lemma own_order_sorted (pre l : list carousel) :
  NoDup (map car_id (pre ++ l)) ->
  StronglySorted
    (fun a b => (indexOf (map car_id (pre ++ l)) (car_id a)
                 - indexOf (map car_id (pre ++ l)) (car_id b) <= 0)%Z) l.
Proof.
  revert pre. induction l as [|a l IH]; intros pre Hnd; [constructor|].
  constructor.
  - specialize (IH (pre ++ [a])). rewrite <- app_assoc in IH. now apply IH.
  - apply Forall_forall. intros b Hb.
    apply list_elem_of_split in Hb as (m1 & m2 & ->).
    assert (Ha : indexOf (map car_id (pre ++ a :: m1 ++ b :: m2)) (car_id a)
                 = Z.of_nat (length pre)).
    { rewrite map_app. simpl. rewrite indexOf_app_fresh; [now rewrite length_map|].
      rewrite map_app in Hnd. apply NoDup_app in Hnd as (_ & Hd & _).
      intros Hin. apply (Hd _ Hin). apply list_elem_of_here. }
    assert (Hb : indexOf (map car_id (pre ++ a :: m1 ++ b :: m2)) (car_id b)
                 = Z.of_nat (length (pre ++ a :: m1))).
    { replace (pre ++ a :: m1 ++ b :: m2) with ((pre ++ a :: m1) ++ b :: m2)
        by (now rewrite <- app_assoc).
      rewrite map_app. simpl. rewrite indexOf_app_fresh; [now rewrite length_map|].
      replace (pre ++ a :: m1 ++ b :: m2) with ((pre ++ a :: m1) ++ b :: m2) in Hnd
        by (now rewrite <- app_assoc).
      rewrite map_app in Hnd. apply NoDup_app in Hnd as (_ & Hd & _).
      intros Hin. apply (Hd _ Hin). apply list_elem_of_here. }
    rewrite Ha, Hb, length_app. lia.
Qed.

Lemma StronglySorted_filter {A} (R : A -> A -> Prop) (P : A -> Prop)
  `{forall x, Decision (P x)} (l : list A) :
  StronglySorted R l -> StronglySorted R (filter P l).
Proof.
  induction 1 as [|x l Hs IH Hx]; [constructor|].
  rewrite filter_cons. case_decide; [|exact IH].
  constructor; [exact IH|]. rewrite Forall_forall in Hx |- *.
  intros y Hy. apply list_elem_of_filter in Hy as [_ Hy]. now apply Hx.
Qed.

(** X25. The carousels [getEnabledCarousels] returns are the loaded
    themes that are not switched off in the saved settings, rearranged
    by their position in the order in use (the saved order, or the
    loaded one when none is saved).  A theme that order does not list
    has position -1, so it comes before every listed one.  With no
    saved order and distinct ids the themes stay in the order in which
    they were loaded. *)
Theorem getEnabledCarousels_order (themed : list carousel)
  (savedSettings : jsstring -> option bool) (savedOrder : list jsstring) :
  getEnabledCarousels themed savedSettings savedOrder
    ≡ₚ filter (fun c => carouselEnabled savedSettings c = true) themed
  /\ (forall l1 a l2 b l3,
        getEnabledCarousels themed savedSettings savedOrder
        = l1 ++ a :: l2 ++ b :: l3 ->
        (indexOf (carouselOrder themed savedOrder) (car_id a)
         <= indexOf (carouselOrder themed savedOrder) (car_id b))%Z
        /\ (car_id b ∉ carouselOrder themed savedOrder ->
            car_id a ∉ carouselOrder themed savedOrder))
  /\ (savedOrder = [] -> NoDup (map car_id themed) ->
      getEnabledCarousels themed savedSettings savedOrder
      = filter (fun c => carouselEnabled savedSettings c = true) themed).
Proof.
  destruct themed as [|c0 themed'] eqn:Eth.
  { simpl. split; [reflexivity|]. split; [|reflexivity].
    intros l1 a l2 b l3 H. destruct l1; discriminate. }
  rewrite <- Eth. assert (Hget : getEnabledCarousels themed savedSettings savedOrder
    = arraySort
        (fun a b => (indexOf (carouselOrder themed savedOrder) (car_id a)
                     - indexOf (carouselOrder themed savedOrder) (car_id b))%Z)
        (filter (fun c => carouselEnabled savedSettings c = true) themed))
    by (now rewrite Eth).
  rewrite Hget. clear Eth Hget. split; [apply arraySort_perm|]. split.
  - intros l1 a l2 b l3 Hsplit.
    pose proof (arraySort_sorted
                  (fun a b => (indexOf (carouselOrder themed savedOrder) (car_id a)
                     - indexOf (carouselOrder themed savedOrder) (car_id b))%Z)
                  (fun c => indexOf (carouselOrder themed savedOrder) (car_id c))
                  (filter (fun c => carouselEnabled savedSettings c = true) themed)
                  (fun _ _ => eq_refl)) as Hs.
    rewrite Hsplit in Hs. apply sorted_split in Hs. split; [exact Hs|].
    intros Hb. apply indexOf_range in Hb. apply indexOf_range.
    pose proof (proj1 (indexOf_range (carouselOrder themed savedOrder) (car_id a))).
    lia.
  - intros -> Hnd. apply arraySort_already. simpl.
    apply StronglySorted_filter. apply (own_order_sorted [] themed Hnd).
Qed.

Lemma getEnabledCarousels_order_witness :
  getEnabledCarousels fallbackThemes (fun _ => None) []
  = filter (fun c => carouselEnabled (fun _ => None) c = true) fallbackThemes.
Proof.
  apply (getEnabledCarousels_order fallbackThemes (fun _ => None) []).
  - reflexivity.
  - apply (bool_decide_eq_true_1 (NoDup (map car_id fallbackThemes))).
    vm_compute. reflexivity.
Defined.

(** ** White space at the ends of a title *)

Lemma trimStart_spaces s :
  exists p, s = p ++ trimStart s /\ forallb isSpace p = true.
Proof.
  induction s as [|c s (p & IH & Hp)]; [now exists []|]. cbn [trimStart].
  destruct (isSpace c) eqn:Hc.
  - exists (c :: p). split; [simpl; now rewrite <- IH|].
    simpl. now rewrite Hc.
  - now exists [].
Qed.

Lemma forallb_rev (P : N -> bool) s :
  forallb P s = true -> forallb P (rev s) = true.
Proof.
  rewrite !forallb_forall. intros H x Hx. apply H. now apply in_rev.
Qed.

Lemma trimEnd_spaces s :
  exists p, s = trimEnd s ++ p /\ forallb isSpace p = true.
Proof.
  unfold trimEnd. destruct (trimStart_spaces (rev s)) as (p & H & Hp).
  exists (rev p). split; [|now apply forallb_rev].
  rewrite <- rev_app_distr, <- H. now rewrite rev_involutive.
Qed.

Lemma trimStart_app_spaces p s :
  forallb isSpace p = true -> trimStart (p ++ s) = trimStart s.
Proof.
  induction p as [|c p IH]; [reflexivity|]. simpl.
  rewrite andb_true_iff. intros [-> Hp]. now apply IH.
Qed.

Lemma trimEnd_app_spaces s p :
  forallb isSpace p = true -> trimEnd (s ++ p) = trimEnd s.
Proof.
  intros Hp. unfold trimEnd. rewrite rev_app_distr.
  rewrite trimStart_app_spaces; [reflexivity | now apply forallb_rev].
Qed.

Lemma trimStart_app_tail y s :
  forallb isSpace s = true ->
  exists s', trimStart (y ++ s) = trimStart y ++ s'
             /\ forallb isSpace s' = true.
Proof.
  intros Hs. induction y as [|c y IH].
  - exists []. split; [|reflexivity]. simpl.
    rewrite <- (app_nil_r s). rewrite trimStart_app_spaces by exact Hs.
    reflexivity.
  - cbn [app trimStart]. destruct (isSpace c); [exact IH|].
    now exists s.
Qed.

Lemma trim_app_spaces y s :
  forallb isSpace s = true -> trim (y ++ s) = trim y.
Proof.
  intros Hs. unfold trim.
  destruct (trimStart_app_tail y s Hs) as (s' & -> & Hs').
  now apply trimEnd_app_spaces.
Qed.

Lemma trimStart_collapse_run x :
  trimStart (collapseFrom true x) = trimStart (collapseFrom false x).
Proof.
  destruct x as [|c x]; [reflexivity|]. cbn [collapseFrom].
  destruct (isSpace c); reflexivity.
Qed.

Lemma trimStart_collapse b p x :
  forallb isSpace p = true ->
  trimStart (collapseFrom b (p ++ x)) = trimStart (collapseFrom false x).
Proof.
  revert b. induction p as [|c p IH]; intros b.
  - intros _. destruct b; [apply trimStart_collapse_run | reflexivity].
  - cbn [forallb app collapseFrom]. rewrite andb_true_iff. intros [-> Hp].
    destruct b; cbn [trimStart isSpace]; now apply IH.
Qed.

Lemma collapseFrom_app_spaces b x q :
  forallb isSpace q = true ->
  exists s, collapseFrom b (x ++ q) = collapseFrom b x ++ s
            /\ forallb isSpace s = true.
Proof.
  intros Hq. revert b. induction x as [|c x IH]; intros b.
  - exists (collapseFrom b q). split; [reflexivity|].
    now apply forallb_collapseFrom.
  - cbn [app collapseFrom]. destruct (isSpace c).
    + destruct (IH true) as (s & -> & Hs). destruct b; now exists s.
    + destruct (IH false) as (s & -> & Hs). now exists s.
Qed.

Lemma collapse_trim_spaces p x q :
  forallb isSpace p = true -> forallb isSpace q = true ->
  trim (collapseSpaces (p ++ x ++ q)) = trim (collapseSpaces x).
Proof.
  intros Hp Hq. unfold collapseSpaces.
  transitivity (trim (collapseFrom false (x ++ q))).
  - unfold trim. now rewrite (trimStart_collapse false p (x ++ q) Hp).
  - destruct (collapseFrom_app_spaces false x q Hq) as (s & -> & Hs).
    now apply trim_app_spaces.
Qed.

Lemma isSpace_listed c : isSpace c = true -> c ∈ spaceUnits.
Proof.
  unfold isSpace, spaceUnits.
  rewrite !orb_true_iff, !andb_true_iff, !N.eqb_eq, !N.leb_le.
  intros H. rewrite !elem_of_app.
  repeat match goal with H : _ \/ _ |- _ => destruct H as [H|H] end;
    try match goal with H : _ /\ _ |- _ => destruct H end;
    first [ left; apply unitRange_elem; simpl; lia
          | right; left; apply unitRange_elem; simpl; lia
          | subst c; right; right;
            repeat first [ apply list_elem_of_here | apply list_elem_of_further ] ].
Qed.

Lemma settle_space c :
  isSpace c = true ->
  forallb isSpace (stripDiacritics (decompose (toLowerCaseUnit c))) = true.
Proof.
  intros H. apply isSpace_listed in H. revert c H.
  apply Forall_forall.
  apply (Forall_forall
           (fun c => forallb isSpace
                       (stripDiacritics (decompose (toLowerCaseUnit c))) = true)).
  intros c Hc%list_elem_of_In. revert c Hc. apply forallb_forall.
  vm_compute. reflexivity.
Qed.

Lemma settle_app a b :
  stripDiacritics (normalizeNFKD (toLowerCase (a ++ b)))
  = stripDiacritics (normalizeNFKD (toLowerCase a))
    ++ stripDiacritics (normalizeNFKD (toLowerCase b)).
Proof.
  unfold toLowerCase, normalizeNFKD.
  now rewrite map_app, flat_map_app, stripDiacritics_app.
Qed.

Lemma settle_spaces p :
  forallb isSpace p = true ->
  forallb isSpace (stripDiacritics (normalizeNFKD (toLowerCase p))) = true.
Proof.
  induction p as [|c p IH]; [reflexivity|]. cbn [forallb].
  rewrite andb_true_iff. intros [Hc Hp].
  change (c :: p) with ([c] ++ p). rewrite settle_app, forallb_app.
  rewrite (IH Hp), andb_true_r.
  unfold toLowerCase, normalizeNFKD. cbn [map flat_map].
  rewrite app_nil_r. now apply settle_space.
Qed.

Lemma makeKey_trim s : makeKey (Some (trim s)) = makeKey (Some s).
Proof.
  rewrite !makeKey_present.
  destruct (trimStart_spaces s) as (p & Hs & Hp).
  destruct (trimEnd_spaces (trimStart s)) as (q & Ht & Hq).
  fold (trim s) in Ht. rewrite Ht in Hs.
  remember (trim s) as t eqn:E. clear E Ht. subst s.
  rewrite !settle_app. symmetry.
  apply collapse_trim_spaces; now apply settle_spaces.
Qed.

Lemma makeKey_toStr x : makeKey x = makeKey (Some (toStr x)).
Proof. destruct x as [[|c s]|]; reflexivity. Qed.

Lemma pref_cases x y :
  (pref x y = trim (toStr x) \/ pref x y = trim (toStr y))
  /\ (trim (toStr x) <> [] -> trim (toStr y) <> [] -> pref x y <> []).
Proof.
  unfold pref. destruct (trim (toStr x)) as [|a sx] eqn:Ex,
    (trim (toStr y)) as [|b sy] eqn:Ey; try (split; [tauto | congruence]).
  destruct (length (a :: sx) <? length (b :: sy))%nat; split;
    try tauto; congruence.
Qed.

Lemma trim_pref x y : trim (pref x y) = pref x y.
Proof.
  destruct (proj1 (pref_cases x y)) as [-> | ->]; apply trim_idempotent.
Qed.

Lemma makeKey_pref x y k :
  makeKey x = k -> makeKey y = k -> makeKey (Some (pref x y)) = k.
Proof.
  intros Hx Hy. destruct (proj1 (pref_cases x y)) as [-> | ->];
    rewrite makeKey_trim, <- makeKey_toStr; assumption.
Qed.

(** ** loadAllSources *)

Lemma mergedGet_Some merged key old :
  mergedGet merged key = Some old -> (key, old) ∈ merged.
Proof.
  induction merged as [|[k m] merged IH]; [discriminate|]. simpl.
  case_bool_decide as Hk.
  - intros [= <-]. subst k. apply list_elem_of_here.
  - intros H. apply list_elem_of_further. now apply IH.
Qed.

Lemma mergedSet_keys merged key m :
  map fst (mergedSet merged key m)
  = if bool_decide (key ∈ map fst merged) then map fst merged
    else map fst merged ++ [key].
Proof.
  induction merged as [|[k m0] merged IH]; cbn [mergedSet map fst].
  - rewrite bool_decide_eq_false_2; [reflexivity | apply not_elem_of_nil].
  - destruct (decide (k = key)) as [Hk | Hk].
    + rewrite (bool_decide_eq_true_2 _ Hk).
      rewrite bool_decide_eq_true_2; [reflexivity|].
      rewrite Hk. apply list_elem_of_here.
    + rewrite (bool_decide_eq_false_2 _ Hk). cbn [map fst]. rewrite IH.
      destruct (decide (key ∈ map fst merged)) as [Hin | Hin].
      * rewrite (bool_decide_eq_true_2 _ Hin).
        rewrite bool_decide_eq_true_2; [reflexivity|].
        now apply list_elem_of_further.
      * rewrite (bool_decide_eq_false_2 _ Hin).
        rewrite bool_decide_eq_false_2; [reflexivity|].
        intros Hin'. apply elem_of_cons in Hin' as [Heq|Hin'];
          [now symmetry in Heq | contradiction].
Qed.

Lemma mergedSet_elem merged key m e :
  e ∈ mergedSet merged key m -> e = (key, m) \/ e ∈ merged.
Proof.
  induction merged as [|[k m0] merged IH]; cbn [mergedSet]; intros He.
  - apply list_elem_of_singleton in He. now left.
  - case_bool_decide as Hk.
    + apply elem_of_cons in He as [-> | He].
      * left. now subst k.
      * right. now apply list_elem_of_further.
    + apply elem_of_cons in He as [-> | He].
      * right. apply list_elem_of_here.
      * destruct (IH He) as [-> | Hin]; [now left|].
        right. now apply list_elem_of_further.
Qed.

Lemma mergedSet_right merged key m :
  mergedRight merged ->
  makeKey (title m) = key -> loaded m -> trim (toStr (title m)) <> [] ->
  mergedRight (mergedSet merged key m).
Proof.
  intros [Hnd Hall] Hk Hl Ht. split.
  - rewrite mergedSet_keys. case_bool_decide as Hin; [exact Hnd|].
    apply NoDup_app. split; [exact Hnd|]. split.
    + intros x Hx Hx'. apply list_elem_of_singleton in Hx'. now subst x.
    + apply NoDup_singleton.
  - apply Forall_forall. intros e He.
    destruct (mergedSet_elem _ _ _ _ He) as [-> | Hin]; [now simpl|].
    rewrite Forall_forall in Hall. now apply Hall.
Qed.

Lemma skipped_false m :
  skipped m = false -> trim (toStr (title m)) <> [].
Proof.
  unfold skipped. rewrite !orb_false_iff, !negb_false_iff.
  intros [[_ H] _] E. now rewrite E in H.
Qed.

Lemma addMovie_right merged obj :
  mergedRight merged -> mergedRight (addMovie merged obj).
Proof.
  intros Hm. unfold addMovie.
  destruct (skipped (normalizeMovie obj)) eqn:Hs; [exact Hm|].
  apply skipped_false in Hs.
  destruct (mergedGet merged (makeKey (title (normalizeMovie obj))))
    as [old|] eqn:Hg.
  - apply mergedGet_Some in Hg. destruct Hm as [Hnd Hall].
    pose proof Hall as Hall'. rewrite Forall_forall in Hall'.
    destruct (Hall' _ Hg) as (Hk & Hl & Ht). simpl in Hk, Hl, Ht.
    apply mergedSet_right; [now split | | |].
    + cbn [mergeMovies title]. now apply makeKey_pref.
    + apply loaded_merge; [exact Hl | apply loaded_normalize].
    + cbn [mergeMovies title]. change (toStr (Some ?p)) with p.
      rewrite trim_pref. now apply (proj2 (pref_cases _ _)).
  - apply mergedSet_right; [exact Hm | reflexivity | apply loaded_normalize
                           | exact Hs].
Qed.

Lemma addMovie_keys_grow merged obj k :
  k ∈ map fst merged -> k ∈ map fst (addMovie merged obj).
Proof.
  intros Hk. unfold addMovie.
  destruct (skipped (normalizeMovie obj)); [exact Hk|].
  destruct (mergedGet merged _); rewrite mergedSet_keys;
    case_bool_decide; try exact Hk; apply elem_of_app; now left.
Qed.

Lemma addMovie_adds merged obj :
  skipped (normalizeMovie obj) = false ->
  makeKey (title (normalizeMovie obj)) ∈ map fst (addMovie merged obj).
Proof.
  intros Hs. unfold addMovie. rewrite Hs.
  destruct (mergedGet merged _); rewrite mergedSet_keys;
    case_bool_decide as Hin; try exact Hin; apply elem_of_app; right;
    apply list_elem_of_here.
Qed.

Lemma addMovies_right objs merged :
  mergedRight merged -> mergedRight (foldl addMovie merged objs).
Proof.
  revert merged. induction objs as [|obj objs IH]; intros merged Hm;
    [exact Hm|].
  simpl. now apply IH, addMovie_right.
Qed.

Lemma addMovies_keys_grow objs merged k :
  k ∈ map fst merged -> k ∈ map fst (foldl addMovie merged objs).
Proof.
  revert merged. induction objs as [|obj objs IH]; intros merged Hk;
    [exact Hk|].
  simpl. now apply IH, addMovie_keys_grow.
Qed.

Lemma addMovies_adds objs merged obj :
  obj ∈ objs -> skipped (normalizeMovie obj) = false ->
  makeKey (title (normalizeMovie obj)) ∈ map fst (foldl addMovie merged objs).
Proof.
  intros Hin Hs. revert merged.
  induction objs as [|o objs IH]; intros merged; [inversion Hin|].
  simpl. apply elem_of_cons in Hin as [<- | Hin].
  - now apply addMovies_keys_grow, addMovie_adds.
  - now apply IH.
Qed.

Lemma addEntries_profiles objs rest merged :
  addEntries merged (map Profile objs ++ rest)
  = addEntries (foldl addMovie merged objs) rest.
Proof.
  revert merged. induction objs as [|obj objs IH]; intros merged;
    [reflexivity|].
  simpl. apply IH.
Qed.

Lemma addEntries_right entries merged :
  mergedRight merged -> mergedRight (addEntries merged entries).
Proof.
  revert merged. induction entries as [|[obj|] entries IH]; intros merged Hm;
    simpl; [exact Hm | | exact Hm].
  now apply IH, addMovie_right.
Qed.

Lemma addEntries_keys_grow entries merged k :
  k ∈ map fst merged -> k ∈ map fst (addEntries merged entries).
Proof.
  revert merged. induction entries as [|[obj|] entries IH]; intros merged Hk;
    simpl; [exact Hk | | exact Hk].
  now apply IH, addMovie_keys_grow.
Qed.

Lemma addSources_right sources merged :
  mergedRight merged -> mergedRight (foldl addSource merged sources).
Proof.
  revert merged. induction sources as [|src sources IH]; intros merged Hm;
    [exact Hm|].
  simpl. apply IH. destruct src as [entries|]; [|exact Hm].
  now apply addEntries_right.
Qed.

Lemma addSources_keys_grow sources merged k :
  k ∈ map fst merged -> k ∈ map fst (foldl addSource merged sources).
Proof.
  revert merged. induction sources as [|src sources IH]; intros merged Hk;
    [exact Hk|].
  simpl. apply IH. destruct src as [entries|]; [|exact Hk].
  now apply addEntries_keys_grow.
Qed.

Lemma addSources_adds sources merged objs rest obj :
  Some (map Profile objs ++ rest) ∈ sources -> obj ∈ objs ->
  skipped (normalizeMovie obj) = false ->
  makeKey (title (normalizeMovie obj))
    ∈ map fst (foldl addSource merged sources).
Proof.
  intros Hsrc Hin Hs. revert merged.
  induction sources as [|src sources IH]; intros merged; [inversion Hsrc|].
  simpl. apply elem_of_cons in Hsrc as [<- | Hsrc].
  - apply addSources_keys_grow. simpl. rewrite addEntries_profiles.
    now apply addEntries_keys_grow, addMovies_adds.
  - now apply IH.
Qed.

Lemma mergedRight_keys merged :
  mergedRight merged ->
  map (fun m => makeKey (title m)) (map snd merged) = map fst merged.
Proof.
  intros [_ Hall]. induction Hall as [|e merged (He & _) _ IH];
    [reflexivity|].
  simpl. now rewrite He, IH.
Qed.

(** X26. The catalog [loadAllSources] builds.  Whatever the order
    the final sort gives it, every movie in it is a loaded record with
    a title that is not blank; no two movies have the same key, so
    looking a movie up by the key of its title finds that very movie;
    and every profile of a source that was read, met before any value
    of that source on which [normalizeMovie] throws and not skipped for
    its title, is represented by the movie with its key, also when
    other sources failed.  A value on which [normalizeMovie] throws
    ends the reading of its source: what stands after it is not
    read. *)
Theorem loadAllSources_catalog (sources : list (option (list sourceEntry)))
  (data : list movie) :
  data ≡ₚ map snd (mergeSources sources) ->
  Forall loaded data
  /\ Forall (fun m => trim (toStr (title m)) <> []) data
  /\ NoDup (map (fun m => makeKey (title m)) data)
  /\ (forall m, m ∈ data -> byKeyGet data (makeKey (title m)) = Some m)
  /\ (forall objs rest obj,
        Some (map Profile objs ++ rest) ∈ sources -> obj ∈ objs ->
        skipped (normalizeMovie obj) = false ->
        exists m, m ∈ data
                  /\ makeKey (title m) = makeKey (title (normalizeMovie obj)))
  /\ (forall merged objs rest,
        addSource merged (Some (map Profile objs ++ Unreadable :: rest))
        = addSource merged (Some (map Profile objs))).
Proof.
  intros Hperm.
  assert (Hright : mergedRight (mergeSources sources)).
  { apply addSources_right. split; constructor. }
  pose proof (mergedRight_keys _ Hright) as Hkeys.
  destruct Hright as [Hnd Hall].
  assert (Hdata : Forall (fun m => loaded m /\ trim (toStr (title m)) <> [])
                    data).
  { rewrite Hperm. apply Forall_fmap. eapply Forall_impl; [exact Hall|].
    simpl. tauto. }
  assert (Hnd' : NoDup (map (fun m => makeKey (title m)) data)).
  { rewrite Hperm, Hkeys. exact Hnd. }
  split; [|split; [|split; [|split; [|split]]]].
  - eapply Forall_impl; [exact Hdata|]. simpl. tauto.
  - eapply Forall_impl; [exact Hdata|]. simpl. tauto.
  - exact Hnd'.
  - intros m Hm. apply list_elem_of_split in Hm as (l1 & l2 & ->).
    unfold byKeyGet.
    apply (last_filter_later
             (fun m' => makeKey (title m') = makeKey (title m))).
    + reflexivity.
    + rewrite map_app in Hnd'. apply NoDup_app in Hnd' as (_ & _ & Hnd').
      simpl in Hnd'. apply NoDup_cons in Hnd' as [Hnot _].
      apply Forall_forall. intros m' Hm' Hk. apply Hnot. rewrite <- Hk.
      apply list_elem_of_fmap. now exists m'.
  - intros objs rest obj Hsrc Hin Hs.
    pose proof (addSources_adds sources [] objs rest obj Hsrc Hin Hs) as Hk.
    fold (mergeSources sources) in Hk. rewrite <- Hkeys in Hk.
    apply list_elem_of_fmap in Hk as (m & Hkm & Hm).
    exists m. split; [now rewrite Hperm | now symmetry].
  - intros merged objs rest. simpl.
    rewrite addEntries_profiles.
    pose proof (addEntries_profiles objs [] merged) as Hn.
    rewrite app_nil_r in Hn. now rewrite Hn.
Qed.

Lemma loadAllSources_catalog_witness :
  NoDup (map (fun m => makeKey (title m)) (map snd (mergeSources sampleSources))).
Proof.
  apply (loadAllSources_catalog sampleSources
           (map snd (mergeSources sampleSources))).
  reflexivity.
Defined.

(** The two spellings of the first source are merged under one key,
    and what stands after the unreadable value of the third source is
    missing. *)
Example loadAllSources_merges_spellings :
  map fst (mergeSources sampleSources)
  = [lit "alien"; lit "amelie"; lit "heat"]
  /\ map (fun m => title m) (map snd (mergeSources sampleSources))
     = [Some (lit "Alien"); Some (lit "Amelie"); Some (lit "Heat")].
Proof. vm_compute. split; reflexivity. Qed.

(** Five movies that name one theme as primary and as secondary theme
    make a carousel of count ten; the title is that of the first
    spelling met. *)
Example themesFrom_counts_both_slots :
  themesFrom (repeat (rawOfThemes (Some (lit "found_family"))
                        (Some (lit "Found_Family"))) 5
              ++ [rawOfThemes (Some (lit "revenge")) (Some (lit "none"))])
  = [{| car_id := lit "found-family"; car_title := lit "Found Family";
        car_theme := lit "Found Family"; car_count := Some 10;
        car_limit := 10 |}].
Proof. vm_compute. reflexivity. Qed.

(** A theme the saved order does not list is shown first. *)
Example getEnabledCarousels_unlisted_first :
  map car_id
    (getEnabledCarousels fallbackThemes
       (fun id => if bool_decide (id = lit "forbidden-love")
                  then Some false else None)
       [lit "coming-of-age"; lit "found-family"; lit "identity-crisis"])
  = [lit "underdog-triumph"; lit "coming-of-age"; lit "found-family";
     lit "identity-crisis"].
Proof. vm_compute. reflexivity. Qed.
